(** * Character-sheet fields: stats, bonuses, durations and effects

    A shallow embedding of [char_sheet/fields.py].  The program runs under
    Python 3 (the command shell that loads it starts with a python3 shebang
    and reads lines with [input]), so [/] is true division and [//] is floor
    division.

    Objects are identified by their [name]: the store of a character maps a
    name to the object of that name, and a reference held by another object
    (a stat in a bonus list, a bonus in an effect) is the name.  An exception
    leaves the store as it was when it was raised, as in Python; the store
    is therefore part of every outcome. *)

From Stdlib Require Import ZArith SpecFloat String Ascii List Lia.
From stdpp Require Import gmap strings list fin_maps pretty.
Local Open Scope Z_scope.

(** ** Python values, exceptions and string primitives *)

Module Py.

(** The exceptions the program raises or lets through.  [Dangling] is not a
    Python exception: it marks a name that denotes no object in the store,
    which a Python reference cannot do. *)
Inductive exn :=
| RuntimeError
| DependencyError (names : list string)
| FormulaError
| ValueError
| KeyError
| AttributeError
| NameError
| TypeError
| ZeroDivisionError
| OverflowError
| SyntaxError
| Dangling.

(** The values a formula evaluates to. *)
Inductive pyval :=
| VNone
| VInt (z : Z)
| VFloat (f : spec_float).

Inductive eres :=
| EVal (v : pyval)
| EExn (e : exn).

(** *** Floats

    A Python float is an IEEE 754 binary64 number: 53 bits of mantissa,
    results rounded to the nearest, ties to even. *)
Definition prec : Z := 53.
Definition emax : Z := 1024.

Definition fadd : spec_float -> spec_float -> spec_float := SFadd prec emax.
Definition fsub : spec_float -> spec_float -> spec_float := SFsub prec emax.
Definition fmul : spec_float -> spec_float -> spec_float := SFmul prec emax.
Definition fdiv : spec_float -> spec_float -> spec_float := SFdiv prec emax.

Definition fzero : spec_float := S754_zero false.

(** The float nearest to [m * 2^e], which is that number where [m] has at
    most 53 bits: 3.5 is [dyadic 7 (-1)]. *)
Definition dyadic (m e : Z) : spec_float := binary_normalize prec emax m e false.

(** [x == 0.0], [x < 0.0] and [x > y] of C. *)
Definition f_is_zero (x : spec_float) : bool := SFeqb x fzero.
Definition f_neg (x : spec_float) : bool := SFltb x fzero.
Definition f_gt (x y : spec_float) : bool := SFltb y x.

(** The sign bit, for [copysign]. *)
Definition sign_of (x : spec_float) : bool :=
  match x with
  | S754_zero s | S754_infinity s | S754_finite s _ _ => s
  | S754_nan => false
  end.

(** A float that overflowed where Python raises instead. *)
Definition finite_or_overflow (x : spec_float) : exn + spec_float :=
  match x with
  | S754_infinity _ => inl OverflowError
  | _ => inr x
  end.

(** [float(z)] of an [int]: the nearest float, OverflowError beyond the
    largest one. *)
Definition float_of_int (z : Z) : exn + spec_float :=
  finite_or_overflow (binary_normalize prec emax z 0 false).

(** [x / y] of two [int]s, [y] not zero: the float nearest to the
    quotient.  The quotient is taken to 1076 binary places, below the last
    place of every float, and rounded from there. *)
Definition int_true_divide (x y : Z) : exn + spec_float :=
  let s := xorb (x <? 0) (y <? 0) in
  let (q, r) := Z.div_eucl (Z.shiftl (Z.abs x) 1076) (Z.abs y) in
  finite_or_overflow
    (binary_round_aux prec emax s q (-1076) (new_location (Z.abs y) r)).

(** [fmod(x, y)] of C: the remainder has the sign of [x] and is exact. *)
Definition fmod (x y : spec_float) : spec_float :=
  match x, y with
  | S754_nan, _ | _, S754_nan => S754_nan
  | S754_infinity _, _ => S754_nan
  | _, S754_zero _ => S754_nan
  | _, S754_infinity _ => x
  | S754_zero _, _ => x
  | S754_finite sx mx ex, S754_finite _ my ey =>
      let e := Z.min ex ey in
      let X := Z.shiftl (Zpos mx) (ex - e) in
      let Y := Z.shiftl (Zpos my) (ey - e) in
      binary_normalize prec emax (cond_Zopp sx (X mod Y)) e sx
  end.

(** [floor(x)] of C. *)
Definition ffloor (x : spec_float) : spec_float :=
  match x with
  | S754_finite s m e =>
      if 0 <=? e then x
      else binary_normalize prec emax (Z.shiftr (cond_Zopp s (Zpos m)) (- e)) 0 s
  | _ => x
  end.

(** [float_rem] of CPython: [x % y], [y] not zero. *)
Definition float_rem (x y : spec_float) : spec_float :=
  let m := fmod x y in
  if f_is_zero m then S754_zero (sign_of y)
  else if negb (Bool.eqb (f_neg y) (f_neg m)) then fadd m y else m.

(** [float_floor_div] of CPython: [x // y], [y] not zero. *)
Definition float_floor_div (x y : spec_float) : spec_float :=
  let m := fmod x y in
  let d := fdiv (fsub x m) y in
  let d :=
    if f_is_zero m then d
    else if negb (Bool.eqb (f_neg y) (f_neg m))
         then fsub d (S754_finite false 4503599627370496 (-52))
         else d in
  if f_is_zero d then S754_zero (sign_of (fdiv x y))
  else
    let fl := ffloor d in
    if f_gt (fsub d fl) (S754_finite false 4503599627370496 (-53))
    then fadd fl (S754_finite false 4503599627370496 (-52))
    else fl.

(** *** Numbers *)

(** An operand as a float. *)
Definition to_float (v : pyval) : exn + spec_float :=
  match v with
  | VNone => inl TypeError
  | VInt z => float_of_int z
  | VFloat f => inr f
  end.

(** The order of an [int] and a float, exact; [None] with a NaN. *)
Definition compare_int_float (x : Z) (f : spec_float) : option comparison :=
  match f with
  | S754_nan => None
  | S754_infinity s => Some (if s then Gt else Lt)
  | S754_zero _ => Some (x ?= 0)
  | S754_finite s m e =>
      if 0 <=? e then Some (x ?= Z.shiftl (cond_Zopp s (Zpos m)) e)
      else Some (Z.shiftl x (- e) ?= cond_Zopp s (Zpos m))
  end.

(** The order of two numbers; [None] with a NaN or with [None]. *)
Definition compare (a b : pyval) : option comparison :=
  match a, b with
  | VInt x, VInt y => Some (x ?= y)
  | VInt x, VFloat g => compare_int_float x g
  | VFloat f, VInt y => option_map CompOpp (compare_int_float y f)
  | VFloat f, VFloat g => SFcompare f g
  | _, _ => None
  end.

(** [==] of Python on these values: numbers compare by value ([3 == 3.0]),
    and a NaN is equal to nothing. *)
Definition py_eqb (a b : pyval) : bool :=
  match a, b with
  | VNone, VNone => true
  | _, _ =>
      match compare a b with
      | Some Eq => true
      | _ => false
      end
  end.

Definition is_nan (v : pyval) : bool :=
  match v with
  | VFloat S754_nan => true
  | _ => false
  end.

(** Two operands of which one at least is no [int], as floats. *)
Definition with_floats (a b : pyval)
  (k : spec_float -> spec_float -> eres) : eres :=
  match a, b with
  | VNone, _ | _, VNone => EExn TypeError
  | _, _ =>
      match to_float a with
      | inl e => EExn e
      | inr x =>
          match to_float b with
          | inl e => EExn e
          | inr y => k x y
          end
      end
  end.

Definition arith (fz : Z -> Z -> Z)
  (ff : spec_float -> spec_float -> spec_float) (a b : pyval) : eres :=
  match a, b with
  | VInt x, VInt y => EVal (VInt (fz x y))
  | _, _ => with_floats a b (fun x y => EVal (VFloat (ff x y)))
  end.

Definition py_add : pyval -> pyval -> eres := arith Z.add fadd.
Definition py_sub : pyval -> pyval -> eres := arith Z.sub fsub.
Definition py_mul : pyval -> pyval -> eres := arith Z.mul fmul.

Definition lift_float (r : exn + spec_float) : eres :=
  match r with
  | inl e => EExn e
  | inr f => EVal (VFloat f)
  end.

(** [a / b]: always a float. *)
Definition py_truediv (a b : pyval) : eres :=
  match a, b with
  | VInt x, VInt y =>
      if y =? 0 then EExn ZeroDivisionError else lift_float (int_true_divide x y)
  | _, _ =>
      with_floats a b (fun x y =>
        if f_is_zero y then EExn ZeroDivisionError else EVal (VFloat (fdiv x y)))
  end.

(** [a // b]: rounds towards minus infinity. *)
Definition py_floordiv (a b : pyval) : eres :=
  match a, b with
  | VInt x, VInt y =>
      if y =? 0 then EExn ZeroDivisionError else EVal (VInt (x / y))
  | _, _ =>
      with_floats a b (fun x y =>
        if f_is_zero y then EExn ZeroDivisionError
        else EVal (VFloat (float_floor_div x y)))
  end.

(** [a % b]: the sign of the result follows the divisor. *)
Definition py_mod (a b : pyval) : eres :=
  match a, b with
  | VInt x, VInt y =>
      if y =? 0 then EExn ZeroDivisionError else EVal (VInt (x mod y))
  | _, _ =>
      with_floats a b (fun x y =>
        if f_is_zero y then EExn ZeroDivisionError
        else EVal (VFloat (float_rem x y)))
  end.

Definition py_neg (a : pyval) : eres :=
  match a with
  | VNone => EExn TypeError
  | VInt z => EVal (VInt (- z))
  | VFloat f => EVal (VFloat (SFopp f))
  end.

Definition py_pos (a : pyval) : eres :=
  match a with
  | VNone => EExn TypeError
  | _ => EVal a
  end.

(** [int(a)]: truncates a float towards zero; an infinity and a NaN have no
    [int]. *)
Definition py_int (a : pyval) : eres :=
  match a with
  | VNone => EExn TypeError
  | VInt z => EVal (VInt z)
  | VFloat S754_nan => EExn ValueError
  | VFloat (S754_infinity _) => EExn OverflowError
  | VFloat (S754_zero _) => EVal (VInt 0)
  | VFloat (S754_finite s m e) => EVal (VInt (cond_Zopp s (Z.shiftl (Zpos m) e)))
  end.

(** [max(a, b)] and [min(a, b)]: the second argument replaces the first
    where it is greater, or less; the first wins a tie and a comparison with
    a NaN. *)
Definition py_max (a b : pyval) : eres :=
  match a, b with
  | VNone, _ | _, VNone => EExn TypeError
  | _, _ =>
      match compare b a with
      | Some Gt => EVal b
      | _ => EVal a
      end
  end.

Definition py_min (a b : pyval) : eres :=
  match a, b with
  | VNone, _ | _, VNone => EExn TypeError
  | _, _ =>
      match compare b a with
      | Some Lt => EVal b
      | _ => EVal a
      end
  end.

(** *** [str] methods *)

Fixpoint replace_go (old new : string) (skip : nat) (s : string) : string :=
  match s with
  | EmptyString => EmptyString
  | String c s' =>
      match skip with
      | S k => replace_go old new k s'
      | O =>
          if String.prefix old s
          then new +:+ replace_go old new (String.length old - 1) s'
          else String c (replace_go old new 0 s')
      end
  end.

Fixpoint intersperse (new s : string) : string :=
  match s with
  | EmptyString => new
  | String c s' => new +:+ String c (intersperse new s')
  end.

(** [s.replace(old, new)]: every occurrence, scanning from the left, without
    overlap. *)
Definition replace (old new s : string) : string :=
  match old with
  | EmptyString => intersperse new s
  | _ => replace_go old new 0 s
  end.

Definition is_upper (c : ascii) : bool :=
  let n := nat_of_ascii c in (65 <=? n)%nat && (n <=? 90)%nat.

Definition lower_char (c : ascii) : ascii :=
  if is_upper c then ascii_of_nat (nat_of_ascii c + 32) else c.

(** [s.lower()] on ASCII text. *)
Fixpoint lower (s : string) : string :=
  match s with
  | EmptyString => EmptyString
  | String c s' => String (lower_char c) (lower s')
  end.

(** [s.split(sep)] for a separator of one character. *)
Fixpoint split (sep : ascii) (s : string) : list string :=
  match s with
  | EmptyString => [EmptyString]
  | String c s' =>
      if Ascii.eqb c sep then EmptyString :: split sep s'
      else match split sep s' with
           | [] => [String c EmptyString]
           | w :: ws => String c w :: ws
           end
  end.

(** [s.count(c)] for one character. *)
Fixpoint count (c : ascii) (s : string) : nat :=
  match s with
  | EmptyString => O
  | String d s' => ((if Ascii.eqb c d then 1 else 0) + count c s')%nat
  end.

(** [sub in s] *)
Fixpoint contains (sub s : string) : bool :=
  String.prefix sub s ||
  match s with
  | EmptyString => false
  | String _ s' => contains sub s'
  end.

(** [sep.join(l)] *)
Fixpoint join (sep : string) (l : list string) : string :=
  match l with
  | [] => EmptyString
  | [x] => x
  | x :: xs => x +:+ sep +:+ join sep xs
  end.

(** *** Expressions

    [eval] is given the text of a formula.  The model reads the arithmetic
    fragment that formulas and durations are made of: decimal integers,
    [+ - * / // %], unary signs, parentheses, [int(e)], [max(a, b)],
    [min(a, b)], the value or normal of a stat reached through
    [self.char.stats["NAME"]] or [char.stats["NAME"]], and [self.value],
    [self.normal].  A [#] starts a comment.  Any other text is taken as one
    Python rejects. *)

Inductive token :=
| TNum (z : Z)
| TId (s : string)
| TStr (s : string)
| TPlus | TMinus | TStar | TSlash | TDSlash | TPercent
| TLPar | TRPar | TLBrk | TRBrk | TComma | TDot
| TBad.

Inductive lexst :=
| LStart
| LNum (lead0 : bool) (n : Z)
| LId (acc : string)
| LStr (q : ascii) (acc : string)
| LSlash.

Definition is_digit (c : ascii) : bool :=
  let n := nat_of_ascii c in (48 <=? n)%nat && (n <=? 57)%nat.

Definition digit_val (c : ascii) : Z := Z.of_nat (nat_of_ascii c - 48).

Definition is_idstart (c : ascii) : bool :=
  let n := nat_of_ascii c in
  ((65 <=? n)%nat && (n <=? 90)%nat) || ((97 <=? n)%nat && (n <=? 122)%nat)
  || (n =? 95)%nat.

Definition dquote : ascii := ascii_of_nat 34.

Definition snoc (s : string) (c : ascii) : string := s +:+ String c EmptyString.

Definition flush (st : lexst) : list token :=
  match st with
  | LStart => []
  | LNum _ n => [TNum n]
  | LId a => [TId a]
  | LStr _ _ => [TBad]
  | LSlash => [TSlash]
  end.

Definition punct (c : ascii) : option token :=
  if Ascii.eqb c "+" then Some TPlus
  else if Ascii.eqb c "-" then Some TMinus
  else if Ascii.eqb c "*" then Some TStar
  else if Ascii.eqb c "%" then Some TPercent
  else if Ascii.eqb c "(" then Some TLPar
  else if Ascii.eqb c ")" then Some TRPar
  else if Ascii.eqb c "[" then Some TLBrk
  else if Ascii.eqb c "]" then Some TRBrk
  else if Ascii.eqb c "," then Some TComma
  else if Ascii.eqb c "." then Some TDot
  else None.

Fixpoint tokenize_go (s : string) (st : lexst) : list token :=
  match s with
  | EmptyString => flush st
  | String c s' =>
      match st with
      | LStr q acc =>
          if Ascii.eqb c q then TStr acc :: tokenize_go s' LStart
          else tokenize_go s' (LStr q (snoc acc c))
      | _ =>
          if is_digit c then
            match st with
            | LNum lead0 n =>
                if lead0 && negb (digit_val c =? 0) then [TBad]
                else tokenize_go s' (LNum lead0 (10 * n + digit_val c))
            | LId a => tokenize_go s' (LId (snoc a c))
            | _ => flush st ++ tokenize_go s' (LNum (digit_val c =? 0) (digit_val c))
            end
          else if is_idstart c then
            match st with
            | LId a => tokenize_go s' (LId (snoc a c))
            | LNum _ _ => [TBad]
            | _ => flush st ++ tokenize_go s' (LId (String c EmptyString))
            end
          else if Ascii.eqb c "/" then
            match st with
            | LSlash => TDSlash :: tokenize_go s' LStart
            | _ => flush st ++ tokenize_go s' LSlash
            end
          else
            flush st ++
            (if Ascii.eqb c " " then tokenize_go s' LStart
             else if Ascii.eqb c "#" then []
             else if Ascii.eqb c dquote || Ascii.eqb c "'"
                  then tokenize_go s' (LStr c EmptyString)
             else match punct c with
                  | Some t => t :: tokenize_go s' LStart
                  | None => [TBad]
                  end)
      end
  end.

Definition tokenize (s : string) : list token := tokenize_go s LStart.

Inductive binop := Add | Sub | Mul | TrueDiv | FloorDiv | Mod.
Inductive field := FValue | FNormal.

Inductive expr :=
| ENum (z : Z)
| EStat (via_self : bool) (name : string) (f : field)
| ESelf (f : field)
| EBin (op : binop) (a b : expr)
| ENeg (a : expr)
| EPos (a : expr)
| EInt (a : expr)
| EMax (a b : expr)
| EMin (a b : expr).

Definition field_of (s : string) : option field :=
  if String.eqb s "value" then Some FValue
  else if String.eqb s "normal" then Some FNormal
  else None.

Definition is_id (t : token) (s : string) : bool :=
  match t with
  | TId x => String.eqb x s
  | _ => false
  end.

(** [char.stats["NAME"].FIELD], after an optional [self.] *)
Definition p_stat_ref (via_self : bool) (ts : list token)
  : option (expr * list token) :=
  match ts with
  | c :: TDot :: st :: TLBrk :: TStr k :: TRBrk :: TDot :: TId f :: r =>
      if is_id c "char" && is_id st "stats"
      then fl ← field_of f; Some (EStat via_self k fl, r)
      else None
  | _ => None
  end.

Definition expect_rpar {A} (x : A) (ts : list token) : option (A * list token) :=
  match ts with
  | TRPar :: r => Some (x, r)
  | _ => None
  end.

Fixpoint p_expr (n : nat) (ts : list token) : option (expr * list token) :=
  match n with
  | O => None
  | S n => '(a, ts1) ← p_term n ts; p_expr_rest n a ts1
  end
with p_expr_rest (n : nat) (a : expr) (ts : list token)
  : option (expr * list token) :=
  match n with
  | O => None
  | S n =>
      match ts with
      | TPlus :: ts1 => '(b, ts2) ← p_term n ts1; p_expr_rest n (EBin Add a b) ts2
      | TMinus :: ts1 => '(b, ts2) ← p_term n ts1; p_expr_rest n (EBin Sub a b) ts2
      | _ => Some (a, ts)
      end
  end
with p_term (n : nat) (ts : list token) : option (expr * list token) :=
  match n with
  | O => None
  | S n => '(a, ts1) ← p_factor n ts; p_term_rest n a ts1
  end
with p_term_rest (n : nat) (a : expr) (ts : list token)
  : option (expr * list token) :=
  match n with
  | O => None
  | S n =>
      match ts with
      | TStar :: ts1 =>
          '(b, ts2) ← p_factor n ts1; p_term_rest n (EBin Mul a b) ts2
      | TSlash :: ts1 =>
          '(b, ts2) ← p_factor n ts1; p_term_rest n (EBin TrueDiv a b) ts2
      | TDSlash :: ts1 =>
          '(b, ts2) ← p_factor n ts1; p_term_rest n (EBin FloorDiv a b) ts2
      | TPercent :: ts1 =>
          '(b, ts2) ← p_factor n ts1; p_term_rest n (EBin Mod a b) ts2
      | _ => Some (a, ts)
      end
  end
with p_factor (n : nat) (ts : list token) : option (expr * list token) :=
  match n with
  | O => None
  | S n =>
      match ts with
      | TMinus :: ts1 => '(a, ts2) ← p_factor n ts1; Some (ENeg a, ts2)
      | TPlus :: ts1 => '(a, ts2) ← p_factor n ts1; Some (EPos a, ts2)
      | _ => p_atom n ts
      end
  end
with p_atom (n : nat) (ts : list token) : option (expr * list token) :=
  match n with
  | O => None
  | S n =>
      match ts with
      | TNum z :: r => Some (ENum z, r)
      | TLPar :: ts1 => '(e, ts2) ← p_expr n ts1; expect_rpar e ts2
      | TId x :: r =>
          if String.eqb x "self" then
            match r with
            | TDot :: (TId y :: r2) as r1 =>
                if String.eqb y "char" then p_stat_ref true r1
                else fl ← field_of y; Some (ESelf fl, r2)
            | _ => None
            end
          else if String.eqb x "char" then p_stat_ref false ts
          else if String.eqb x "int" then
            match r with
            | TLPar :: ts1 => '(e, ts2) ← p_expr n ts1; expect_rpar (EInt e) ts2
            | _ => None
            end
          else if String.eqb x "max" || String.eqb x "min" then
            match r with
            | TLPar :: ts1 =>
                '(a, ts2) ← p_expr n ts1;
                match ts2 with
                | TComma :: ts3 =>
                    '(b, ts4) ← p_expr n ts3;
                    expect_rpar (if String.eqb x "max" then EMax a b else EMin a b) ts4
                | _ => None
                end
            | _ => None
            end
          else None
      | _ => None
      end
  end.

(** The expression a text denotes, when it is one of the fragment. *)
Definition parse (s : string) : option expr :=
  let ts := tokenize s in
  match p_expr (6 * List.length ts + 10) ts with
  | Some (e, []) => Some e
  | _ => None
  end.

End Py.

(** ** The data model *)

(** A [Stat].  [stat_bonuses] is the dict from a bonus type to the bonuses
    of that type, in insertion order.  [stat_char] tells whether [char] is
    set.  The time stamp [updated] plays no part in what follows and is left
    out. *)
Record StatObj := mkStat {
  stat_formula : string;
  stat_original : string;
  stat_text : string;
  stat_bonuses : list (string * list string);
  stat_protected : bool;
  stat_uses : gset string;
  stat_usedby : gset string;
  stat_normal : Py.pyval;
  stat_value : Py.pyval;
  stat_root : bool;
  stat_leaf : bool;
  stat_char : bool
}.

(** A [Bonus].  [bonus_usedby] holds what [Effect.plug] puts there: the
    names of effects. *)
Record BonusObj := mkBonus {
  bonus_value : Z;
  bonus_stats : list string;
  bonus_typ : string;
  bonus_condition : string;
  bonus_text : string;
  bonus_active : bool;
  bonus_last : bool;
  bonus_usedby : gset string;
  bonus_char : bool
}.

Record DurationObj := mkDuration {
  dur_raw : string;
  dur_original : Py.pyval;
  dur_rounds : Py.pyval
}.

(** An [Effect]; [active] is [None], [True] or [False]. *)
Record EffectObj := mkEffect {
  effect_bonuses : list string;
  effect_duration : DurationObj;
  effect_text : string;
  effect_active : option bool;
  effect_last : option bool;
  effect_char : bool
}.

(** The character is declared outside the files at hand.  What the fields use
    of it is taken as given: the dict [stats] ([stats_keys] are its keys in
    iteration order, [stats] the objects they name; a stat that is being
    plugged in need not be a key yet), the dicts [bonuses] and [effects], the
    sets [BONUS_TYPES] and [BONUS_PERM] and the predicate [_stacks]. *)
Record Character := mkChar {
  stats_keys : list string;
  stats : gmap string StatObj;
  bonuses : gmap string BonusObj;
  effects : gmap string EffectObj;
  BONUS_TYPES : list string;
  BONUS_PERM : list string;
  _stacks : string -> bool
}.

Definition with_stats (f : gmap string StatObj -> gmap string StatObj)
  (c : Character) : Character :=
  mkChar (stats_keys c) (f (stats c)) (bonuses c) (effects c)
    (BONUS_TYPES c) (BONUS_PERM c) (_stacks c).

Definition with_bonuses (f : gmap string BonusObj -> gmap string BonusObj)
  (c : Character) : Character :=
  mkChar (stats_keys c) (stats c) (f (bonuses c)) (effects c)
    (BONUS_TYPES c) (BONUS_PERM c) (_stacks c).

Definition with_effects (f : gmap string EffectObj -> gmap string EffectObj)
  (c : Character) : Character :=
  mkChar (stats_keys c) (stats c) (bonuses c) (f (effects c))
    (BONUS_TYPES c) (BONUS_PERM c) (_stacks c).

Definition set_formula_f (x : string) (o : StatObj) : StatObj :=
  mkStat x (stat_original o) (stat_text o) (stat_bonuses o) (stat_protected o)
    (stat_uses o) (stat_usedby o) (stat_normal o) (stat_value o) (stat_root o)
    (stat_leaf o) (stat_char o).

Definition set_original (x : string) (o : StatObj) : StatObj :=
  mkStat (stat_formula o) x (stat_text o) (stat_bonuses o) (stat_protected o)
    (stat_uses o) (stat_usedby o) (stat_normal o) (stat_value o) (stat_root o)
    (stat_leaf o) (stat_char o).

Definition set_bonuses (x : list (string * list string)) (o : StatObj) : StatObj :=
  mkStat (stat_formula o) (stat_original o) (stat_text o) x (stat_protected o)
    (stat_uses o) (stat_usedby o) (stat_normal o) (stat_value o) (stat_root o)
    (stat_leaf o) (stat_char o).

Definition set_uses (x : gset string) (o : StatObj) : StatObj :=
  mkStat (stat_formula o) (stat_original o) (stat_text o) (stat_bonuses o)
    (stat_protected o) x (stat_usedby o) (stat_normal o) (stat_value o)
    (stat_root o) (stat_leaf o) (stat_char o).

Definition set_usedby (x : gset string) (o : StatObj) : StatObj :=
  mkStat (stat_formula o) (stat_original o) (stat_text o) (stat_bonuses o)
    (stat_protected o) (stat_uses o) x (stat_normal o) (stat_value o)
    (stat_root o) (stat_leaf o) (stat_char o).

Definition set_normal (x : Py.pyval) (o : StatObj) : StatObj :=
  mkStat (stat_formula o) (stat_original o) (stat_text o) (stat_bonuses o)
    (stat_protected o) (stat_uses o) (stat_usedby o) x (stat_value o)
    (stat_root o) (stat_leaf o) (stat_char o).

Definition set_value (x : Py.pyval) (o : StatObj) : StatObj :=
  mkStat (stat_formula o) (stat_original o) (stat_text o) (stat_bonuses o)
    (stat_protected o) (stat_uses o) (stat_usedby o) (stat_normal o) x
    (stat_root o) (stat_leaf o) (stat_char o).

Definition set_root (x : bool) (o : StatObj) : StatObj :=
  mkStat (stat_formula o) (stat_original o) (stat_text o) (stat_bonuses o)
    (stat_protected o) (stat_uses o) (stat_usedby o) (stat_normal o)
    (stat_value o) x (stat_leaf o) (stat_char o).

Definition set_leaf (x : bool) (o : StatObj) : StatObj :=
  mkStat (stat_formula o) (stat_original o) (stat_text o) (stat_bonuses o)
    (stat_protected o) (stat_uses o) (stat_usedby o) (stat_normal o)
    (stat_value o) (stat_root o) x (stat_char o).

Definition set_char (x : bool) (o : StatObj) : StatObj :=
  mkStat (stat_formula o) (stat_original o) (stat_text o) (stat_bonuses o)
    (stat_protected o) (stat_uses o) (stat_usedby o) (stat_normal o)
    (stat_value o) (stat_root o) (stat_leaf o) x.

Definition set_bonus_active (x : bool) (b : BonusObj) : BonusObj :=
  mkBonus (bonus_value b) (bonus_stats b) (bonus_typ b) (bonus_condition b)
    (bonus_text b) x (bonus_last b) (bonus_usedby b) (bonus_char b).

Definition set_bonus_last (x : bool) (b : BonusObj) : BonusObj :=
  mkBonus (bonus_value b) (bonus_stats b) (bonus_typ b) (bonus_condition b)
    (bonus_text b) (bonus_active b) x (bonus_usedby b) (bonus_char b).

Definition set_bonus_usedby (x : gset string) (b : BonusObj) : BonusObj :=
  mkBonus (bonus_value b) (bonus_stats b) (bonus_typ b) (bonus_condition b)
    (bonus_text b) (bonus_active b) (bonus_last b) x (bonus_char b).

Definition set_bonus_char (x : bool) (b : BonusObj) : BonusObj :=
  mkBonus (bonus_value b) (bonus_stats b) (bonus_typ b) (bonus_condition b)
    (bonus_text b) (bonus_active b) (bonus_last b) (bonus_usedby b) x.

Definition set_dur_rounds (x : Py.pyval) (d : DurationObj) : DurationObj :=
  mkDuration (dur_raw d) (dur_original d) x.

Definition set_effect_active (x : option bool) (e : EffectObj) : EffectObj :=
  mkEffect (effect_bonuses e) (effect_duration e) (effect_text e) x
    (effect_last e) (effect_char e).

Definition set_effect_last (x : option bool) (e : EffectObj) : EffectObj :=
  mkEffect (effect_bonuses e) (effect_duration e) (effect_text e)
    (effect_active e) x (effect_char e).

Definition set_effect_char (x : bool) (e : EffectObj) : EffectObj :=
  mkEffect (effect_bonuses e) (effect_duration e) (effect_text e)
    (effect_active e) (effect_last e) x.

(** ** Running a method: store passing with exceptions *)

(** A method ends normally with a result and a store, or raises with the
    store as it is at that point, or exhausts the recursion budget the model
    gives it. *)
Inductive res (A : Type) :=
| Ok (a : A) (c : Character)
| Raise (e : Py.exn) (c : Character)
| OutOfFuel.
Arguments Ok {A} a c.
Arguments Raise {A} e c.
Arguments OutOfFuel {A}.

Definition M (A : Type) : Type := Character -> res A.

Definition ret {A} (a : A) : M A := fun c => Ok a c.

Definition bind {A B} (m : M A) (k : A -> M B) : M B :=
  fun c =>
    match m c with
    | Ok a c' => k a c'
    | Raise e c' => Raise e c'
    | OutOfFuel => OutOfFuel
    end.

Definition raise {A} (e : Py.exn) : M A := fun c => Raise e c.

Declare Scope py_scope.
Delimit Scope py_scope with py.
Notation "x <~ m ;; k" := (bind m (fun x => k))
  (at level 100, m at next level, right associativity) : py_scope.
Notation "m ;;; k" := (bind m (fun _ => k))
  (at level 100, right associativity) : py_scope.
Local Open Scope py_scope.

Fixpoint for_each {A} (l : list A) (body : A -> M unit) : M unit :=
  match l with
  | [] => ret tt
  | x :: l' => body x ;;; for_each l' body
  end.

Fixpoint foldM {A B} (f : B -> A -> M B) (l : list A) (b : B) : M B :=
  match l with
  | [] => ret b
  | x :: l' => b' <~ f b x ;; foldM f l' b'
  end.

(** [for x in s] over a set that the body may change: the iterator of a set
    raises RuntimeError at the step that follows a change of its size, the
    step that would end the loop included.  [size_now] reads the size of the
    set, [n0] is its size when the loop started, [xs] its elements then. *)
Fixpoint for_set (size_now : M nat) (n0 : nat) (xs : list string)
  (body : string -> M unit) : M unit :=
  n <~ size_now ;;
  if negb (n =? n0)%nat then raise Py.RuntimeError
  else match xs with
       | [] => ret tt
       | x :: xs' => body x ;;; for_set size_now n0 xs' body
       end.

Definition get_stat (n : string) : M StatObj :=
  fun c =>
    match stats c !! n with
    | Some o => Ok o c
    | None => Raise Py.Dangling c
    end.

Definition upd_stat (n : string) (f : StatObj -> StatObj) : M unit :=
  fun c => Ok tt (with_stats (alter f n) c).

Definition get_bonus (n : string) : M BonusObj :=
  fun c =>
    match bonuses c !! n with
    | Some o => Ok o c
    | None => Raise Py.Dangling c
    end.

Definition upd_bonus (n : string) (f : BonusObj -> BonusObj) : M unit :=
  fun c => Ok tt (with_bonuses (alter f n) c).

Definition get_effect (n : string) : M EffectObj :=
  fun c =>
    match effects c !! n with
    | Some o => Ok o c
    | None => Raise Py.Dangling c
    end.

Definition upd_effect (n : string) (f : EffectObj -> EffectObj) : M unit :=
  fun c => Ok tt (with_effects (alter f n) c).

(** [char.stats[name]]: KeyError unless [name] is a key. *)
Definition char_stats (name : string) : M StatObj :=
  fun c =>
    if bool_decide (name ∈ stats_keys c) then get_stat name c
    else Raise Py.KeyError c.

(** [char.bonuses[name]] *)
Definition char_bonuses (name : string) : M BonusObj :=
  fun c =>
    match bonuses c !! name with
    | Some o => Ok o c
    | None => Raise Py.KeyError c
    end.

(** ** Evaluating an expression *)

(** What the names [self] and [char] are bound to where [eval] is called. *)
Record scope := mkScope {
  sc_self : option string;
  sc_char : bool
}.

Definition stat_field (f : Py.field) (o : StatObj) : Py.pyval :=
  match f with
  | Py.FValue => stat_value o
  | Py.FNormal => stat_normal o
  end.

Definition eval_stat_ref (c : Character) (k : string) (f : Py.field) : Py.eres :=
  if bool_decide (k ∈ stats_keys c) then
    match stats c !! k with
    | Some o => Py.EVal (stat_field f o)
    | None => Py.EExn Py.Dangling
    end
  else Py.EExn Py.KeyError.

Definition apply_binop (op : Py.binop) : Py.pyval -> Py.pyval -> Py.eres :=
  match op with
  | Py.Add => Py.py_add
  | Py.Sub => Py.py_sub
  | Py.Mul => Py.py_mul
  | Py.TrueDiv => Py.py_truediv
  | Py.FloorDiv => Py.py_floordiv
  | Py.Mod => Py.py_mod
  end.

Definition ebind (r : Py.eres) (k : Py.pyval -> Py.eres) : Py.eres :=
  match r with
  | Py.EVal v => k v
  | Py.EExn e => Py.EExn e
  end.

Fixpoint eval_expr (sc : scope) (c : Character) (e : Py.expr) : Py.eres :=
  match e with
  | Py.ENum z => Py.EVal (Py.VInt z)
  | Py.EStat true k f =>
      match sc_self sc with
      | None => Py.EExn Py.NameError
      | Some me =>
          match stats c !! me with
          | None => Py.EExn Py.Dangling
          | Some o =>
              if stat_char o then eval_stat_ref c k f
              else Py.EExn Py.AttributeError
          end
      end
  | Py.EStat false k f =>
      if sc_char sc then eval_stat_ref c k f else Py.EExn Py.NameError
  | Py.ESelf f =>
      match sc_self sc with
      | None => Py.EExn Py.NameError
      | Some me =>
          match stats c !! me with
          | None => Py.EExn Py.Dangling
          | Some o => Py.EVal (stat_field f o)
          end
      end
  | Py.EBin op a b =>
      ebind (eval_expr sc c a) (fun x =>
      ebind (eval_expr sc c b) (fun y => apply_binop op x y))
  | Py.ENeg a => ebind (eval_expr sc c a) Py.py_neg
  | Py.EPos a => ebind (eval_expr sc c a) Py.py_pos
  | Py.EInt a => ebind (eval_expr sc c a) Py.py_int
  | Py.EMax a b =>
      ebind (eval_expr sc c a) (fun x =>
      ebind (eval_expr sc c b) (fun y => Py.py_max x y))
  | Py.EMin a b =>
      ebind (eval_expr sc c a) (fun x =>
      ebind (eval_expr sc c b) (fun y => Py.py_min x y))
  end.

(** [eval(text)] *)
Definition eval (sc : scope) (text : string) : M Py.pyval :=
  fun c =>
    match Py.parse text with
    | None => Raise Py.SyntaxError c
    | Some e =>
        match eval_expr sc c e with
        | Py.EVal v => Ok v c
        | Py.EExn x => Raise x c
        end
    end.

(** [Bonus.get_value] *)
Definition bonus_get_value (b : BonusObj) : Z := bonus_value b.

Definition read {A} (f : Character -> A) : M A := fun c => Ok (f c) c.

Definition lift_eres (r : Py.eres) : M Py.pyval :=
  match r with
  | Py.EVal v => ret v
  | Py.EExn e => raise e
  end.

(** ** Stat *)

Module Stat.

(** [__init__], with [bonuses] and [protected] left to their defaults. *)
Definition init (name formula text : string) : StatObj :=
  mkStat formula formula text [] (String.prefix "_" name) ∅ ∅
    Py.VNone Py.VNone true true false.

Definition quoted (name : string) : string :=
  String Py.dquote name +:+ String Py.dquote EmptyString.

Definition expand_value (name : string) : string :=
  "self.char.stats[" +:+ quoted name +:+ "].value".

Definition expand_normal (name : string) : string :=
  "self.char.stats[" +:+ quoted name +:+ "].normal".

Definition VARS : list (string * (string -> string)) :=
  [("$", expand_value); ("#", expand_normal)].

(** [dir(self)]: the attributes the class and its instances declare, sorted.
    The names every Python object has besides ([__class__], [__dict__], ...)
    are left out; replacing them yields text outside the fragment. *)
Definition stat_dir : list string :=
  ["COPY"; "FIELDS"; "VARS"; "__init__"; "__repr__"; "__str__"; "_str";
   "_str_flags"; "add_bonus"; "bonuses"; "calc"; "char"; "copy"; "del_bonus";
   "formula"; "get_bonuses"; "leaf"; "load"; "name"; "normal"; "original";
   "plug"; "protected"; "root"; "save"; "set_formula"; "str_all";
   "str_search"; "text"; "unplug"; "updated"; "usedby"; "uses"; "value"].

Definition sum_list (l : list Z) : Z := fold_left Z.add l 0.

Definition max_list (x : Z) (l : list Z) : Z := fold_left Z.max l x.

(** [[b.get_value() for b in bonuses if b.active]] *)
Definition active_values (names : list string) : M (list Z) :=
  foldM (fun acc n =>
           b <~ get_bonus n ;;
           ret (if bonus_active b then acc ++ [bonus_get_value b] else acc))
        names [].

(** What a type adds: nothing without an active bonus, the sum where the
    type stacks, the largest value otherwise. *)
Definition contribution (stk : bool) (vals : list Z) : option Z :=
  match vals with
  | [] => None
  | v :: vs => Some (if stk then sum_list vals else max_list v vs)
  end.

(** One turn of the loop over [self.bonuses.items()]. *)
Definition add_category (self : string) (tb : string * list string) : M unit :=
  vals <~ active_values tb.2 ;;
  stk <~ read (fun c => _stacks c tb.1) ;;
  match contribution stk vals with
  | None => ret tt
  | Some x =>
      me <~ get_stat self ;;
      v <~ lift_eres (Py.py_add (stat_value me) (Py.VInt x)) ;;
      upd_stat self (set_value v)
  end.

(** [calc] up to its last test: both evaluations and the bonuses; the result
    tells whether [value] or [normal] differs from what it was. *)
Definition recompute (self : string) : M bool :=
  me <~ get_stat self ;;
  if negb (stat_char me) then raise Py.RuntimeError
  else
    n <~ eval (mkScope (Some self) false)
              (Py.replace ".value" ".normal" (stat_formula me)) ;;
    upd_stat self (set_normal n) ;;;
    v <~ eval (mkScope (Some self) false) (stat_formula me) ;;
    upd_stat self (set_value v) ;;;
    for_each (stat_bonuses me) (add_category self) ;;;
    me' <~ get_stat self ;;
    ret (negb (Py.py_eqb (stat_value me) (stat_value me'))
         || negb (Py.py_eqb (stat_normal me) (stat_normal me'))).

(** [calc].  No call made inside the loop changes a set, so the loop runs
    over the elements of [usedby] as they are when it starts. *)
Fixpoint calc (fuel : nat) (self : string) : M unit :=
  match fuel with
  | O => fun _ => OutOfFuel
  | S fuel' =>
      changed <~ recompute self ;;
      if changed then
        me <~ get_stat self ;;
        for_each (elements (stat_usedby me))
          (fun n => _ <~ char_stats n ;; calc fuel' n)
      else ret tt
  end.

(** One turn of the inner loop of [plug]: the alias [var] of the stat
    [name], bare and braced. *)
Definition plug_var (self name : string) (acc : string * gset string)
  (v : string * (string -> string)) : M (string * gset string) :=
  let orig := acc.1 in
  let s1 := Py.replace (v.1 +:+ name) (v.2 name) orig in
  let s2 := Py.replace (v.1 +:+ "{" +:+ name +:+ "}") (v.2 name) s1 in
  if negb (String.eqb s2 orig) then
    upd_stat self (fun o => set_uses ({[name]} ∪ stat_uses o) o) ;;;
    upd_stat self (set_root false) ;;;
    _ <~ char_stats name ;;
    ret (s2, {[name]} ∪ acc.2)
  else ret (s2, acc.2).

Definition plug_attr (s name : string) : string :=
  Py.replace ("@{" +:+ name +:+ "}") ("self." +:+ name)
    (Py.replace ("@" +:+ name) ("self." +:+ name) s).

(** [try: eval(s) except Exception: raise FormulaError] *)
Definition try_eval (sc : scope) (s : string) : M unit :=
  fun c =>
    match eval sc s c with
    | Ok _ c' => Ok tt c'
    | Raise _ c' => Raise Py.FormulaError c'
    | OutOfFuel => OutOfFuel
    end.

Definition plug (fuel : nat) (self : string) : M unit :=
  _ <~ get_stat self ;;
  upd_stat self (set_char true) ;;;
  me <~ get_stat self ;;
  keys <~ read stats_keys ;;
  acc <~ foldM (fun acc name => foldM (plug_var self name) VARS acc)
               keys (stat_formula me, ∅) ;;
  let s := fold_left plug_attr stat_dir acc.1 in
  try_eval (mkScope (Some self) true) s ;;;
  for_each (elements acc.2)
    (fun n =>
       upd_stat n (fun o => set_usedby ({[self]} ∪ stat_usedby o) o) ;;;
       upd_stat n (set_leaf false)) ;;;
  upd_stat self (set_formula_f s) ;;;
  calc fuel self.

(** One turn of the loop of [unplug] over [self.uses]; [remove] raises
    KeyError on a set that lacks the element. *)
Definition unplug_use (self name : string) : M unit :=
  stat <~ char_stats name ;;
  if bool_decide (self ∈ stat_usedby stat) then
    upd_stat name (fun o => set_usedby (stat_usedby o ∖ {[self]}) o) ;;;
    stat' <~ get_stat name ;;
    if bool_decide (stat_usedby stat' = ∅) then upd_stat name (set_leaf true)
    else ret tt
  else raise Py.KeyError.

Fixpoint unplug (fuel : nat) (self : string) (force recursive : bool) : M unit :=
  match fuel with
  | O => fun _ => OutOfFuel
  | S fuel' =>
      me <~ get_stat self ;;
      if negb (stat_char me) then raise Py.RuntimeError
      else if negb (bool_decide (stat_usedby me = ∅))
              && negb force && negb recursive
      then raise (Py.DependencyError (elements (stat_usedby me)))
      else
        (if recursive then
           for_set (o <~ get_stat self ;; ret (size (stat_usedby o)))
             (size (stat_usedby me)) (elements (stat_usedby me))
             (fun name => _ <~ char_stats name ;; unplug fuel' name false true)
         else ret tt) ;;;
        upd_stat self (set_usedby ∅) ;;;
        upd_stat self (fun o => set_formula_f (stat_original o) o) ;;;
        me1 <~ get_stat self ;;
        for_each (elements (stat_uses me1)) (unplug_use self) ;;;
        upd_stat self (set_uses ∅) ;;;
        upd_stat self (set_root true) ;;;
        upd_stat self (set_leaf true) ;;;
        upd_stat self (set_char false)
  end.

Definition set_formula (self s : string) : M unit :=
  me <~ get_stat self ;;
  if stat_char me then raise Py.RuntimeError
  else upd_stat self (set_formula_f s) ;;; upd_stat self (set_original s).

Fixpoint bonuses_append (typ b : string) (l : list (string * list string))
  : list (string * list string) :=
  match l with
  | [] => [(typ, [b])]
  | (t, bs) :: r =>
      if String.eqb t typ then (t, bs ++ [b]) :: r
      else (t, bs) :: bonuses_append typ b r
  end.

Definition add_bonus (self bonus : string) : M unit :=
  b <~ get_bonus bonus ;;
  upd_stat self (fun o => set_bonuses (bonuses_append (bonus_typ b) bonus (stat_bonuses o)) o).

Fixpoint bonuses_remove (typ b : string) (l : list (string * list string))
  : option (list (string * list string)) :=
  match l with
  | [] => None
  | (t, bs) :: r =>
      if String.eqb t typ then
        match filter (fun x => x ≠ b) bs with
        | [] => Some r
        | bs' => Some ((t, bs') :: r)
        end
      else r' ← bonuses_remove typ b r; Some ((t, bs) :: r')
  end.

Definition del_bonus (self bonus : string) : M unit :=
  b <~ get_bonus bonus ;;
  me <~ get_stat self ;;
  match bonuses_remove (bonus_typ b) bonus (stat_bonuses me) with
  | Some l => upd_stat self (set_bonuses l)
  | None => raise Py.KeyError
  end.

End Stat.

(** ** Bonus *)

Module Bonus.

Definition truthy (s : option string) : bool :=
  match s with
  | Some (String _ _) => true
  | _ => false
  end.

Definition or_else (s : option string) (d : string) : string :=
  if truthy s then default d s else d.

(** [__init__] *)
Definition init (value : Z) (stats : list string) (typ cond text : option string)
  (active : bool) : BonusObj :=
  mkBonus value stats (Py.lower (or_else typ "none")) (or_else cond "")
    (or_else text "") (if truthy cond then false else active) active ∅ false.

Definition get_value : BonusObj -> Z := bonus_get_value.

Definition is_empty (s : string) : bool :=
  match s with
  | EmptyString => true
  | _ => false
  end.

Definition mem (x : string) (l : list string) : bool := bool_decide (x ∈ l).

Definition plug (fuel : nat) (self : string) : M unit :=
  me <~ get_bonus self ;;
  types <~ read BONUS_TYPES ;;
  if negb (bool_decide (types = [])) && negb (mem (bonus_typ me) types)
  then raise Py.ValueError
  else
    for_each (bonus_stats me)
      (fun name =>
         _ <~ char_stats name ;;
         Stat.add_bonus name self ;;;
         Stat.calc fuel name) ;;;
    upd_bonus self (set_bonus_char true) ;;;
    perm <~ read BONUS_PERM ;;
    if is_empty (bonus_condition me) && mem (bonus_typ me) perm
    then upd_bonus self (set_bonus_active true)
    else ret tt.

Definition unplug (fuel : nat) (self : string) : M unit :=
  me <~ get_bonus self ;;
  if negb (bonus_char me) then raise Py.RuntimeError
  else
    for_each (bonus_stats me)
      (fun name =>
         _ <~ char_stats name ;;
         Stat.del_bonus name self ;;;
         Stat.calc fuel name) ;;;
    upd_bonus self (set_bonus_char false).

(** [self.char.X]: AttributeError while [char] is None. *)
Definition need_char (me : BonusObj) : M unit :=
  if bonus_char me then ret tt else raise Py.AttributeError.

Definition calc (fuel : nat) (self : string) : M unit :=
  me <~ get_bonus self ;;
  for_each (bonus_stats me)
    (fun name =>
       need_char me ;;;
       _ <~ char_stats name ;;
       Stat.calc fuel name).

Definition toggle (fuel : nat) (self : string) (new : bool) : M unit :=
  me <~ get_bonus self ;;
  if is_empty (bonus_condition me) then
    need_char me ;;;
    perm <~ read BONUS_PERM ;;
    if mem (bonus_typ me) perm then ret tt
    else
      upd_bonus self (fun b => set_bonus_last (bonus_active b) b) ;;;
      upd_bonus self (set_bonus_active new) ;;;
      calc fuel self
  else
    upd_bonus self (fun b => set_bonus_last (bonus_active b) b) ;;;
    upd_bonus self (set_bonus_active new) ;;;
    calc fuel self.

Definition on (fuel : nat) (self : string) : M unit := toggle fuel self true.

(** [b.is_active()] for an element [b] of [usedby]: the elements are the
    names [Effect.plug] adds, and a [str] has no such method. *)
Definition str_is_active (b : string) : M bool := raise Py.AttributeError.

(** [reduce(lambda a,b: a or b.is_active(), self.usedby, False)] *)
Definition any_active (usedby : list string) : M bool :=
  foldM (fun a b => if a : bool then ret true else str_is_active b) usedby false.

Definition off (fuel : nat) (self : string) (force : bool) : M unit :=
  me <~ get_bonus self ;;
  if force then toggle fuel self false
  else
    a <~ any_active (elements (bonus_usedby me)) ;;
    if negb a then toggle fuel self false else ret tt.

Definition revert (fuel : nat) (self : string) : M unit :=
  me <~ get_bonus self ;;
  if Bool.eqb (bonus_active me) (bonus_last me) then ret tt
  else
    upd_bonus self (fun b => set_bonus_active (bonus_last b) b) ;;;
    calc fuel self.

End Bonus.

(** ** Duration *)

Module Duration.

Definition INF : Z := -1.

(** What a duration is made from: [None], a text or an [int]. *)
Inductive source :=
| SNone
| SText (s : string)
| SInt (z : Z).

Definition INF_NAMES : list string :=
  ["inf"; "infinity"; "infinite"; "perm"; "permanent"; "forever"].

Inductive mult :=
| MInt (z : Z)
| MStat (s : string).

Definition UNITS : list (list string * mult) :=
  [ ([""; "r"; "rd"; "rds"; "rnd"; "rnds"; "round"; "rounds"], MInt 1);
    (["m"; "mi"; "min"; "mins"; "minute"; "minutes"], MInt 10);
    (["h"; "hr"; "hrs"; "hour"; "hours"], MInt 600);
    (["d"; "day"; "days"], MInt 14400);
    (["y"; "yr"; "yrs"; "year"; "years"], MInt 5259600);
    (["l"; "lvl"; "level"], MStat "$level");
    (["cl"; "clvl"; "caster"; "casterlvl"; "casterlevel"], MStat "$caster_level") ].

(** [is_int] on the one-character strings it is called with. *)
Definition is_int (c : ascii) : bool := Py.is_digit c.

Fixpoint get_mult_in (units : list (list string * mult)) (s : string)
  : Py.exn + mult :=
  match units with
  | [] => inl Py.KeyError
  | (names, m) :: r =>
      if bool_decide (s ∈ names) then inr m else get_mult_in r s
  end.

Definition get_mult : string -> Py.exn + mult := get_mult_in UNITS.

(** ['%s' % m] *)
Definition fmt (m : mult) : string :=
  match m with
  | MInt z => pretty z
  | MStat s => s
  end.

Fixpoint digits_prefix (s : string) : string * string :=
  match s with
  | String c s' =>
      if is_int c then let '(d, r) := digits_prefix s' in (String c d, r)
      else (EmptyString, s)
  | EmptyString => (EmptyString, EmptyString)
  end.

Definition split_unit (s : string) : string * string :=
  let '(d, r) := digits_prefix s in
  (match d with EmptyString => "1" | _ => d end, r).

(** One turn of the loop of [to_rds]. *)
Definition to_rds_term (dur : string) : Py.exn + string :=
  if (1 <? Py.count "/" dur)%nat then inl Py.ValueError
  else
    let parts := Py.split "/" dur in
    let '(num, unit) := split_unit (hd EmptyString parts) in
    match get_mult unit with
    | inl e => inl e
    | inr m =>
        let s := num +:+ "*" +:+ fmt m in
        match tl parts with
        | [] => inr s
        | p :: _ =>
            let '(num2, stat) := split_unit p in
            match get_mult stat with
            | inl e => inl e
            | inr m2 =>
                inr (s +:+ "*max(1,int(" +:+ fmt m2 +:+ "/" +:+ num2 +:+ "))")
            end
        end
    end.

Fixpoint to_rds_terms (durs : list string) : Py.exn + list string :=
  match durs with
  | [] => inr []
  | d :: r =>
      match to_rds_term d with
      | inl e => inl e
      | inr s =>
          match to_rds_terms r with
          | inl e => inl e
          | inr l => inr (s :: l)
          end
      end
  end.

Definition to_rds (s : source) : Py.exn + string :=
  match s with
  | SInt z => inr (pretty z)
  | SNone => inr (pretty INF)
  | SText t =>
      let t := Py.replace "_" "" (Py.replace " " "" (Py.lower t)) in
      if bool_decide (t ∈ INF_NAMES) then inr (pretty INF)
      else match to_rds_terms (Py.split "+" t) with
           | inl e => inl e
           | inr rds => inr (Py.join "+" rds)
           end
  end.

Definition drop_first (s : string) : string :=
  match s with
  | String _ r => r
  | EmptyString => EmptyString
  end.

(** The loop of [parse] that expands [$level] and [$caster_level]. *)
Definition expand_units (s : string) : string :=
  fold_left
    (fun s u =>
       match u.2 with
       | MStat unit =>
           if String.prefix "$" unit
           then Py.replace unit ("char.stats[" +:+ Stat.quoted (drop_first unit) +:+ "].value") s
           else s
       | MInt _ => s
       end)
    UNITS s.

(** [parse(s, char)]; [char] tells whether a character is given. *)
Definition parse (s : source) (char : bool) : M (string * Py.pyval) :=
  match to_rds s with
  | inl e => raise e
  | inr t =>
      let t := expand_units t in
      if Py.contains "char.stats" t && negb char then raise Py.ValueError
      else v <~ eval (mkScope None char) t ;; ret (t, v)
  end.

(** [__init__] *)
Definition init (dur : source) (char : bool) : M DurationObj :=
  p <~ parse dur char ;;
  ret (mkDuration p.1 p.2 p.2).

Definition expired (d : DurationObj) : bool :=
  Py.py_eqb (dur_rounds d) (Py.VInt 0).

(** The argument of [advance]: an [int], a [Duration], or anything else. *)
Inductive amount :=
| AInt (z : Z)
| ADur (d : DurationObj)
| AOther.

(** [advance(dur)]: the result and the duration afterwards. *)
Definition advance (self : DurationObj) (dur : amount)
  : Py.exn + (bool * DurationObj) :=
  match (match dur with
         | ADur d => Some (dur_rounds d)
         | AInt z => Some (Py.VInt z)
         | AOther => None
         end) with
  | None => inl Py.TypeError
  | Some n =>
      if Py.py_eqb (dur_rounds self) (Py.VInt INF) then inr (false, self)
      else
        match ebind (Py.py_sub (dur_rounds self) n) (Py.py_max (Py.VInt 0)) with
        | Py.EExn e => inl e
        | Py.EVal r =>
            let self' := set_dur_rounds r self in
            inr (expired self', self')
        end
  end.

Definition reset (d : DurationObj) : DurationObj :=
  set_dur_rounds (dur_original d) d.

End Duration.

(** ** Effect *)

Module Effect.

(** [__init__], for a given duration *)
Definition init (bonuses : list string) (duration : DurationObj) (text : string)
  (active : option bool) : EffectObj :=
  mkEffect bonuses duration text active active false.

(** The names bound at the top level of the file: its imports and its
    classes (the star import brings in the error classes). *)
Definition module_names : list string :=
  ["time"; "OrderedDict"; "reduce"; "Field"; "Stat"; "Bonus"; "Duration";
   "Effect"; "Text"; "Event"; "FormulaError"; "DependencyError"].

(** A name that is neither a local of the method nor bound at the top level
    raises NameError. *)
Definition global_name (n : string) : M unit :=
  if bool_decide (n ∈ module_names) then ret tt else raise Py.NameError.

Definition plug (fuel : nat) (self : string) : M unit :=
  me <~ get_effect self ;;
  for_each (effect_bonuses me)
    (fun name =>
       _ <~ char_bonuses name ;;
       upd_bonus name (fun b => set_bonus_usedby ({[self]} ∪ bonus_usedby b) b) ;;;
       match effect_active me with
       | None => ret tt
       | Some true => Bonus.on fuel name
       | Some false => Bonus.off fuel name false
       end) ;;;
  upd_effect self (set_effect_char true).

(** In [unplug] the loop reads [char], which is not a local there. *)
Definition unplug (fuel : nat) (self : string) : M unit :=
  me <~ get_effect self ;;
  if negb (effect_char me) then raise Py.RuntimeError
  else
    for_each (effect_bonuses me)
      (fun name =>
         global_name "char" ;;;
         bonus <~ char_bonuses name ;;
         (if bool_decide (self ∈ bonus_usedby bonus)
          then upd_bonus name (fun b => set_bonus_usedby (bonus_usedby b ∖ {[self]}) b)
          else raise Py.KeyError) ;;;
         Bonus.off fuel name false) ;;;
    upd_effect self (set_effect_char false).

Definition is_active (e : EffectObj) : bool :=
  match effect_active e with
  | Some a => a
  | None => negb (Duration.expired (effect_duration e))
  end.

Definition toggle (fuel : nat) (self : string) (new : bool) : M unit :=
  upd_effect self (fun e => set_effect_last (effect_active e) e) ;;;
  upd_effect self (set_effect_active (Some new)) ;;;
  me <~ get_effect self ;;
  for_each (effect_bonuses me)
    (fun name =>
       (if effect_char me then ret tt else raise Py.AttributeError) ;;;
       _ <~ char_bonuses name ;;
       Bonus.toggle fuel name new).

Definition on (fuel : nat) (self : string) : M unit := toggle fuel self true.
Definition off (fuel : nat) (self : string) : M unit := toggle fuel self false.

Definition revert (fuel : nat) (self : string) : M unit :=
  upd_effect self (fun e => set_effect_active (effect_last e) e) ;;;
  me <~ get_effect self ;;
  for_each (effect_bonuses me)
    (fun name =>
       (if effect_char me then ret tt else raise Py.AttributeError) ;;;
       _ <~ char_bonuses name ;;
       Bonus.revert fuel name).

End Effect.

(** ** Scenarios

    What the character does around the fields, for the concrete runs below:
    it creates an object, plugs it in, and enters it in its dict. *)

Module Scenario.

Definition empty_char (perm : list string) (stk : string -> bool) : Character :=
  mkChar [] ∅ ∅ ∅ [] perm stk.

(** The outcome store of a method, whether it returned or raised. *)
Definition run (m : M unit) (c : Character) : Character :=
  match m c with
  | Ok _ c' => c'
  | Raise _ c' => c'
  | OutOfFuel => c
  end.

Definition new_stat (name formula : string) (c : Character) : Character :=
  with_stats (insert name (Stat.init name formula "")) c.

(** [char.stats[name] = stat] *)
Definition register (name : string) (c : Character) : Character :=
  mkChar (stats_keys c ++ [name]) (stats c) (bonuses c) (effects c)
    (BONUS_TYPES c) (BONUS_PERM c) (_stacks c).

Definition add_stat (name formula : string) (c : Character) : Character :=
  register name (run (Stat.plug 8 name) (new_stat name formula c)).

Definition new_bonus (name : string) (b : BonusObj) (c : Character) : Character :=
  with_bonuses (insert name b) c.

Definition new_effect (name : string) (e : EffectObj) (c : Character) : Character :=
  with_effects (insert name e) c.

(** A character with the one stat [dexterity], formula [17]. *)
Definition with_dexterity : Character :=
  add_stat "dexterity" "17" (empty_char ["inherent"] (fun _ => false)).

(** ... and the object of a stat [dex] that is yet to be plugged in. *)
Definition before_dex : Character :=
  new_stat "dex" "($dexterity-10)/2" with_dexterity.

Definition before_dex_floor : Character :=
  new_stat "dex" "($dexterity-10)//2" with_dexterity.

(** [dexterity] and [dex], both plugged in. *)
Definition with_dex : Character :=
  add_stat "dex" "($dexterity-10)//2" with_dexterity.

(** A third stat that depends on [dexterity]. *)
Definition with_reflex : Character :=
  add_stat "reflex" "$dexterity+1" with_dex.

(** A stat whose formula has an alias of no stat. *)
Definition before_typo : Character :=
  new_stat "touch" "10+$dexterity+#dxe" with_dexterity.

(** A stat [ac] and a bonus of a permanent type made with [active=False]. *)
Definition with_ac : Character :=
  add_stat "ac" "10" (empty_char ["inherent"] (fun _ => false)).

Definition before_inherent : Character :=
  new_bonus "tome" (Bonus.init 2 ["ac"] (Some "inherent") None None false) with_ac.

Definition with_inherent : Character := run (Bonus.plug 8 "tome") before_inherent.

(** A bonus [shield] on [ac], claimed by the effect [spell], which is not
    switched by hand and whose duration has run out. *)
Definition spent : DurationObj := mkDuration "1*1" (Py.VInt 1) (Py.VInt 0).

Definition with_shield : Character :=
  run (Bonus.plug 8 "shield")
    (new_bonus "shield" (Bonus.init 4 ["ac"] (Some "armor") None None true) with_ac).

Definition with_spell : Character :=
  run (Effect.plug 8 "spell")
    (new_effect "spell" (Effect.init ["shield"] spent "" None) with_shield).

(** A stat that was plugged in with formula [2], unplugged, and given a
    formula that reads its own value. *)
Definition own_value (formula : string) : Character :=
  run (Stat.set_formula "x" formula)
    (run (Stat.unplug 1 "x" false false)
       (run (Stat.plug 8 "x")
          (new_stat "x" "2" (empty_char [] (fun _ => false))))).

(** A stat [ac] of formula [10] with bonuses of the type [dodge], which
    stacks, of values 2, 3, 5 and, inactive, 7, and bonuses of the type
    [armor], which does not stack, of values 2, 3 and 5. *)
Definition stacks_dodge (typ : string) : bool := String.eqb typ "dodge".

Definition add_bonus (name : string) (value : Z) (typ : string) (active : bool)
  (c : Character) : Character :=
  run (Bonus.plug 8 name)
    (new_bonus name (Bonus.init value ["ac"] (Some typ) None None active) c).

Definition with_armor_and_dodge : Character :=
  add_bonus "plate" 5 "armor" true
    (add_bonus "hide" 3 "armor" true
       (add_bonus "cloth" 2 "armor" true
          (add_bonus "haste" 7 "dodge" false
             (add_bonus "feat" 5 "dodge" true
                (add_bonus "ring" 3 "dodge" true
                   (add_bonus "boots" 2 "dodge" true
                      (add_stat "ac" "10" (empty_char [] stacks_dodge)))))))).

(** A stat [ac] of formula [1/3] with a bonus of 1 of the type [armor] and
    a bonus of 1 of the type [dodge]. *)
Definition with_third : Character :=
  add_bonus "ring" 1 "dodge" true
    (add_bonus "plate" 1 "armor" true
       (add_stat "ac" "1/3" (empty_char [] stacks_dodge))).

(** A stat [x] whose formula overflows, and a stat [y] that reads it: with
    [A] the integer [10^200], the product [(A/1)*(A/1)] is infinite, and
    the difference of two infinities is a NaN. *)
Definition huge : string := pretty (10 ^ 200)%Z.

Definition overflowing : string :=
  "(" +:+ huge +:+ "/1)*(" +:+ huge +:+ "/1)-("
  +:+ huge +:+ "/1)*(" +:+ huge +:+ "/1)".

Definition with_nan : Character :=
  add_stat "y" "$x+1" (add_stat "x" overflowing (empty_char [] (fun _ => false))).

(** [x] before [y]. *)
Definition nan_rank (name : string) : nat :=
  if String.eqb name "x" then 0%nat else 1%nat.

(** A rank for the graph of [dexterity] and its dependants. *)
Definition ability_rank (name : string) : nat :=
  if String.eqb name "dexterity" then 0%nat else 1%nat.

(** A stat that is a key of the dict, unplugged and given a formula with
    an alias of itself. *)
Definition own_alias : Character :=
  run (Stat.set_formula "x" "$x")
    (run (Stat.unplug 1 "x" false false)
       (add_stat "x" "2" (empty_char [] (fun _ => false)))).

Definition value_of (c : Character) (name : string) : option Py.pyval :=
  stat_value <$> stats c !! name.

Definition normal_of (c : Character) (name : string) : option Py.pyval :=
  stat_normal <$> stats c !! name.

Definition uses_of (c : Character) (name : string) : option (list string) :=
  (fun o => elements (stat_uses o)) <$> stats c !! name.


Definition plugged (c : Character) (name : string) : option bool :=
  stat_char <$> stats c !! name.

End Scenario.

(** ** Notions in which the properties are stated *)

(** Two stores with the same dicts of keys, bonuses and effects and the same
    configuration: they differ in their stats at most. *)
Definition frame (c c' : Character) : Prop :=
  stats_keys c' = stats_keys c /\ bonuses c' = bonuses c
  /\ effects c' = effects c /\ BONUS_TYPES c' = BONUS_TYPES c
  /\ BONUS_PERM c' = BONUS_PERM c /\ _stacks c' = _stacks c.

(** What a formula can read of another stat. *)
Definition outputs (o : StatObj) : Py.pyval * Py.pyval :=
  (stat_value o, stat_normal o).

(** A stat with its two outputs blanked: what [calc] never writes. *)
Definition shape (o : StatObj) : StatObj :=
  set_value Py.VNone (set_normal Py.VNone o).

(** Two stores whose stats differ in their outputs at most. *)
Definition same_shape (c c' : Character) : Prop :=
  forall t, shape <$> stats c' !! t = shape <$> stats c !! t.

(** The scope in which [calc] evaluates the formula of [self]. *)
Definition calc_scope (self : string) : scope := mkScope (Some self) false.

(** The values of the active bonuses among [names], in order; [None] when a
    name denotes no bonus. *)
Fixpoint active_vals (bs : gmap string BonusObj) (names : list string)
  : option (list Z) :=
  match names with
  | [] => Some []
  | n :: r =>
      b ← bs !! n;
      vs ← active_vals bs r;
      Some (if bonus_active b then bonus_get_value b :: vs else vs)
  end.

(** The value a stat ends with when the categories [cats] are folded into
    [v]; [None] when the fold raises. *)
Fixpoint add_categories (c : Character) (cats : list (string * list string))
  (v : Py.pyval) : option Py.pyval :=
  match cats with
  | [] => Some v
  | tb :: r =>
      vals ← active_vals (bonuses c) tb.2;
      match Stat.contribution (_stacks c tb.1) vals with
      | None => add_categories c r v
      | Some x =>
          match Py.py_add v (Py.VInt x) with
          | Py.EVal v' => add_categories c r v'
          | Py.EExn _ => None
          end
      end
  end.

(** In the words of the specification: a category contributes the sum of
    its active values where it stacks, the largest of them where it does
    not, and nothing when it has none. *)
Definition category_contribution (stk : bool) (vals : list Z) : Z :=
  match vals with
  | [] => 0
  | v :: vs => if stk then foldr Z.add 0 vals else foldr Z.max v vs
  end.

Definition active_of (c : Character) (names : list string) : list Z :=
  default [] (active_vals (bonuses c) names).

Definition bonus_total (c : Character) (cats : list (string * list string)) : Z :=
  foldr Z.add 0
    (map (fun tb => category_contribution (_stacks c tb.1) (active_of c tb.2))
         cats).

(** The contributions of the categories that have an active bonus, in the
    order of the dict. *)
Definition contributions (c : Character) (cats : list (string * list string))
  : list Z :=
  omap (fun tb =>
          match active_of c tb.2 with
          | [] => None
          | vals => Some (category_contribution (_stacks c tb.1) vals)
          end)
       cats.

(** [v] with the integers of [l] added to it one after the other by [+=];
    [None] where an addition raises.  On a float every addition rounds. *)
Fixpoint added_in_turn (v : Py.pyval) (l : list Z) : option Py.pyval :=
  match l with
  | [] => Some v
  | x :: r =>
      match Py.py_add v (Py.VInt x) with
      | Py.EVal v' => added_in_turn v' r
      | Py.EExn _ => None
      end
  end.

(** What [calc] leaves in [c'] for the stat [self] of [c]: its normal is
    the formula evaluated on the normals of the stats it reads, and its value
    is the formula evaluated on their values, with the contributions of its
    bonus categories added one after the other; where the formula gives an
    [int], that is the [int] plus the total of the contributions. *)
Definition folds_bonuses (self : string) (c c' : Character) : Prop :=
  exists me n base v,
    stats c !! self = Some me
    /\ eval (calc_scope self)
            (Py.replace ".value" ".normal" (stat_formula me)) c = Ok n c
    /\ eval (calc_scope self) (stat_formula me)
            (with_stats (insert self (set_normal n me)) c)
       = Ok base (with_stats (insert self (set_normal n me)) c)
    /\ added_in_turn base (contributions c (stat_bonuses me)) = Some v
    /\ (forall b, base = Py.VInt b ->
                  v = Py.VInt (b + bonus_total c (stat_bonuses me)))
    /\ stat_value <$> stats c' !! self = Some v
    /\ stat_normal <$> stats c' !! self = Some n.


(** The stat [t] has in [c'] the outputs it was given by a recomputation
    in a store that differs from [c] in outputs of stats at most. *)
Definition last_recomputed (t : string) (c c' : Character) : Prop :=
  exists cm b cm',
    frame c cm /\ same_shape c cm
    /\ Stat.recompute t cm = Ok b cm'
    /\ stats c' !! t = stats cm' !! t.

(** The dependency graph has no cycle: [rank] grows along every edge from a
    stat to a stat in its [usedby]. *)
Definition acyclic (rank : string -> nat) (c : Character) : Prop :=
  map_Forall
    (fun t o => set_Forall (fun u => (rank t < rank u)%nat) (stat_usedby o))
    (stats c).

(** The stats an expression reads through the dict of the character, and
    whether it reads [self.value] or [self.normal]. *)
Fixpoint reads (e : Py.expr) : list string :=
  match e with
  | Py.ENum _ => []
  | Py.EStat _ k _ => [k]
  | Py.ESelf _ => []
  | Py.EBin _ a b | Py.EMax a b | Py.EMin a b => reads a ++ reads b
  | Py.ENeg a | Py.EPos a | Py.EInt a => reads a
  end.

Fixpoint reads_own (e : Py.expr) : bool :=
  match e with
  | Py.ENum _ => false
  | Py.EStat _ _ _ => false
  | Py.ESelf _ => true
  | Py.EBin _ a b | Py.EMax a b | Py.EMin a b => reads_own a || reads_own b
  | Py.ENeg a | Py.EPos a | Py.EInt a => reads_own a
  end.

#[global] Instance acyclic_dec rank c : Decision (acyclic rank c).
Proof. unfold acyclic. apply _. Defined.

(** The formula [text] reads only outputs of stats that satisfy [ok], and
    none of the stat it belongs to. *)
Definition reads_only (ok : string -> bool) (text : string) : bool :=
  match Py.parse text with
  | Some e => negb (reads_own e) && forallb ok (reads e)
  | None => true
  end.

(** Both texts [calc] evaluates. *)
Definition formula_reads_only (ok : string -> bool) (formula : string) : bool :=
  reads_only ok formula
  && reads_only ok (Py.replace ".value" ".normal" formula).


Definition other_than (self : string) (n : string) : bool :=
  negb (String.eqb n self).

(** The text and the matched names the two loops of [plug] arrive at. *)
Definition resolve_var (name : string) (acc : string * gset string)
  (v : string * (string -> string)) : string * gset string :=
  let s1 := Py.replace (v.1 +:+ name) (v.2 name) acc.1 in
  let s2 := Py.replace (v.1 +:+ "{" +:+ name +:+ "}") (v.2 name) s1 in
  if negb (String.eqb s2 acc.1) then (s2, {[name]} ∪ acc.2) else (s2, acc.2).

Definition resolve (keys : list string) (acc : string * gset string)
  : string * gset string :=
  fold_left (fun acc name => fold_left (resolve_var name) Stat.VARS acc) keys acc.

(** The scope in which [plug] evaluates the formula of [self]. *)
Definition plug_scope (self : string) : scope := mkScope (Some self) true.

(** What [plug] resolves the formula of [me] to in [c]: the names whose
    alias it finds, and the text it evaluates. *)
Definition resolved_names (c : Character) (me : StatObj) : gset string :=
  (resolve (stats_keys c) (stat_formula me, ∅)).2.

Definition resolved_formula (c : Character) (me : StatObj) : string :=
  fold_left Stat.plug_attr Stat.stat_dir
    (resolve (stats_keys c) (stat_formula me, ∅)).1.

(** [name] is a key of [char.stats] that denotes an object. *)
Definition resolvable (c : Character) (self name : string) : Prop :=
  name ∈ stats_keys c /\ (name = self \/ is_Some (stats c !! name)).

(** A stat after [plug] has entered [self] in its [usedby]. *)
Definition marked (self : string) (o : StatObj) : StatObj :=
  set_leaf false (set_usedby ({[self]} ∪ stat_usedby o) o).

Definition alter_all (f : StatObj -> StatObj) (l : list string)
  (m : gmap string StatObj) : gmap string StatObj :=
  fold_left (fun m n => alter f n m) l m.

(** A stat as [unplug] leaves it. *)
Definition detached (o : StatObj) : StatObj :=
  set_char false
    (set_leaf true
       (set_root true
          (set_uses ∅ (set_formula_f (stat_original o) (set_usedby ∅ o))))).

(** A stat after [unplug] has taken [self] out of its [usedby]. *)
Definition released (self : string) (o : StatObj) : StatObj :=
  let o' := set_usedby (stat_usedby o ∖ {[self]}) o in
  if bool_decide (stat_usedby o' = ∅) then set_leaf true o' else o'.

(** What [unplug] and a second [plug] do after a [plug] of the stat [me]
    of name [self] that led to the store [c1], in which the stat is [me1]:
    [unplug] returns; the stat has its original formula, no [uses] and no
    [usedby], is root and leaf and unbound; every stat it used no longer has
    it in its [usedby] and is a leaf again when that set is empty; and, when
    the resolved formula reads no output of the stat itself, [plug] returns
    again. *)
Definition unplug_restores (fuel : nat) (self : string) (c1 : Character)
  (me me1 : StatObj) : Prop :=
  exists c2 me2,
    (forall k, Stat.unplug (S k) self false false c1 = Ok tt c2)
    /\ stats c2 !! self = Some me2
    /\ stat_formula me2 = stat_original me2
    /\ stat_original me2 = stat_original me
    /\ stat_uses me2 = ∅ /\ stat_usedby me2 = ∅
    /\ stat_root me2 = true /\ stat_leaf me2 = true /\ stat_char me2 = false
    /\ (forall n, n ∈ stat_uses me1 ->
                  exists o2, stats c2 !! n = Some o2
                             /\ (self ∉ stat_usedby o2)
                             /\ (stat_usedby o2 = ∅ -> stat_leaf o2 = true))
    /\ (formula_reads_only (other_than self) (stat_formula me1) = true ->
        exists c3, Stat.plug fuel self c2 = Ok tt c3).

(** ** Printing a duration *)

Module Printing.

Section Duration_str.

(** [str] of a float, the shortest decimal text that reads back as the
    float.  It is not modelled: what follows holds for every rendering. *)
Variable repr : spec_float -> string.

Definition NAMES : list (Z * string) :=
  [(5259600, "yr"); (14400, "day"); (600, "hr"); (10, "min"); (1, "rd")].

(** [a < b] *)
Definition lt (a b : Py.pyval) : Py.exn + bool :=
  match a, b with
  | Py.VNone, _ | _, Py.VNone => inl Py.TypeError
  | _, _ =>
      match Py.compare a b with
      | Some Lt => inr true
      | _ => inr false
      end
  end.

(** ['%s' % v] *)
Definition str_of (v : Py.pyval) : string :=
  match v with
  | Py.VNone => "None"
  | Py.VInt z => pretty z
  | Py.VFloat f => repr f
  end.

(** The loop of [Duration.__str__] over [NAMES]: the terms it appends,
    [x] being what is left to decompose. *)
Fixpoint terms (names : list (Z * string)) (x : Py.pyval)
  : Py.exn + list string :=
  match names with
  | [] => inr []
  | (num, name) :: r =>
      match lt (Py.VInt num) x with
      | inl e => inl e
      | inr false => terms r x
      | inr true =>
          match Py.py_truediv x (Py.VInt num) with
          | Py.EExn e => inl e
          | Py.EVal q =>
              match Py.py_mod x (Py.VInt num) with
              | Py.EExn e => inl e
              | Py.EVal x' =>
                  match terms r x' with
                  | inl e => inl e
                  | inr l => inr ((str_of q +:+ name) :: l)
                  end
              end
          end
      end
  end.

(** [Duration.__str__] *)
Definition Duration_str (d : DurationObj) : Py.exn + string :=
  if Py.py_eqb (dur_rounds d) (Py.VInt Duration.INF) then inr "infinite"
  else match terms NAMES (dur_rounds d) with
       | inl e => inl e
       | inr l => inr (Py.join "+" l)
       end.

End Duration_str.

End Printing.

(** A text made of decimal digits. *)
Fixpoint digits_only (s : string) : bool :=
  match s with
  | EmptyString => true
  | String c r => Py.is_digit c && digits_only r
  end.

(** Whether a text begins with a decimal digit. *)
Definition starts_with_digit (s : string) : bool :=
  match s with
  | EmptyString => false
  | String c _ => Py.is_digit c
  end.

(** A duration advanced by each of a list of amounts in turn. *)
Fixpoint advance_all (d : DurationObj) (l : list Duration.amount)
  : Py.exn + DurationObj :=
  match l with
  | [] => inr d
  | a :: r =>
      match Duration.advance d a with
      | inl e => inl e
      | inr (_, d') => advance_all d' r
      end
  end.

(** The lexer ends a number where [rest] begins: [rest] begins with no
    digit and no letter. *)
Definition ends_number (rest : string) : Prop :=
  forall l k, Py.tokenize_go rest (Py.LNum l k)
              = Py.TNum k :: Py.tokenize_go rest Py.LStart.

(** A unit name as [to_rds] meets it: in lower case, without space,
    underscore, [+] or [/], and not beginning with a digit. *)
Definition plain_unit (u : string) : bool :=
  String.eqb (Py.replace "_" "" (Py.replace " " "" (Py.lower u))) u
  && (Py.count "+" u =? 0)%nat && (Py.count "/" u =? 0)%nat
  && negb (starts_with_digit u).

(** ** Further notions *)

(** The bonus [b] is in the list the dict [l] has for the type [typ]. *)
Definition registered (typ b : string) (l : list (string * list string)) : Prop :=
  exists bs, (typ, bs) ∈ l /\ b ∈ bs.

(** The dict [l] has a key [typ]. *)
Definition has_category (typ : string) (l : list (string * list string)) : Prop :=
  exists bs, (typ, bs) ∈ l.

(** No key of the dict has an empty list: [del_bonus] deletes the key of a
    list it has emptied. *)
Definition no_empty_category (l : list (string * list string)) : Prop :=
  Forall (fun tb => tb.2 <> []) l.

(** Whether it returns or raises, the method [m] ends in a store that [R]
    relates to the one it was run in. *)
Definition keeps {A} (R : Character -> Character -> Prop) (m : M A) : Prop :=
  forall c,
    match m c with
    | Ok _ c' => R c c'
    | Raise _ c' => R c c'
    | OutOfFuel => True
    end.

(** Stores that differ in the outputs ([value] and [normal]) of stats at
    most. *)
Definition outputs_only (c c' : Character) : Prop :=
  frame c c' /\ same_shape c c'.

(** How many times [t] occurs in [l]. *)
Fixpoint times (t : string) (l : list string) : nat :=
  match l with
  | [] => 0
  | x :: r => ((if String.eqb x t then 1 else 0) + times t r)%nat
  end.

(** A stat after [k] calls of [add_bonus] with the bonus [b] of type [typ],
    outputs blanked. *)
Definition with_added (typ b : string) (k : nat) (o : StatObj) : StatObj :=
  set_bonuses (Nat.iter k (Stat.bonuses_append typ b) (stat_bonuses o)) (shape o).

(** The dict after [k] calls of [del_bonus]; [None] when one of them finds
    no list for the type. *)
Definition removals (typ b : string) (k : nat) (l : list (string * list string))
  : option (list (string * list string)) :=
  Nat.iter k (fun ol => ol ≫= Stat.bonuses_remove typ b) (Some l).

(** The bonus as [Bonus.plug] and [Bonus.unplug] leave it. *)
Definition after_plug_unplug (perm : list string) (me : BonusObj) : BonusObj :=
  set_bonus_char false
    (if Bonus.is_empty (bonus_condition me) && Bonus.mem (bonus_typ me) perm
     then set_bonus_active true me else me).

(** ** Concrete cases *)

Module Cases.

Definition shield : BonusObj := Bonus.init 4 ["ac"] (Some "armor") None None true.

Definition tome : BonusObj := Bonus.init 2 ["ac"] (Some "inherent") None None false.

(** The stat [ac] and the bonus [shield], yet to be plugged in. *)
Definition before_shield : Character := Scenario.new_bonus "shield" shield Scenario.with_ac.

(** [ac] with [shield] plugged in, and the bonus [tome], yet to be plugged
    in. *)
Definition before_tome : Character := Scenario.new_bonus "tome" tome Scenario.with_shield.

Definition ac_plain : StatObj :=
  mkStat "10" "10" "" [] false ∅ ∅ (Py.VInt 10) (Py.VInt 10) true true true.

Definition ac_shielded : StatObj :=
  mkStat "10" "10" "" [("armor", ["shield"])] false ∅ ∅
    (Py.VInt 10) (Py.VInt 14) true true true.

Definition ten_rounds : DurationObj := mkDuration "1*10" (Py.VInt 10) (Py.VInt 10).

(** Effects on the plugged bonus [shield], made with [active=False], with
    [active=True] and without [active]. *)
Definition curse : EffectObj :=
  Effect.init ["shield"] Scenario.spent "" (Some false).

Definition before_curse : Character :=
  Scenario.new_effect "curse" curse Scenario.with_shield.

Definition blessing : EffectObj :=
  Effect.init ["shield"] Scenario.spent "" (Some true).

Definition before_blessing : Character :=
  Scenario.new_effect "blessing" blessing Scenario.with_shield.

Definition spell : EffectObj := Effect.init ["shield"] Scenario.spent "" None.

Definition before_spell : Character :=
  Scenario.new_effect "spell" spell Scenario.with_shield.

End Cases.

(** A bonus after an effect has entered its name in it. *)
Definition claimed (effect : string) (b : BonusObj) : BonusObj :=
  set_bonus_usedby ({[effect]} ∪ bonus_usedby b) b.

(** A bonus that [toggle] leaves alone: without condition and of a
    permanent type. *)
Definition permanent (perm : list string) (b : BonusObj) : bool :=
  Bonus.is_empty (bonus_condition b) && Bonus.mem (bonus_typ b) perm.

(** The bonuses after an effect has entered its name in those of [names]. *)
Definition claim_all (effect : string) (names : list string)
  (m : gmap string BonusObj) : gmap string BonusObj :=
  fold_left (fun m b => alter (claimed effect) b m) names m.

(** The bonus [b] is claimed by [effect] and is on, or cannot be switched. *)
Definition turned_on (effect b : string) (c : Character) : Prop :=
  exists bo,
    bonuses c !! b = Some bo
    /\ effect ∈ bonus_usedby bo
    /\ (bonus_active bo = true \/ permanent (BONUS_PERM c) bo = true).

(** ** Text *)

(** A [Text]. *)
Record TextObj := mkText {
  text_name : string;
  text_text : string
}.

Module Text.

(** The characters [str.isspace] accepts among the ASCII ones: tab to
    carriage return, the four separators, and the space. *)
Definition is_space (c : ascii) : bool :=
  let n := nat_of_ascii c in
  ((9 <=? n)%nat && (n <=? 13)%nat) || ((28 <=? n)%nat && (n <=? 32)%nat).

Fixpoint lstrip (s : string) : string :=
  match s with
  | EmptyString => EmptyString
  | String c r => if is_space c then lstrip r else s
  end.

Fixpoint rstrip (s : string) : string :=
  match s with
  | EmptyString => EmptyString
  | String c r =>
      match rstrip r with
      | EmptyString => if is_space c then EmptyString else String c EmptyString
      | r' => String c r'
      end
  end.

(** [s.strip()] *)
Definition strip (s : string) : string := rstrip (lstrip s).

(** The newline character, and the two characters, a backslash and an [n],
    it is stored as. *)
Definition newline : string := String (ascii_of_nat 10) EmptyString.

Definition escaped : string := String (ascii_of_nat 92) "n".

(** [set]; the argument is a text or [None]. *)
Definition set (text : option string) : string :=
  Py.replace newline escaped (strip (default "" text)).

(** [__init__] *)
Definition init (name : string) (text : option string) : TextObj :=
  mkText name (set text).

Definition blank_or (s : string) : string :=
  match s with
  | EmptyString => "[BLANK]"
  | _ => s
  end.

(** [__str__] *)
Definition str (self : TextObj) : string :=
  let text :=
    match text_text self with
    | EmptyString => "[BLANK]"
    | t => Py.replace escaped " | " t
    end in
  let '(text, ellip) :=
    if (50 <? String.length text)%nat then (String.substring 0 50 text, "...")
    else (text, "") in
  text_name self +:+ ": " +:+ text +:+ ellip.

(** [str_all] *)
Definition str_all (self : TextObj) : string :=
  "--- " +:+ text_name self +:+ newline
  +:+ Py.replace escaped newline (blank_or (text_text self)).

End Text.

(** ** Loading and saving a field *)

Module Field.

(** A value of an attribute or of a constructor argument. *)
Inductive value :=
| VStr (s : string)
| VNone
| VList (l : list string)
| VBool (b : bool)
| VInt (z : Z).

(** What [load] can raise: IndexError where [fields] is too short, what the
    conversion of a field raises, and what the constructor raises. *)
Inductive error :=
| IndexError
| Conversion (e : Py.exn)
| Construction (e : Py.exn).

(** The type of a field in [FIELDS]: [None], [list], [bool], or any other
    callable, which is applied to the text of the field. *)
Inductive ftype :=
| TNone
| TList
| TBool
| TCall (f : string -> Py.exn + value).

(** [str] as a field type. *)
Definition Tstr : ftype := TCall (fun s => inr (VStr s)).

(** Decimal digits with single underscores between them. *)
Fixpoint int_digits (s : string) (acc : Z) (after_digit : bool) : option Z :=
  match s with
  | EmptyString => if after_digit then Some acc else None
  | String c r =>
      if Py.is_digit c then int_digits r (10 * acc + Py.digit_val c) true
      else if Ascii.eqb c "_" && after_digit && starts_with_digit r
      then int_digits r acc false
      else None
  end.

(** [int(s)] of a text, in base ten: blanks around, a sign, and digits.  The
    bound that recent versions of Python put on the number of digits is not
    modelled. *)
Definition int_of_string (s : string) : Py.exn + value :=
  let t := Text.strip s in
  match (match t with
         | String c r =>
             if Ascii.eqb c "+" then int_digits r 0 false
             else if Ascii.eqb c "-" then Z.opp <$> int_digits r 0 false
             else int_digits t 0 false
         | EmptyString => None
         end) with
  | Some z => inr (VInt z)
  | None => inl Py.ValueError
  end.

(** [int] as a field type. *)
Definition Tint : ftype := TCall int_of_string.

(** What [save] writes of a value: the items of a list, which are texts,
    joined by commas, and [str] of any other value. *)
Definition saved (val : value) : string :=
  match val with
  | VList xs => Py.join "," xs
  | VStr s => s
  | VNone => "None"
  | VBool true => "True"
  | VBool false => "False"
  | VInt z => pretty z
  end.

(** A class with [FIELDS]: its constructor, applied to the parsed values,
    and the attributes of its objects. *)
Record cls (Obj : Type) := mkCls {
  FIELDS : list (string * ftype);
  construct : list value -> Py.exn + Obj;
  getattr : Obj -> string -> option value
}.
Arguments FIELDS {Obj}.
Arguments construct {Obj}.
Arguments getattr {Obj}.

(** A field of a type other than [None], converted. *)
Definition convert (typ : ftype) (f : string) : Py.exn + value :=
  match typ with
  | TNone => inr VNone
  | TList => inr (VList (Py.split "," f))
  | TBool => inr (VBool (String.eqb f "True"))
  | TCall g => g f
  end.

(** The loop of [load]; [fields] is what is left from index [i] on. *)
Fixpoint parse_fields (types : list ftype) (fields : list string)
  : error + list value :=
  match types with
  | [] => inr []
  | TNone :: r =>
      match parse_fields r fields with
      | inl e => inl e
      | inr l => inr (VNone :: l)
      end
  | typ :: r =>
      match fields with
      | [] => inl IndexError
      | f :: fs =>
          match convert typ f with
          | inl e => inl (Conversion e)
          | inr v =>
              match parse_fields r fs with
              | inl e => inl e
              | inr l => inr (v :: l)
              end
          end
      end
  end.

(** [load] *)
Definition load {Obj} (C : cls Obj) (fields : list string) : error + Obj :=
  match parse_fields (map snd (FIELDS C)) fields with
  | inl e => inl e
  | inr parsed =>
      match construct C parsed with
      | inl e => inl (Construction e)
      | inr o => inr o
      end
  end.

(** [save] *)
Fixpoint save_fields {Obj} (C : cls Obj) (self : Obj)
  (fields : list (string * ftype)) : Py.exn + list string :=
  match fields with
  | [] => inr []
  | (field, typ) :: r =>
      match typ with
      | TNone => save_fields C self r
      | _ =>
          match getattr C self field with
          | None => inl Py.AttributeError
          | Some val =>
              match save_fields C self r with
              | inl e => inl e
              | inr l =>
                  inr (saved val :: l)
              end
          end
      end
  end.

Definition save {Obj} (C : cls Obj) (self : Obj) : Py.exn + list string :=
  save_fields C self (FIELDS C).

(** The class [Text].  The values [load] passes to a constructor have the
    types of [FIELDS]; a constructor is given no others. *)
Definition Text : cls TextObj :=
  mkCls TextObj
    [("name", Tstr); ("text", Tstr)]
    (fun args =>
       match args with
       | [VStr name; VStr text] => inr (Text.init name (Some text))
       | _ => inl Py.TypeError
       end)
    (fun o field =>
       if String.eqb field "name" then Some (VStr (text_name o))
       else if String.eqb field "text" then Some (VStr (text_text o))
       else None).

(** The class [Bonus]; an object is given with its name. *)
Definition Bonus : cls (string * BonusObj) :=
  mkCls (string * BonusObj)
    [("name", Tstr); ("value", Tint); ("stats", TList); ("typ", Tstr);
     ("condition", Tstr); ("text", Tstr); ("active", TBool)]
    (fun args =>
       match args with
       | [VStr name; VInt value; VList stats; VStr typ; VStr cond; VStr text;
          VBool active] =>
           inr (name, Bonus.init value stats (Some typ) (Some cond) (Some text) active)
       | _ => inl Py.TypeError
       end)
    (fun o field =>
       if String.eqb field "name" then Some (VStr o.1)
       else if String.eqb field "value" then Some (VInt (bonus_value o.2))
       else if String.eqb field "stats" then Some (VList (bonus_stats o.2))
       else if String.eqb field "typ" then Some (VStr (bonus_typ o.2))
       else if String.eqb field "condition" then Some (VStr (bonus_condition o.2))
       else if String.eqb field "text" then Some (VStr (bonus_text o.2))
       else if String.eqb field "active" then Some (VBool (bonus_active o.2))
       else None).

End Field.

(** A text without blank at either end. *)
Fixpoint ends_blank (s : string) : bool :=
  match s with
  | EmptyString => false
  | String c EmptyString => Text.is_space c
  | String _ r => ends_blank r
  end.

Definition starts_blank (s : string) : bool :=
  match s with
  | EmptyString => false
  | String c _ => Text.is_space c
  end.

(** The bonus that [Bonus.load] makes of what [save] wrote of [b]. *)
Definition reloaded (b : BonusObj) : BonusObj :=
  mkBonus (bonus_value b) (bonus_stats b) (bonus_typ b) (bonus_condition b)
    (bonus_text b)
    (if Bonus.is_empty (bonus_condition b) then bonus_active b else false)
    (bonus_active b) ∅ false.

Module Notes.

(** A text of two lines with blanks around. *)
Definition two_lines : string :=
  "  two" +:+ Text.newline +:+ "lines" +:+ Text.newline.

(** A bonus as [__init__] makes it. *)
Definition cover : BonusObj :=
  Bonus.init 4 ["ac"; "reflex"] (Some "Cover") (Some "behind a wall") None true.

End Notes.

(** The dependency graph is consistent: a stat is a root exactly when it
    uses no stat, and a leaf exactly when no stat uses it; the stats it uses
    are keys of the character and have it in their [usedby]; and the stats
    in its [usedby] use it. *)
Definition graph_ok (c : Character) : Prop :=
  forall t o,
    stats c !! t = Some o ->
    (stat_root o = true <-> stat_uses o = ∅)
    /\ (stat_leaf o = true <-> stat_usedby o = ∅)
    /\ (forall n, n ∈ stat_uses o ->
                  n ∈ stats_keys c
                  /\ exists o', stats c !! n = Some o' /\ t ∈ stat_usedby o')
    /\ (forall n, n ∈ stat_usedby o ->
                  exists o', stats c !! n = Some o' /\ t ∈ stat_uses o').

(** The stat [n] exists and has [t] in the set [sel] gives of it. *)
Definition edge_back (c : Character) (sel : StatObj -> gset string)
  (t n : string) : Prop :=
  match stats c !! n with
  | Some o' => t ∈ sel o'
  | None => False
  end.

#[global] Instance edge_back_dec c sel t n : Decision (edge_back c sel t n).
Proof. unfold edge_back. destruct (stats c !! n); apply _. Defined.

(** Consistency in a form that can be decided by evaluation. *)
Definition graph_checked (c : Character) : Prop :=
  map_Forall
    (fun t o =>
       (stat_root o = true <-> stat_uses o = ∅)
       /\ (stat_leaf o = true <-> stat_usedby o = ∅)
       /\ set_Forall (fun n => n ∈ stats_keys c /\ edge_back c stat_usedby t n)
            (stat_uses o)
       /\ set_Forall (fun n => edge_back c stat_uses t n) (stat_usedby o))
    (stats c).

#[global] Instance graph_checked_dec c : Decision (graph_checked c).
Proof. unfold graph_checked. apply _. Defined.

(** ** The bonuses that bear on a stat *)

Module Views.

Definition pairs : Type := list (string * string) * list (string * string).

(** The loops of [get_bonuses] over the bonuses of the stat itself. *)
Definition own_bonuses (self : string) (me : StatObj) : M pairs :=
  foldM
    (fun (acc : pairs) b =>
       bo <~ get_bonus b ;;
       ret (if Bonus.is_empty (bonus_condition bo)
            then (acc.1 ++ [(self, b)], acc.2)
            else (acc.1, acc.2 ++ [(self, b)])))
    (concat (map snd (stat_bonuses me))) ([], []).

(** [get_bonuses]: the bonuses without condition and those with one, each
    with the name of the stat it is on, over the stat and the stats it uses,
    directly or not. *)
Fixpoint get_bonuses (fuel : nat) (self : string) : M pairs :=
  match fuel with
  | O => fun _ => OutOfFuel
  | S fuel' =>
      me <~ get_stat self ;;
      own <~ own_bonuses self me ;;
      foldM
        (fun (acc : pairs) stat =>
           (if stat_char me then ret tt else raise Py.AttributeError) ;;;
           _ <~ char_stats stat ;;
           r <~ get_bonuses fuel' stat ;;
           ret (acc.1 ++ r.1, acc.2 ++ r.2))
        (elements (stat_uses me)) own
  end.

End Views.

(** The stat [t] is [s] or a stat that [s] uses, directly or not. *)
Inductive depends (c : Character) : string -> string -> Prop :=
| depends_refl t : depends c t t
| depends_step s n o t :
    stats c !! s = Some o -> n ∈ stat_uses o -> depends c n t -> depends c s t.

(** The bonus [b] is in the dict of the stat [t], and has a condition or
    not as [conditional] tells. *)
Definition listed (c : Character) (conditional : bool) (p : string * string) : Prop :=
  (exists o typ, stats c !! p.1 = Some o /\ registered typ p.2 (stat_bonuses o))
  /\ exists bo, bonuses c !! p.2 = Some bo
                /\ Bonus.is_empty (bonus_condition bo) = negb conditional.

(** ** The command line

    [CLI.get_args] of [char_sheet/cli.py]: the words of a line, with quotes
    and keywords. *)

Module Cli.

(** An argument: a text, or the list a text with commas is split into. *)
Inductive arg :=
| Word (s : string)
| Items (l : list string).

(** The messages of [ArgsError]. *)
Inductive ArgsError :=
| BlankValue
| UnquotedEquals
| BlankName.

(** The variables of the loop. *)
Record state := mkState {
  args : list arg;
  kwargs : list (string * arg);
  quote : bool;
  last_quoted : bool;
  to_lower : bool;
  s : string;
  key : option string
}.

(** [kwargs[key] = v] *)
Fixpoint assign (k : string) (v : arg) (d : list (string * arg))
  : list (string * arg) :=
  match d with
  | [] => [(k, v)]
  | (k', v') :: r =>
      if String.eqb k' k then (k', v) :: r else (k', v') :: assign k v r
  end.

(** One turn of the loop, for the character [c].  The tests [if s] and
    [if key] are false for the empty text, and [if key] for [None]. *)
Definition step (lower split : bool) (c : ascii) (st : state)
  : ArgsError + state :=
  if Ascii.eqb c " " then
    if quote st then
      inr (mkState (args st) (kwargs st) (quote st) (last_quoted st)
             (to_lower st) (s st +:+ String c "") (key st))
    else
      match s st with
      | String _ _ =>
          let v :=
            if negb (last_quoted st) && split && Py.contains "," (s st)
            then Items (Py.split "," (s st)) else Word (s st) in
          match key st with
          | Some (String _ _ as k) =>
              inr (mkState (args st) (assign k v (kwargs st)) (quote st) false
                     (to_lower st) "" None)
          | _ =>
              inr (mkState (args st ++ [v]) (kwargs st) (quote st) false
                     (to_lower st) "" (key st))
          end
      | EmptyString =>
          match key st with
          | Some (String _ _) => inl BlankValue
          | _ => inr st
          end
      end
  else if Ascii.eqb c Py.dquote then
    if quote st then
      inr (mkState (args st) (kwargs st) false (last_quoted st) lower (s st)
             (key st))
    else
      inr (mkState (args st) (kwargs st) true true false (s st) (key st))
  else if Ascii.eqb c "=" && negb (quote st) then
    match key st with
    | Some (String _ _) => inl UnquotedEquals
    | _ =>
        match s st with
        | EmptyString => inl BlankName
        | k => inr (mkState (args st) (kwargs st) (quote st) false (to_lower st)
                      "" (Some k))
        end
    end
  else
    inr (mkState (args st) (kwargs st) (quote st) (last_quoted st) (to_lower st)
           (s st +:+ String (if to_lower st then Py.lower_char c else c) "")
           (key st)).

Fixpoint scan (lower split : bool) (line : string) (st : state)
  : ArgsError + state :=
  match line with
  | EmptyString => inr st
  | String c r =>
      match step lower split c st with
      | inl e => inl e
      | inr st' => scan lower split r st'
      end
  end.

Definition start (lower : bool) : state :=
  mkState [] [] false false lower "" None.

(** [get_args(line, lower, split)] *)
Definition get_args (line : string) (lower split : bool)
  : ArgsError + (list arg * list (string * arg)) :=
  match scan lower split (Text.strip line +:+ " ") (start lower) with
  | inl e => inl e
  | inr st => inr (args st, kwargs st)
  end.

End Cli.

(** A character that [get_args] adds to the word it is reading: no blank,
    quote, equals sign or comma. *)
Definition plain_char (c : ascii) : bool :=
  negb (Text.is_space c) && negb (Ascii.eqb c Py.dquote)
  && negb (Ascii.eqb c "=") && negb (Ascii.eqb c ",").

Fixpoint plain_word (w : string) : bool :=
  match w with
  | EmptyString => true
  | String c r => plain_char c && plain_word r
  end.

(** A word of a command line: not empty, of plain characters. *)
Definition is_word (w : string) : bool :=
  match w with
  | EmptyString => false
  | _ => plain_word w
  end.

(** What the loop of [get_args] keeps: no argument and no value of a
    keyword is the empty text, and no keyword has the empty name. *)
Definition no_blank (st : Cli.state) : Prop :=
  Forall (fun a => a <> Cli.Word "") (Cli.args st)
  /\ Forall (fun kv => kv.1 <> "" /\ kv.2 <> Cli.Word "") (Cli.kwargs st)
  /\ Cli.key st <> Some "".

(** What the loop of [get_args] adds to the word it is reading, for the
    text [w]. *)
Definition read_as (lowering : bool) (w : string) : string :=
  if lowering then Py.lower w else w.

(** * Properties *)

Import Scenario.

(** ** Durations *)

Lemma to_rds_day : Duration.to_rds (Duration.SText "1d") = inr "1*14400".
Proof. reflexivity. Qed.

Lemma to_rds_hours : Duration.to_rds (Duration.SText "2hr") = inr "2*600".
Proof. reflexivity. Qed.

Lemma to_rds_per_caster_level :
  Duration.to_rds (Duration.SText "1/2CL")
  = inr "1*1*max(1,int($caster_level/2))".
Proof. reflexivity. Qed.

Lemma parse_per_caster_level :
  Py.parse (Duration.expand_units "1*1*max(1,int($caster_level/2))")
  = Some (Py.EBin Py.Mul (Py.EBin Py.Mul (Py.ENum 1) (Py.ENum 1))
            (Py.EMax (Py.ENum 1)
               (Py.EInt (Py.EBin Py.TrueDiv
                           (Py.EStat false "caster_level" Py.FValue)
                           (Py.ENum 2))))).
Proof. reflexivity. Qed.

Lemma init_per_caster_level (c : Character) (o : StatObj) :
  "caster_level" ∈ stats_keys c ->
  stats c !! "caster_level" = Some o ->
  stat_value o = Py.VInt 6 ->
  exists raw,
    Duration.init (Duration.SText "1/2CL") true c
    = Ok (mkDuration raw (Py.VInt 3) (Py.VInt 3)) c.
Proof.
  intros Hkey Hobj Hval. eexists.
  unfold Duration.init, Duration.parse, bind.
  rewrite to_rds_per_caster_level.
  change (Py.contains "char.stats"
            (Duration.expand_units "1*1*max(1,int($caster_level/2))")
          && negb true) with false.
  cbv iota. unfold eval. rewrite parse_per_caster_level.
  cbn [eval_expr sc_char ebind]. unfold eval_stat_ref.
  rewrite (bool_decide_true _ Hkey), Hobj. cbn [stat_field]. rewrite Hval.
  reflexivity.
Qed.

Lemma advance_sentinel (d : DurationObj) (a : Duration.amount) :
  dur_rounds d = Py.VInt Duration.INF ->
  a <> Duration.AOther ->
  Duration.advance d a = inr (false, d).
Proof.
  intros Hinf Ha. unfold Duration.advance.
  destruct a as [z | d' |]; [ | | congruence ]; now rewrite Hinf.
Qed.

(** C9.  A duration is evaluated once when it is made: [1d] gives 14400
    rounds, [2hr] gives 1200, no text gives the sentinel -1, and [1/2CL]
    gives 3 where the stat [caster_level] has value 6.  Advancing a duration
    whose rounds are the sentinel, by a number or by a duration, returns
    false and leaves it as it is. *)
Theorem duration_rounds :
  (forall c char,
      Duration.init (Duration.SText "1d") char c
      = Ok (mkDuration "1*14400" (Py.VInt 14400) (Py.VInt 14400)) c)
  /\ (forall c char,
         Duration.init (Duration.SText "2hr") char c
         = Ok (mkDuration "2*600" (Py.VInt 1200) (Py.VInt 1200)) c)
  /\ (forall c char,
         Duration.init Duration.SNone char c
         = Ok (mkDuration "-1" (Py.VInt Duration.INF) (Py.VInt Duration.INF)) c)
  /\ (forall c o,
         "caster_level" ∈ stats_keys c ->
         stats c !! "caster_level" = Some o ->
         stat_value o = Py.VInt 6 ->
         exists raw,
           Duration.init (Duration.SText "1/2CL") true c
           = Ok (mkDuration raw (Py.VInt 3) (Py.VInt 3)) c)
  /\ (forall d a,
         dur_rounds d = Py.VInt Duration.INF ->
         a <> Duration.AOther ->
         Duration.advance d a = inr (false, d)
         /\ dur_rounds d = Py.VInt (-1)).
Proof.
  split; [ intros c [|]; reflexivity | ].
  split; [ intros c [|]; reflexivity | ].
  split; [ intros c [|]; reflexivity | ].
  split; [ exact init_per_caster_level | ].
  intros d a Hinf Ha. split; [ now apply advance_sentinel | exact Hinf ].
Qed.

Lemma duration_rounds_witness :
  (exists raw,
      Duration.init (Duration.SText "1/2CL") true
        (add_stat "caster_level" "6" (empty_char [] (fun _ => false)))
      = Ok (mkDuration raw (Py.VInt 3) (Py.VInt 3))
           (add_stat "caster_level" "6" (empty_char [] (fun _ => false))))
  /\ Duration.advance (mkDuration "-1" (Py.VInt (-1)) (Py.VInt (-1)))
       (Duration.AInt 5)
     = inr (false, mkDuration "-1" (Py.VInt (-1)) (Py.VInt (-1))).
Proof.
  destruct duration_rounds as (_ & _ & _ & Hcl & Hadv). split.
  - apply (Hcl _ (mkStat "6" "6" "" [] false ∅ ∅ (Py.VInt 6) (Py.VInt 6)
                    true true true)).
    + vm_compute. apply list_elem_of_here.
    + reflexivity.
    + reflexivity.
  - apply Hadv; [ reflexivity | discriminate ].
Defined.

(** ** The ability-score scenario *)

(** Closed facts about concrete runs are settled by evaluation. *)
Ltac by_eval := intros; vm_compute; reflexivity.

Lemma dexterity_is_root :
  value_of with_dexterity "dexterity" = Some (Py.VInt 17)
  /\ stat_root <$> stats with_dexterity !! "dexterity" = Some true
  /\ stat_formula <$> stats with_dexterity !! "dexterity" = Some "17"
  /\ stats_keys with_dexterity = ["dexterity"].
Proof. split_and!; by_eval. Qed.

(** C4, as stated, fails: plugging in [dex] with formula
    [($dexterity-10)/2] where [dexterity] is 17 does not give it the
    value 3. *)
Lemma dex_is_not_3 :
  ~ (exists c,
        Stat.plug 1 "dex" before_dex = Ok tt c
        /\ value_of c "dex" = Some (Py.VInt 3)).
Proof.
  intros (c & Hplug & Hval).
  assert (Hc : c = run (Stat.plug 1 "dex") before_dex).
  { unfold run. rewrite Hplug. reflexivity. }
  subst c. clear Hplug.
  assert (Hv : value_of (run (Stat.plug 1 "dex") before_dex) "dex"
               = Some (Py.VFloat (Py.dyadic 7 (-1)))) by (vm_compute; reflexivity).
  rewrite Hv in Hval. discriminate Hval.
Qed.

(** C4, amended.  With [dexterity] a root stat of formula [17] and value 17,
    the stat of formula [($dexterity-10)/2] has, once plugged in and
    recomputed, the value 3.5, which is not equal to 3: [/] is the true
    division of Python 3.  Written with [//], the formula gives 3. *)
Theorem dex_true_division :
  value_of with_dexterity "dexterity" = Some (Py.VInt 17)
  /\ (exists c,
         (forall fuel, Stat.plug (S fuel) "dex" before_dex = Ok tt c)
         /\ (forall fuel, Stat.calc (S fuel) "dex" c = Ok tt c)
         /\ value_of c "dex" = Some (Py.VFloat (Py.dyadic 7 (-1)))
         /\ normal_of c "dex" = Some (Py.VFloat (Py.dyadic 7 (-1)))
         /\ Py.py_eqb (Py.VFloat (Py.dyadic 7 (-1))) (Py.VInt 3) = false)
  /\ (exists c,
         (forall fuel, Stat.plug (S fuel) "dex" before_dex_floor = Ok tt c)
         /\ (forall fuel, Stat.calc (S fuel) "dex" c = Ok tt c)
         /\ value_of c "dex" = Some (Py.VInt 3)).
Proof.
  split; [ by_eval | split ].
  - exists (run (Stat.plug 1 "dex") before_dex). split_and!; by_eval.
  - exists (run (Stat.plug 1 "dex") before_dex_floor). split_and!; by_eval.
Qed.

(** ** Runs in which the code leaves what the specification asks for *)

(** C3.  A stat whose formula names [dexterity] and an alias of no stat:
    [plug] raises FormulaError, and the stat is left bound to the character,
    with [dexterity] in its [uses] and [root] cleared, where before it was
    unbound with no [uses].  Its formula and the stat [dexterity] are as
    they were.  A later [unplug] of the stat raises KeyError. *)
Theorem plug_failure_leaves_traces :
  plugged before_typo "touch" = Some false
  /\ uses_of before_typo "touch" = Some []
  /\ stat_root <$> stats before_typo !! "touch" = Some true
  /\ exists c,
      (forall fuel, Stat.plug fuel "touch" before_typo = Raise Py.FormulaError c)
      /\ plugged c "touch" = Some true
      /\ uses_of c "touch" = Some ["dexterity"]
      /\ stat_root <$> stats c !! "touch" = Some false
      /\ stat_formula <$> stats c !! "touch"
         = stat_formula <$> stats before_typo !! "touch"
      /\ stats c !! "dexterity" = stats before_typo !! "dexterity"
      /\ Stat.unplug 1 "touch" false false c = Raise Py.KeyError
           (with_stats (alter (fun o => set_formula_f (stat_original o) o) "touch") c).
Proof.
  split_and!; try by_eval.
  exists (run (Stat.plug 1 "touch") before_typo). split_and!; by_eval.
Qed.

(** C6.  [dexterity] with the one dependant [dex]: [unplug] without force
    or recursion raises DependencyError naming [dex] and changes nothing.
    With [recursive] it unplugs [dex], which takes [dex] out of the set the
    loop runs over, and the next step of the loop raises RuntimeError:
    [dexterity] stays plugged in.  With the two dependants [dex] and [reflex]
    one of them is unplugged and the other is not. *)
Theorem recursive_unplug_raises :
  (forall fuel,
      Stat.unplug (S fuel) "dexterity" false false with_dex
      = Raise (Py.DependencyError ["dex"]) with_dex)
  /\ (exists c,
         (forall fuel,
             Stat.unplug (S (S fuel)) "dexterity" false true with_dex
             = Raise Py.RuntimeError c)
         /\ plugged c "dex" = Some false
         /\ plugged c "dexterity" = Some true)
  /\ (exists c,
         (forall fuel,
             Stat.unplug (S (S fuel)) "dexterity" false true with_reflex
             = Raise Py.RuntimeError c)
         /\ plugged c "reflex" = Some false
         /\ plugged c "dex" = Some true
         /\ plugged c "dexterity" = Some true).
Proof.
  split; [ by_eval | split ].
  - exists (run (Stat.unplug 2 "dexterity" false true) with_dex).
    split_and!; by_eval.
  - exists (run (Stat.unplug 2 "dexterity" false true) with_reflex).
    split_and!; by_eval.
Qed.

(** C7.  A bonus of a permanent type, without condition, made with
    [active=False]: [plug] sets [active], and [revert] clears it again. *)
Theorem revert_deactivates_permanent :
  bonus_active <$> bonuses before_inherent !! "tome" = Some false
  /\ bonus_condition <$> bonuses before_inherent !! "tome" = Some ""
  /\ Bonus.mem "inherent" (BONUS_PERM before_inherent) = true
  /\ (forall fuel, Bonus.plug (S fuel) "tome" before_inherent = Ok tt with_inherent)
  /\ bonus_active <$> bonuses with_inherent !! "tome" = Some true
  /\ exists c,
      (forall fuel, Bonus.revert (S fuel) "tome" with_inherent = Ok tt c)
      /\ bonus_active <$> bonuses c !! "tome" = Some false.
Proof.
  split_and!; try by_eval.
  exists (run (Bonus.revert 1 "tome") with_inherent). split_and!; by_eval.
Qed.

(** C8.  A bonus claimed by one effect that is not active: [off] without
    force raises AttributeError, as [usedby] holds the name of the effect,
    and the bonus stays active. *)
Theorem off_raises_on_claimed_bonus :
  (bonus_usedby <$> bonuses with_spell !! "shield") = Some {["spell"]}
  /\ Effect.is_active <$> effects with_spell !! "spell" = Some false
  /\ bonus_active <$> bonuses with_spell !! "shield" = Some true
  /\ forall fuel,
      Bonus.off fuel "shield" false with_spell = Raise Py.AttributeError with_spell.
Proof.
  split_and!; by_eval.
Qed.

(** C10.  A plugged effect with a bonus: [unplug] raises NameError at the
    first bonus and changes nothing; the effect stays in the [usedby] of the
    bonus and bound to the character. *)
Theorem effect_unplug_raises :
  effect_char <$> effects with_spell !! "spell" = Some true
  /\ (bonus_usedby <$> bonuses with_spell !! "shield") = Some {["spell"]}
  /\ forall fuel,
      Effect.unplug fuel "spell" with_spell = Raise Py.NameError with_spell.
Proof.
  split_and!; by_eval.
Qed.

(** ** Laws of the store-passing operations *)

Lemma bind_Ok_inv {A B} (m : M A) (k : A -> M B) c b c' :
  bind m k c = Ok b c' -> exists a c1, m c = Ok a c1 /\ k a c1 = Ok b c'.
Proof.
  unfold bind. destruct (m c) as [a c1 | e c1 |]; [ eauto | discriminate | discriminate ].
Qed.

Lemma bind_Ok {A B} (m : M A) (k : A -> M B) c a c1 :
  m c = Ok a c1 -> bind m k c = k a c1.
Proof. unfold bind. now intros ->. Qed.

Lemma get_stat_Ok c n o : stats c !! n = Some o -> get_stat n c = Ok o c.
Proof. unfold get_stat. now intros ->. Qed.

Lemma get_stat_inv c n o c' :
  get_stat n c = Ok o c' -> c' = c /\ stats c !! n = Some o.
Proof.
  unfold get_stat. destruct (stats c !! n); [ | discriminate ].
  intros [= -> ->]. auto.
Qed.

Lemma char_stats_Ok c n o :
  n ∈ stats_keys c -> stats c !! n = Some o -> char_stats n c = Ok o c.
Proof.
  intros Hk Ho. unfold char_stats. rewrite (bool_decide_true _ Hk).
  now apply get_stat_Ok.
Qed.

Lemma char_stats_inv c n o c' :
  char_stats n c = Ok o c' ->
  c' = c /\ n ∈ stats_keys c /\ stats c !! n = Some o.
Proof.
  unfold char_stats. case_bool_decide as Hk; [ | discriminate ].
  intros H. apply get_stat_inv in H as [-> Ho]. auto.
Qed.

Lemma frame_refl c : frame c c.
Proof. repeat split. Qed.

Lemma frame_trans c1 c2 c3 : frame c1 c2 -> frame c2 c3 -> frame c1 c3.
Proof.
  intros (?&?&?&?&?&?) (?&?&?&?&?&?). repeat split; congruence.
Qed.

Lemma frame_with_stats f c : frame c (with_stats f c).
Proof. repeat split. Qed.

(** Two stores with the same frame and the same stats are one store. *)
Lemma char_ext c c' :
  frame c c' -> stats c' = stats c -> c' = c.
Proof.
  destruct c, c'. cbn. intros (?&?&?&?&?&?) ?. cbn in *. congruence.
Qed.

Lemma with_stats_id f c : f (stats c) = stats c -> with_stats f c = c.
Proof. intros H. apply char_ext; [ apply frame_with_stats | exact H ]. Qed.

Lemma alter_id_at (f : StatObj -> StatObj) n (m : gmap string StatObj) o :
  m !! n = Some o -> f o = o -> alter f n m = m.
Proof.
  intros Ho Hf. apply map_eq. intros t. rewrite lookup_alter.
  case_decide as E; [ subst t; rewrite Ho; cbn; now rewrite Hf | reflexivity ].
Qed.

(** *** Evaluation reads the store and leaves it alone *)

Lemma eval_inv sc t c v c' :
  eval sc t c = Ok v c' ->
  c' = c /\ exists e, Py.parse t = Some e /\ eval_expr sc c e = Py.EVal v.
Proof.
  unfold eval. destruct (Py.parse t) as [e|]; [ | discriminate ].
  destruct (eval_expr sc c e) as [w|x] eqn:E; [ | discriminate ].
  intros [= -> ->]. eauto.
Qed.

Lemma eval_Ok sc t c e v :
  Py.parse t = Some e -> eval_expr sc c e = Py.EVal v -> eval sc t c = Ok v c.
Proof. unfold eval. now intros -> ->. Qed.

Lemma eval_stat_ref_frame c c' k f :
  stats_keys c' = stats_keys c ->
  outputs <$> stats c' !! k = outputs <$> stats c !! k ->
  eval_stat_ref c' k f = eval_stat_ref c k f.
Proof.
  intros Hk Ho. unfold eval_stat_ref. rewrite Hk.
  case_bool_decide; [ | reflexivity ].
  destruct (stats c' !! k) as [o'|], (stats c !! k) as [o|];
    cbn in Ho; try discriminate; [ | reflexivity ].
  injection Ho as Hv Hn. destruct f; cbn; congruence.
Qed.

(** An expression that reads nothing of its own stat evaluates alike in two
    stores that agree on the keys, on whether the stat is bound, and on the
    outputs of the stats the expression reads. *)
Lemma eval_expr_frame sc c c' e :
  stats_keys c' = stats_keys c ->
  (forall me, sc_self sc = Some me ->
              stat_char <$> stats c' !! me = stat_char <$> stats c !! me) ->
  reads_own e = false ->
  (forall k, k ∈ reads e ->
             outputs <$> stats c' !! k = outputs <$> stats c !! k) ->
  eval_expr sc c' e = eval_expr sc c e.
Proof.
  intros Hk Hme. induction e as [z|vs k f|f|op a IHa b IHb|a IHa|a IHa|a IHa
                                 |a IHa b IHb|a IHa b IHb];
    cbn [reads_own reads eval_expr]; intros Hown Hreads;
    try reflexivity; try discriminate.
  - assert (Hr : eval_stat_ref c' k f = eval_stat_ref c k f).
    { apply eval_stat_ref_frame; [ exact Hk | apply Hreads, list_elem_of_here ]. }
    destruct vs; [ | now rewrite Hr ].
    destruct (sc_self sc) as [me|] eqn:Es; [ | reflexivity ].
    specialize (Hme me eq_refl).
    destruct (stats c' !! me) as [o'|], (stats c !! me) as [o|];
      cbn in Hme; try discriminate; [ | reflexivity ].
    injection Hme as ->. now rewrite Hr.
  - apply orb_false_elim in Hown as [Ha Hb].
    rewrite IHa, IHb; auto; intros k Hin; apply Hreads, elem_of_app; auto.
  - rewrite IHa; auto.
  - rewrite IHa; auto.
  - rewrite IHa; auto.
  - apply orb_false_elim in Hown as [Ha Hb].
    rewrite IHa, IHb; auto; intros k Hin; apply Hreads, elem_of_app; auto.
  - apply orb_false_elim in Hown as [Ha Hb].
    rewrite IHa, IHb; auto; intros k Hin; apply Hreads, elem_of_app; auto.
Qed.


(** A NaN is not equal to itself. *)
Lemma py_eqb_nan v : Py.is_nan v = true -> Py.py_eqb v v = false.
Proof. destruct v as [|z|[s|s| |s m e]]; cbn; now intros H. Qed.

(** ** Folding the bonuses in *)

Lemma fold_left_add l : forall x, fold_left Z.add l x = x + foldr Z.add 0 l.
Proof.
  induction l as [|a l IH]; intros x; cbn; [ lia | rewrite IH; lia ].
Qed.

Lemma sum_list_foldr l : Stat.sum_list l = foldr Z.add 0 l.
Proof. unfold Stat.sum_list. now rewrite fold_left_add. Qed.

Lemma foldr_max_shift l x a :
  foldr Z.max (Z.max x a) l = Z.max a (foldr Z.max x l).
Proof. induction l as [|b l IH]; cbn; [ lia | rewrite IH; lia ]. Qed.

Lemma max_list_foldr l x : Stat.max_list x l = foldr Z.max x l.
Proof.
  unfold Stat.max_list. revert x.
  induction l as [|a l IH]; intros x; cbn; [ reflexivity | ].
  rewrite IH. apply foldr_max_shift.
Qed.

(** The fold of the code and the contribution of the specification. *)
Lemma contribution_spec stk vals :
  match Stat.contribution stk vals with
  | None => vals = []
  | Some x => vals <> [] /\ x = category_contribution stk vals
  end.
Proof.
  destruct vals as [|v vs]; cbn; [ reflexivity | ].
  split; [ discriminate | ].
  destruct stk; [ apply (sum_list_foldr (v :: vs)) | apply max_list_foldr ].
Qed.

Lemma active_values_acc names : forall acc c,
  foldM (fun acc n =>
           b <~ get_bonus n ;;
           ret (if bonus_active b then acc ++ [bonus_get_value b] else acc))
        names acc c
  = match active_vals (bonuses c) names with
    | Some vs => Ok (acc ++ vs) c
    | None => Raise Py.Dangling c
    end.
Proof.
  induction names as [|n r IH]; intros acc c; cbn.
  - unfold ret. now rewrite app_nil_r.
  - unfold bind at 1. unfold bind at 1. unfold get_bonus at 1.
    destruct (bonuses c !! n) as [b|]; cbn; [ | reflexivity ].
    rewrite IH. destruct (active_vals (bonuses c) r) as [vs|]; cbn;
      [ | reflexivity ].
    destruct (bonus_active b); [ now rewrite <- app_assoc | reflexivity ].
Qed.

Lemma active_values_eq names c :
  Stat.active_values names c
  = match active_vals (bonuses c) names with
    | Some vs => Ok vs c
    | None => Raise Py.Dangling c
    end.
Proof. unfold Stat.active_values. now rewrite active_values_acc. Qed.

Lemma alter_insert_at (f : StatObj -> StatObj) n (m : gmap string StatObj) o :
  m !! n = Some o -> alter f n m = <[n := f o]> m.
Proof.
  intros Ho. apply map_eq. intros t. rewrite lookup_alter, lookup_insert.
  case_decide as E; [ subst t; now rewrite Ho | reflexivity ].
Qed.

Lemma upd_stat_at n f c o :
  stats c !! n = Some o ->
  upd_stat n f c = Ok tt (with_stats (insert n (f o)) c).
Proof.
  intros Ho. unfold upd_stat, with_stats. now rewrite (alter_insert_at _ _ _ _ Ho).
Qed.

Lemma with_insert_insert n o1 o2 c :
  with_stats (insert n o2) (with_stats (insert n o1) c) = with_stats (insert n o2) c.
Proof. unfold with_stats; cbn. now rewrite insert_insert_eq. Qed.

Lemma with_insert_id n o c :
  stats c !! n = Some o -> with_stats (insert n o) c = c.
Proof. intros Ho. apply with_stats_id. now apply insert_id. Qed.

Lemma set_value_same o : set_value (stat_value o) o = o.
Proof. now destruct o. Qed.

Lemma set_normal_same o : set_normal (stat_normal o) o = o.
Proof. now destruct o. Qed.

Lemma add_categories_frame c c' cats v :
  frame c c' -> add_categories c' cats v = add_categories c cats v.
Proof.
  intros (_ & Hb & _ & _ & _ & Hs). revert v.
  induction cats as [|tb r IH]; intros v; cbn; [ reflexivity | ].
  rewrite Hb, Hs. destruct (active_vals (bonuses c) tb.2) as [vals|]; cbn;
    [ | reflexivity ].
  destruct (Stat.contribution (_stacks c tb.1) vals); [ | apply IH ].
  destruct (Py.py_add v (Py.VInt z)); [ apply IH | reflexivity ].
Qed.

Lemma add_category_eq self tb c o :
  stats c !! self = Some o ->
  Stat.add_category self tb c
  = match active_vals (bonuses c) tb.2 with
    | None => Raise Py.Dangling c
    | Some vals =>
        match Stat.contribution (_stacks c tb.1) vals with
        | None => Ok tt c
        | Some x =>
            match Py.py_add (stat_value o) (Py.VInt x) with
            | Py.EVal v => Ok tt (with_stats (insert self (set_value v o)) c)
            | Py.EExn e => Raise e c
            end
        end
    end.
Proof.
  intros Ho. unfold Stat.add_category, bind. rewrite active_values_eq.
  destruct (active_vals (bonuses c) tb.2) as [vals|]; [ | reflexivity ].
  unfold read.
  destruct (Stat.contribution (_stacks c tb.1) vals) as [x|]; [ | reflexivity ].
  rewrite (get_stat_Ok _ _ _ Ho). unfold lift_eres.
  destruct (Py.py_add (stat_value o) (Py.VInt x)) as [v1|e]; [ | reflexivity ].
  unfold ret. apply (upd_stat_at _ _ _ _ Ho).
Qed.

(** The loop of [calc] over the categories ends normally exactly when the
    fold has a value, and then that value is the [value] of the stat. *)
Lemma add_category_loop self cats : forall c o c',
  stats c !! self = Some o ->
  for_each cats (Stat.add_category self) c = Ok tt c'
  <-> exists v, add_categories c cats (stat_value o) = Some v
                /\ c' = with_stats (insert self (set_value v o)) c.
Proof.
  induction cats as [|tb r IH]; intros c o c' Ho; cbn [for_each add_categories].
  - unfold ret. split.
    + intros [= <-]. exists (stat_value o). split; [ reflexivity | ].
      rewrite set_value_same. symmetry. now apply with_insert_id.
    + intros (v & [= <-] & ->). rewrite set_value_same.
      now rewrite (with_insert_id _ _ _ Ho).
  - unfold bind at 1. rewrite (add_category_eq _ _ _ _ Ho).
    destruct (active_vals (bonuses c) tb.2) as [vals|]; cbn [mbind option_bind];
      [ | split; [ discriminate | intros (v & Hv & _); discriminate ] ].
    destruct (Stat.contribution (_stacks c tb.1) vals) as [x|].
    + destruct (Py.py_add (stat_value o) (Py.VInt x)) as [v1|e];
        [ | split; [ discriminate | intros (v & Hv & _); discriminate ] ].
      rewrite (IH _ (set_value v1 o));
        [ | cbn; apply lookup_insert_eq ].
      split; intros (v & Hv & ->); exists v;
        rewrite (add_categories_frame c _ r _ (frame_with_stats _ c)) in *;
        (split; [ exact Hv | ]); now rewrite with_insert_insert.
    + apply IH, Ho.
Qed.

Lemma contributions_cons c tb r :
  contributions c (tb :: r)
  = match active_of c tb.2 with
    | [] => contributions c r
    | vals => category_contribution (_stacks c tb.1) vals :: contributions c r
    end.
Proof. unfold contributions; cbn. now destruct (active_of c tb.2). Qed.

(** What the fold arrives at is the value it starts from with the
    contributions of the categories added one after the other. *)
Lemma add_categories_in_turn c cats : forall base v,
  add_categories c cats base = Some v ->
  added_in_turn base (contributions c cats) = Some v.
Proof.
  induction cats as [|tb r IH]; intros base v; cbn [add_categories];
    [ now intros [= <-] | ].
  rewrite contributions_cons. unfold active_of at 1.
  destruct (active_vals (bonuses c) tb.2) as [vals|]; cbn [mbind option_bind default];
    [ | discriminate ].
  pose proof (contribution_spec (_stacks c tb.1) vals) as Hc.
  destruct (Stat.contribution (_stacks c tb.1) vals) as [x|].
  - destruct Hc as [Hne ->]. destruct vals as [|a vals]; [ contradiction | ].
    unfold id. cbn [added_in_turn].
    destruct (Py.py_add base
                (Py.VInt (category_contribution (_stacks c tb.1) (a :: vals))))
      as [v'|e]; [ apply IH | discriminate ].
  - subst vals. apply IH.
Qed.

(** From an [int] the fold arrives at the [int] plus the sum of the
    contributions of the categories. *)
Lemma add_categories_total c cats : forall b v,
  add_categories c cats (Py.VInt b) = Some v ->
  v = Py.VInt (b + bonus_total c cats).
Proof.
  induction cats as [|tb r IH]; intros b v; cbn [add_categories].
  - intros [= <-]. unfold bonus_total; cbn. f_equal; lia.
  - unfold bonus_total; cbn [map foldr]. fold (bonus_total c r).
    unfold active_of at 1.
    destruct (active_vals (bonuses c) tb.2) as [vals|]; cbn [mbind option_bind default];
      [ | discriminate ].
    pose proof (contribution_spec (_stacks c tb.1) vals) as Hc.
    destruct (Stat.contribution (_stacks c tb.1) vals) as [x|].
    + destruct Hc as [_ ->].
      set (x := category_contribution (_stacks c tb.1) vals).
      cbn. intros Hv. apply IH in Hv. rewrite Hv. f_equal. lia.
    + subst vals. cbn [category_contribution]. intros Hv. apply IH in Hv.
      now rewrite Z.add_0_l.
Qed.

(** ** What [calc] computes *)

Ltac bind_inv H x c1 Hx :=
  apply bind_Ok_inv in H as (x & c1 & Hx & H);
  match type of x with
  | unit => destruct x
  | _ => idtac
  end.

(** [calc] up to its test, in closed form. *)
Lemma recompute_iff self c b c' :
  Stat.recompute self c = Ok b c'
  <-> exists me n base v,
      stats c !! self = Some me
      /\ stat_char me = true
      /\ eval (calc_scope self)
              (Py.replace ".value" ".normal" (stat_formula me)) c = Ok n c
      /\ eval (calc_scope self) (stat_formula me)
              (with_stats (insert self (set_normal n me)) c)
         = Ok base (with_stats (insert self (set_normal n me)) c)
      /\ add_categories c (stat_bonuses me) base = Some v
      /\ c' = with_stats (insert self (set_value v (set_normal n me))) c
      /\ b = negb (Py.py_eqb (stat_value me) v)
             || negb (Py.py_eqb (stat_normal me) n).
Proof.
  unfold calc_scope. split.
  - intros H. unfold Stat.recompute in H.
    bind_inv H me c0 Hg. apply get_stat_inv in Hg as [-> Ho].
    destruct (stat_char me) eqn:Hc; cbn [negb] in H; [ | discriminate ].
    bind_inv H n c0 Hn. pose proof (eval_inv _ _ _ _ _ Hn) as [-> _].
    bind_inv H u c0 Hu. rewrite (upd_stat_at _ _ _ _ Ho) in Hu.
    injection Hu as <-.
    bind_inv H base c0 Hb. pose proof (eval_inv _ _ _ _ _ Hb) as [-> _].
    bind_inv H u c0 Hu.
    rewrite (upd_stat_at _ _ _ (set_normal n me)) in Hu
      by (cbn; apply lookup_insert_eq).
    injection Hu as <-. rewrite with_insert_insert in H.
    bind_inv H u c0 Hl.
    apply (add_category_loop _ _ _ (set_value base (set_normal n me))) in Hl;
      [ | cbn; apply lookup_insert_eq ].
    destruct Hl as (v & Hv & ->). rewrite with_insert_insert in H.
    rewrite (add_categories_frame c) in Hv by apply frame_with_stats.
    bind_inv H me' c0 Hg. apply get_stat_inv in Hg as [-> Ho'].
    cbn in Ho'. rewrite lookup_insert_eq in Ho'. injection Ho' as <-.
    injection H as <- <-.
    exists me, n, base, v. repeat split; assumption.
  - intros (me & n & base & v & Ho & Hc & Hn & Hb & Hv & -> & ->).
    unfold Stat.recompute.
    rewrite (bind_Ok _ _ _ _ _ (get_stat_Ok _ _ _ Ho)). rewrite Hc. cbn [negb].
    rewrite (bind_Ok _ _ _ _ _ Hn).
    rewrite (bind_Ok _ _ _ _ _ (upd_stat_at _ _ _ _ Ho)).
    rewrite (bind_Ok _ _ _ _ _ Hb).
    erewrite bind_Ok;
      [ | apply (upd_stat_at _ _ _ (set_normal n me)); cbn; apply lookup_insert_eq ].
    rewrite with_insert_insert.
    erewrite bind_Ok.
    2:{ apply (add_category_loop _ _ _ (set_value base (set_normal n me)));
          [ cbn; apply lookup_insert_eq | ].
        exists v. split; [ | reflexivity ].
        rewrite (add_categories_frame c) by apply frame_with_stats. exact Hv. }
    rewrite with_insert_insert.
    erewrite bind_Ok; [ | apply get_stat_Ok; cbn; apply lookup_insert_eq ].
    reflexivity.
Qed.

Lemma same_shape_refl c : same_shape c c.
Proof. intros t. reflexivity. Qed.

Lemma same_shape_trans c1 c2 c3 :
  same_shape c1 c2 -> same_shape c2 c3 -> same_shape c1 c3.
Proof. intros H1 H2 t. now rewrite H2, H1. Qed.

Lemma recompute_frame self c b c' :
  Stat.recompute self c = Ok b c' ->
  frame c c' /\ same_shape c c'
  /\ forall t, t <> self -> stats c' !! t = stats c !! t.
Proof.
  intros H. apply recompute_iff in H
    as (me & n & base & v & Ho & _ & _ & _ & _ & -> & _).
  split; [ apply frame_with_stats | split ].
  - intros t. cbn. destruct (decide (t = self)) as [->|Hne].
    + rewrite lookup_insert_eq, Ho. reflexivity.
    + now rewrite lookup_insert_ne.
  - intros t Hne. cbn. now rewrite lookup_insert_ne.
Qed.

Lemma acyclic_lookup rank c t o u :
  acyclic rank c -> stats c !! t = Some o -> u ∈ stat_usedby o ->
  (rank t < rank u)%nat.
Proof. intros Ha Ho Hu. exact (Ha t o Ho u Hu). Qed.

Lemma acyclic_same_shape rank c c' :
  same_shape c c' -> acyclic rank c -> acyclic rank c'.
Proof.
  intros Hs Ha t o' Ho' u Hu. specialize (Hs t). rewrite Ho' in Hs.
  destruct (stats c !! t) as [o|] eqn:Ho; [ | discriminate ].
  apply (f_equal (fmap stat_usedby)) in Hs. cbn in Hs. injection Hs as Hs.
  apply (acyclic_lookup rank c t o u Ha Ho). now rewrite <- Hs.
Qed.

(** In a graph without cycle, [calc] of a stat writes outputs only, and only
    of the stat and of stats above it; the stat itself keeps what its own
    recomputation gave it. *)
Lemma calc_above rank : forall fuel self c c',
  acyclic rank c ->
  Stat.calc fuel self c = Ok tt c' ->
  frame c c' /\ same_shape c c'
  /\ exists b c1,
      Stat.recompute self c = Ok b c1
      /\ forall t, ~ (rank self < rank t)%nat -> stats c' !! t = stats c1 !! t.
Proof.
  induction fuel as [|fuel IH]; intros self c c' Hac H; [ discriminate | ].
  cbn [Stat.calc] in H. bind_inv H changed c1 Hr.
  destruct (recompute_frame _ _ _ _ Hr) as (Hf1 & Hs1 & Hne1).
  destruct changed.
  2:{ injection H as <-. split; [ exact Hf1 | split; [ exact Hs1 | eauto ] ]. }
  bind_inv H me1 c0 Hg. apply get_stat_inv in Hg as [-> Ho1].
  assert (Hac1 : acyclic rank c1) by (eapply acyclic_same_shape; eauto).
  assert (Hup : forall n, n ∈ elements (stat_usedby me1) ->
                          (rank self < rank n)%nat).
  { intros n Hn. apply elem_of_elements in Hn.
    exact (acyclic_lookup rank c1 self me1 n Hac1 Ho1 Hn). }
  revert H Hup Hac1. generalize (elements (stat_usedby me1)). clear Ho1 me1.
  assert (Hgoal : forall l c2,
             frame c c2 -> same_shape c c2 ->
             (forall t, ~ (rank self < rank t)%nat -> stats c2 !! t = stats c1 !! t) ->
             for_each l (fun n => _ <~ char_stats n ;; Stat.calc fuel n) c2 = Ok tt c' ->
             (forall n, n ∈ l -> (rank self < rank n)%nat) ->
             acyclic rank c2 ->
             frame c c' /\ same_shape c c'
             /\ exists b c1,
                 Stat.recompute self c = Ok b c1
                 /\ forall t, ~ (rank self < rank t)%nat ->
                              stats c' !! t = stats c1 !! t).
  { induction l as [|n l IHl]; intros c2 Hf2 Hs2 Hlow H Hup Hac2.
    - injection H as <-. split; [ exact Hf2 | split; [ exact Hs2 | eauto ] ].
    - cbn [for_each] in H. bind_inv H u c3 Hn.
      bind_inv Hn o c4 Hk. apply char_stats_inv in Hk as [-> _].
      destruct (IH _ _ _ Hac2 Hn) as (Hf3 & Hs3 & bn & cr & Hrn & Habove).
      destruct (recompute_frame _ _ _ _ Hrn) as (_ & _ & Hnen).
      assert (Hlt : (rank self < rank n)%nat) by (apply Hup, list_elem_of_here).
      apply (IHl c3).
      + eapply frame_trans; eauto.
      + eapply same_shape_trans; eauto.
      + intros t Ht. rewrite Habove by lia.
        rewrite Hnen by (intros ->; lia). now apply Hlow.
      + exact H.
      + intros m Hm. apply Hup. now apply list_elem_of_further.
      + eapply acyclic_same_shape; eauto. }
  intros l H Hup Hac1. apply (Hgoal l c1); auto.
Qed.

(** ** Bonus stacking *)

Example stacking_adds : category_contribution true [2; 3; 5] = 10.
Proof. reflexivity. Qed.

Example not_stacking_takes_max : category_contribution false [2; 3; 5] = 5.
Proof. reflexivity. Qed.

Example nothing_active_adds_nothing stk : category_contribution stk [] = 0.
Proof. reflexivity. Qed.

(** Inactive bonuses are not among the values of a category. *)
Lemma inactive_bonuses_skipped c names :
  (forall n b, n ∈ names -> bonuses c !! n = Some b -> bonus_active b = false) ->
  forall stk, category_contribution stk (active_of c names) = 0.
Proof.
  intros Hin stk. unfold active_of.
  assert (H : forall vs, active_vals (bonuses c) names = Some vs -> vs = []).
  { induction names as [|n r IH]; cbn; intros vs; [ now intros [= <-] | ].
    destruct (bonuses c !! n) as [b|] eqn:Hb; cbn; [ | discriminate ].
    destruct (active_vals (bonuses c) r) as [ws|]; cbn; [ | discriminate ].
    rewrite (Hin n b (list_elem_of_here _ _) Hb). intros [= <-].
    apply IH; [ | reflexivity ].
    intros m b' Hm. apply Hin. now apply list_elem_of_further. }
  destruct (active_vals (bonuses c) names) as [vs|]; cbn; [ | reflexivity ].
  now rewrite (H vs eq_refl).
Qed.

Example ac_with_armor_and_dodge :
  value_of with_armor_and_dodge "ac" = Some (Py.VInt 25)
  /\ normal_of with_armor_and_dodge "ac" = Some (Py.VInt 10)
  /\ (stat_bonuses <$> stats with_armor_and_dodge !! "ac")
     = Some [("dodge", ["boots"; "ring"; "feat"; "haste"]);
             ("armor", ["cloth"; "hide"; "plate"])]
  /\ active_of with_armor_and_dodge ["boots"; "ring"; "feat"; "haste"] = [2; 3; 5]
  /\ active_of with_armor_and_dodge ["cloth"; "hide"; "plate"] = [2; 3; 5].
Proof. split_and!; by_eval. Qed.

(** In a graph without cycle, a [calc] that returns leaves the stat with, as
    value, its formula evaluated in the store the call started from, plus the
    total of its bonus categories. *)
Lemma calc_folds_acyclic (rank : string -> nat) (fuel : nat) (self : string)
  (c c' : Character) :
  acyclic rank c ->
  Stat.calc fuel self c = Ok tt c' ->
  folds_bonuses self c c'.
Proof.
  intros Hac H.
  destruct (calc_above rank _ _ _ _ Hac H) as (_ & _ & b & c1 & Hr & Habove).
  apply recompute_iff in Hr
    as (me & n & base & v & Ho & _ & Hn & Hb & Hv & -> & _).
  exists me, n, base, v.
  split; [ exact Ho | ]. split; [ exact Hn | ]. split; [ exact Hb | ].
  split; [ now apply add_categories_in_turn | ].
  split; [ intros z ->; now apply add_categories_total | ].
  rewrite (Habove self) by lia. cbn. rewrite lookup_insert_eq. split; reflexivity.
Qed.

(** ** Recomputing twice *)

Lemma reads_only_parsed ok text e :
  reads_only ok text = true -> Py.parse text = Some e ->
  reads_own e = false /\ forall k, k ∈ reads e -> ok k = true.
Proof.
  unfold reads_only. intros H Hp. rewrite Hp in H.
  apply andb_prop in H as [Hown Hall].
  split; [ now apply negb_true_iff | ].
  intros k Hk. rewrite forallb_forall in Hall. apply Hall.
  now apply list_elem_of_In.
Qed.

(** An evaluation that went well goes as well, to the same value, in a
    store that agrees with the first on what the formula reads. *)
Lemma eval_transfer ok sc text c c' v :
  reads_only ok text = true ->
  stats_keys c' = stats_keys c ->
  (forall me, sc_self sc = Some me ->
              stat_char <$> stats c' !! me = stat_char <$> stats c !! me) ->
  (forall k, ok k = true ->
             outputs <$> stats c' !! k = outputs <$> stats c !! k) ->
  eval sc text c = Ok v c ->
  eval sc text c' = Ok v c'.
Proof.
  intros Hro Hk Hme Hout H. apply eval_inv in H as (_ & e & Hp & He).
  destruct (reads_only_parsed _ _ _ Hro Hp) as [Hown Hreads].
  apply (eval_Ok _ _ _ e); [ exact Hp | ].
  rewrite (eval_expr_frame sc c c' e); auto.
Qed.





(** ** Plugging in and out *)

Lemma resolve_var_mono name acc v n :
  n ∈ acc.2 -> n ∈ (resolve_var name acc v).2.
Proof.
  intros Hn. unfold resolve_var. cbv zeta.
  destruct (negb _); cbn; [ apply elem_of_union; auto | exact Hn ].
Qed.

Lemma resolve_vars_mono name vars : forall acc n,
  n ∈ acc.2 -> n ∈ (fold_left (resolve_var name) vars acc).2.
Proof.
  induction vars as [|v vars IH]; intros acc n Hn; cbn; [ exact Hn | ].
  apply IH. now apply resolve_var_mono.
Qed.

Lemma resolve_mono keys : forall acc n,
  n ∈ acc.2 -> n ∈ (resolve keys acc).2.
Proof.
  unfold resolve. induction keys as [|k keys IH]; intros acc n Hn;
    cbn [fold_left]; [ exact Hn | ].
  apply IH. now apply resolve_vars_mono.
Qed.

Lemma upd_stat_inserted n f o c :
  upd_stat n f (with_stats (insert n o) c)
  = Ok tt (with_stats (insert n (f o)) c).
Proof.
  rewrite (upd_stat_at _ _ _ o) by (cbn; apply lookup_insert_eq).
  now rewrite with_insert_insert.
Qed.

(** One alias of one stat, in a store where the stat being plugged in has
    the names matched so far as its [uses]. *)
Lemma plug_var_step self o0 name acc v r c :
  (forall n, n ∈ (resolve_var name acc v).2 -> resolvable c self n) ->
  exists r',
    Stat.plug_var self name acc v
      (with_stats (insert self (set_root r (set_uses acc.2 o0))) c)
    = Ok (resolve_var name acc v)
         (with_stats
            (insert self (set_root r' (set_uses (resolve_var name acc v).2 o0)))
            c).
Proof.
  unfold Stat.plug_var, resolve_var. cbv zeta.
  destruct (negb _) eqn:Hm; cbn [fst snd]; intros Hres.
  - exists false.
    rewrite (bind_Ok _ _ _ _ _ (upd_stat_inserted _ _ _ _)).
    rewrite (bind_Ok _ _ _ _ _ (upd_stat_inserted _ _ _ _)).
    destruct (Hres name) as [Hk Ho]; [ apply elem_of_union; left;
                                       now apply elem_of_singleton | ].
    assert (Hsome : is_Some (stats (with_stats
              (insert self (set_root false (set_uses ({[name]} ∪ acc.2) o0))) c)
              !! name)).
    { cbn. destruct (decide (name = self)) as [->|Hne].
      - rewrite lookup_insert_eq. eauto.
      - rewrite lookup_insert_ne by congruence. destruct Ho; [ congruence | auto ]. }
    destruct Hsome as [o Ho'].
    erewrite bind_Ok; [ | apply (char_stats_Ok _ _ o); [ exact Hk | exact Ho' ] ].
    reflexivity.
  - exists r. reflexivity.
Qed.

Lemma plug_var_inv self o0 name acc v r c acc' c' :
  Stat.plug_var self name acc v
    (with_stats (insert self (set_root r (set_uses acc.2 o0))) c)
  = Ok acc' c' ->
  (forall n, n ∈ acc.2 -> resolvable c self n) ->
  acc' = resolve_var name acc v
  /\ forall n, n ∈ acc'.2 -> resolvable c self n.
Proof.
  unfold Stat.plug_var, resolve_var. cbv zeta.
  destruct (negb _) eqn:Hm; cbn [fst snd]; intros H Hres.
  - bind_inv H u c1 Hu. rewrite upd_stat_inserted in Hu. injection Hu as <-.
    bind_inv H u c1 Hu. rewrite upd_stat_inserted in Hu. injection Hu as <-.
    bind_inv H o c1 Hk. apply char_stats_inv in Hk as (-> & Hk & Ho).
    injection H as <- <-. split; [ reflexivity | ].
    cbn [snd]. intros n Hn. apply elem_of_union in Hn as [Hn|Hn]; [ | auto ].
    apply elem_of_singleton in Hn as ->. split; [ exact Hk | ].
    cbn in Ho. destruct (decide (name = self)) as [->|Hne]; [ auto | ].
    rewrite lookup_insert_ne in Ho by congruence. eauto.
  - injection H as <- <-. auto.
Qed.

Lemma plug_vars_step self o0 name vars : forall acc r c,
  (forall n, n ∈ (fold_left (resolve_var name) vars acc).2 -> resolvable c self n) ->
  exists r',
    foldM (Stat.plug_var self name) vars acc
      (with_stats (insert self (set_root r (set_uses acc.2 o0))) c)
    = Ok (fold_left (resolve_var name) vars acc)
         (with_stats
            (insert self
               (set_root r' (set_uses (fold_left (resolve_var name) vars acc).2 o0)))
            c).
Proof.
  induction vars as [|v vars IH]; intros acc r c Hres; cbn [foldM fold_left].
  - exists r. reflexivity.
  - destruct (plug_var_step self o0 name acc v r c) as [r1 E1].
    { intros n Hn. apply Hres.
      now apply (resolve_vars_mono name vars (resolve_var name acc v)). }
    destruct (IH (resolve_var name acc v) r1 c Hres) as [r2 E2].
    exists r2. now rewrite (bind_Ok _ _ _ _ _ E1).
Qed.

Lemma plug_vars_inv self o0 name vars : forall acc r c acc' c',
  foldM (Stat.plug_var self name) vars acc
    (with_stats (insert self (set_root r (set_uses acc.2 o0))) c)
  = Ok acc' c' ->
  (forall n, n ∈ acc.2 -> resolvable c self n) ->
  acc' = fold_left (resolve_var name) vars acc
  /\ forall n, n ∈ acc'.2 -> resolvable c self n.
Proof.
  induction vars as [|v vars IH]; intros acc r c acc' c' H Hres;
    cbn [foldM fold_left] in *.
  - injection H as <- <-. auto.
  - bind_inv H acc1 c1 H1.
    pose proof (plug_var_inv _ _ _ _ _ _ _ _ _ H1 Hres) as [-> Hres1].
    destruct (plug_var_step self o0 name acc v r c Hres1) as [r1 E1].
    rewrite E1 in H1. injection H1 as <-.
    now apply (IH _ _ _ _ _ H).
Qed.

(** The loop of [plug] over the stats of the character ends normally
    exactly when every name it matches is a key that denotes a stat. *)
Lemma plug_loop_step self o0 keys : forall acc r c,
  (forall n, n ∈ (resolve keys acc).2 -> resolvable c self n) ->
  exists r',
    foldM (fun acc name => foldM (Stat.plug_var self name) Stat.VARS acc)
      keys acc (with_stats (insert self (set_root r (set_uses acc.2 o0))) c)
    = Ok (resolve keys acc)
         (with_stats
            (insert self (set_root r' (set_uses (resolve keys acc).2 o0))) c).
Proof.
  unfold resolve.
  induction keys as [|k keys IH]; intros acc r c Hres; cbn [foldM fold_left].
  - exists r. reflexivity.
  - destruct (plug_vars_step self o0 k Stat.VARS acc r c) as [r1 E1].
    { intros n Hn. apply Hres.
      now apply (resolve_mono keys (fold_left (resolve_var k) Stat.VARS acc)). }
    destruct (IH (fold_left (resolve_var k) Stat.VARS acc) r1 c Hres) as [r2 E2].
    exists r2. now rewrite (bind_Ok _ _ _ _ _ E1).
Qed.

Lemma plug_loop_inv self o0 keys : forall acc r c acc' c',
  foldM (fun acc name => foldM (Stat.plug_var self name) Stat.VARS acc)
    keys acc (with_stats (insert self (set_root r (set_uses acc.2 o0))) c)
  = Ok acc' c' ->
  (forall n, n ∈ acc.2 -> resolvable c self n) ->
  forall n, n ∈ (resolve keys acc).2 -> resolvable c self n.
Proof.
  unfold resolve.
  induction keys as [|k keys IH]; intros acc r c acc' c' H Hres;
    cbn [foldM fold_left] in *.
  - exact Hres.
  - bind_inv H acc1 c1 H1.
    pose proof (plug_vars_inv _ _ _ _ _ _ _ _ _ H1 Hres) as [-> Hres1].
    destruct (plug_vars_step self o0 k Stat.VARS acc r c Hres1) as [r1 E1].
    rewrite E1 in H1. injection H1 as <-.
    now apply (IH _ _ _ _ _ H).
Qed.

Lemma lookup_alter_all_notin f l : forall m t,
  t ∉ l -> alter_all f l m !! t = m !! t.
Proof.
  unfold alter_all. induction l as [|n l IH]; intros m t Ht; cbn [fold_left];
    [ reflexivity | ].
  apply not_elem_of_cons in Ht as [Hne Ht].
  rewrite IH by exact Ht. now apply lookup_alter_ne.
Qed.

Lemma lookup_alter_all_in f l : forall m t,
  NoDup l -> t ∈ l -> alter_all f l m !! t = f <$> m !! t.
Proof.
  induction l as [|n l IH]; intros m t Hnd Ht; [ now apply elem_of_nil in Ht | ].
  apply NoDup_cons in Hnd as [Hn Hnd].
  change (alter_all f (n :: l) m) with (alter_all f l (alter f n m)).
  destruct (decide (t = n)) as [->|Hne].
  - rewrite lookup_alter_all_notin by exact Hn. apply lookup_alter_eq.
  - apply elem_of_cons in Ht as [Ht|Ht]; [ contradiction | ].
    rewrite IH by assumption. now rewrite lookup_alter_ne.
Qed.

Lemma lookup_alter_all_is_Some f l m t :
  is_Some (alter_all f l m !! t) <-> is_Some (m !! t).
Proof.
  unfold alter_all. revert m.
  induction l as [|n l IH]; intros m; cbn [fold_left]; [ reflexivity | ].
  rewrite IH, lookup_alter. case_decide as E; [ subst | reflexivity ].
  apply fmap_is_Some.
Qed.

(** The loop of [plug] that enters the stat in the [usedby] of the stats it
    reads. *)
Lemma mark_loop self l : forall c,
  for_each l
    (fun n =>
       upd_stat n (fun o => set_usedby ({[self]} ∪ stat_usedby o) o) ;;;
       upd_stat n (set_leaf false)) c
  = Ok tt (with_stats (alter_all (marked self) l) c).
Proof.
  induction l as [|n l IH]; intros c; cbn [for_each]; [ now destruct c | ].
  unfold bind at 1. unfold bind at 1. unfold upd_stat at 1 2.
  rewrite IH. f_equal. unfold with_stats; cbn. f_equal.
  unfold alter_all; cbn [fold_left]. f_equal.
  exact (alter_alter_eq (set_leaf false)
           (fun o => set_usedby ({[self]} ∪ stat_usedby o) o) (stats c) n).
Qed.

Lemma unplug_use_eq self n c o :
  n ∈ stats_keys c -> stats c !! n = Some o -> self ∈ stat_usedby o ->
  Stat.unplug_use self n c = Ok tt (with_stats (alter (released self) n) c).
Proof.
  intros Hk Ho Hin. unfold Stat.unplug_use.
  rewrite (bind_Ok _ _ _ _ _ (char_stats_Ok _ _ _ Hk Ho)).
  rewrite (bool_decide_true _ Hin).
  rewrite (bind_Ok _ _ _ _ _ (upd_stat_at _ _ _ _ Ho)).
  erewrite bind_Ok; [ | apply get_stat_Ok; cbn; apply lookup_insert_eq ].
  unfold with_stats at 2. rewrite (alter_insert_at _ _ _ _ Ho).
  unfold released. cbv zeta. case_bool_decide as He.
  - rewrite upd_stat_inserted. reflexivity.
  - reflexivity.
Qed.

(** The loop of [unplug] that takes the stat out of the [usedby] of the
    stats it used. *)
Lemma release_loop self l : forall c,
  NoDup l ->
  (forall n, n ∈ l ->
             n ∈ stats_keys c
             /\ exists o, stats c !! n = Some o /\ self ∈ stat_usedby o) ->
  for_each l (Stat.unplug_use self) c
  = Ok tt (with_stats (alter_all (released self) l) c).
Proof.
  induction l as [|n l IH]; intros c Hnd Hall; cbn [for_each];
    [ now destruct c | ].
  apply NoDup_cons in Hnd as [Hn Hnd].
  destruct (Hall n (list_elem_of_here _ _)) as (Hk & o & Ho & Hin).
  rewrite (bind_Ok _ _ _ _ _ (unplug_use_eq _ _ _ _ Hk Ho Hin)).
  rewrite IH; [ reflexivity | exact Hnd | ].
  intros m Hm. destruct (Hall m (list_elem_of_further _ _ _ Hm)) as (Hk' & o' & Ho' & Hin').
  split; [ exact Hk' | ]. exists o'. split; [ | exact Hin' ].
  cbn. rewrite lookup_alter_ne; [ exact Ho' | ]. intros ->. contradiction.
Qed.

(** [calc] of a stat that no stat depends on is its recomputation. *)
Lemma calc_leaf fuel self c c1 o b :
  stats c !! self = Some o -> stat_usedby o = ∅ ->
  Stat.recompute self c = Ok b c1 ->
  Stat.calc (S fuel) self c = Ok tt c1.
Proof.
  intros Ho Hu Hr. cbn [Stat.calc]. rewrite (bind_Ok _ _ _ _ _ Hr).
  destruct b; [ | reflexivity ].
  apply recompute_iff in Hr as (me & n & base & v & Ho' & _ & _ & _ & _ & -> & _).
  rewrite Ho in Ho'. injection Ho' as <-.
  erewrite bind_Ok; [ | apply get_stat_Ok; cbn; apply lookup_insert_eq ].
  cbn [stat_usedby set_value set_normal]. rewrite Hu, elements_empty.
  reflexivity.
Qed.

Lemma calc_leaf_inv fuel self c c1 o :
  stats c !! self = Some o -> stat_usedby o = ∅ ->
  Stat.calc fuel self c = Ok tt c1 ->
  exists f b, fuel = S f /\ Stat.recompute self c = Ok b c1.
Proof.
  intros Ho Hu H. destruct fuel as [|f]; [ discriminate | ].
  cbn [Stat.calc] in H. bind_inv H b c0 Hr. exists f, b.
  split; [ reflexivity | ]. destruct b; [ | now injection H as <- ].
  pose proof Hr as Hr'.
  apply recompute_iff in Hr' as (me & n & base & v & Ho' & _ & _ & _ & _ & -> & _).
  rewrite Ho in Ho'. injection Ho' as <-.
  bind_inv H me1 c2 Hg. apply get_stat_inv in Hg as [-> Hg].
  cbn in Hg. rewrite lookup_insert_eq in Hg. injection Hg as <-.
  cbn [stat_usedby set_value set_normal] in H. rewrite Hu, elements_empty in H.
  now injection H as <-.
Qed.

Lemma detached_uses_form me :
  stat_uses me = ∅ ->
  set_char true me = set_root (stat_root me) (set_uses ∅ (set_char true me)).
Proof. destruct me; cbn; intros ->; reflexivity. Qed.

Lemma alter_all_after_insert f self oA oC l (m : gmap string StatObj) :
  NoDup l -> self ∉ l ->
  <[self := oC]> (alter_all f l (<[self := oA]> m))
  = <[self := oC]> (alter_all f l m).
Proof.
  intros Hnd Hself. apply map_eq. intros t.
  destruct (decide (t = self)) as [->|Hne]; [ now rewrite !lookup_insert_eq | ].
  rewrite !lookup_insert_ne by congruence.
  destruct (decide (t ∈ l)) as [Hin|Hout].
  - rewrite !lookup_alter_all_in by assumption.
    now rewrite lookup_insert_ne by congruence.
  - rewrite !lookup_alter_all_notin by assumption.
    now rewrite lookup_insert_ne by congruence.
Qed.

(** [plug], once its loops have run: it evaluates the resolved formula in
    the store in which the stat is bound and has its [uses], and on success
    enters the stat in the [usedby] of the stats it reads, stores the
    resolved formula and calls [calc]. *)
Lemma plug_eq fuel self c me :
  stats c !! self = Some me ->
  stat_uses me = ∅ ->
  (forall n, n ∈ resolved_names c me -> resolvable c self n) ->
  self ∉ resolved_names c me ->
  exists r,
    Stat.plug fuel self c
    = match eval (plug_scope self) (resolved_formula c me)
              (with_stats
                 (insert self
                    (set_root r (set_uses (resolved_names c me) (set_char true me))))
                 c) with
      | Ok _ _ =>
          Stat.calc fuel self
            (with_stats
               (insert self
                  (set_formula_f (resolved_formula c me)
                     (set_root r
                        (set_uses (resolved_names c me) (set_char true me)))))
               (with_stats
                  (alter_all (marked self) (elements (resolved_names c me))) c))
      | Raise _ _ =>
          Raise Py.FormulaError
            (with_stats
               (insert self
                  (set_root r (set_uses (resolved_names c me) (set_char true me))))
               c)
      | OutOfFuel => OutOfFuel
      end.
Proof.
  intros Ho Hu Hres Hself.
  destruct (plug_loop_step self (set_char true me) (stats_keys c)
              (stat_formula me, ∅) (stat_root me) c Hres) as [r E].
  cbn [fst snd] in E. rewrite <- (detached_uses_form me Hu) in E.
  exists r. unfold Stat.plug.
  rewrite (bind_Ok _ _ _ _ _ (get_stat_Ok _ _ _ Ho)).
  rewrite (bind_Ok _ _ _ _ _ (upd_stat_at _ _ _ _ Ho)).
  erewrite bind_Ok; [ | apply get_stat_Ok; cbn; apply lookup_insert_eq ].
  unfold bind at 1, read at 1.
  change (stats_keys (with_stats (insert self (set_char true me)) c))
    with (stats_keys c).
  change (stat_formula (set_char true me)) with (stat_formula me).
  rewrite (bind_Ok _ _ _ _ _ E).
  fold (resolved_names c me). fold (resolved_formula c me).
  unfold bind at 1, Stat.try_eval at 1, plug_scope, eval.
  destruct (Py.parse (resolved_formula c me)) as [e|]; [ | reflexivity ].
  destruct (eval_expr _ _ e) as [x|x]; [ | reflexivity ].
  rewrite (bind_Ok _ _ _ _ _ (mark_loop _ _ _)).
  erewrite bind_Ok.
  2:{ apply upd_stat_at. cbn.
      rewrite lookup_alter_all_notin
        by (intros Hin; apply elem_of_elements in Hin; contradiction).
      apply lookup_insert_eq. }
  f_equal. unfold with_stats; cbn. f_equal.
  apply alter_all_after_insert; [ apply NoDup_elements | ].
  intros Hin. now apply elem_of_elements in Hin.
Qed.

Ltac fields :=
  cbn [stat_formula stat_original stat_text stat_bonuses stat_protected
       stat_uses stat_usedby stat_normal stat_value stat_root stat_leaf
       stat_char set_formula_f set_original set_bonuses set_uses set_usedby
       set_normal set_value set_root set_leaf set_char].

Ltac chars :=
  cbn [stats stats_keys bonuses effects BONUS_TYPES BONUS_PERM _stacks
       with_stats].

(** A [plug] that returns has found a stat behind every alias it matched. *)
Lemma plug_ok_resolvable fuel self c me c1 :
  stats c !! self = Some me ->
  stat_uses me = ∅ ->
  Stat.plug fuel self c = Ok tt c1 ->
  forall n, n ∈ resolved_names c me -> resolvable c self n.
Proof.
  intros Ho Hu H. unfold Stat.plug in H.
  bind_inv H o c0 Hg. apply get_stat_inv in Hg as [-> _].
  bind_inv H u c0 Hup. rewrite (upd_stat_at _ _ _ _ Ho) in Hup.
  injection Hup as <-.
  bind_inv H me0 c0 Hg. apply get_stat_inv in Hg as [-> Hg].
  cbn in Hg. rewrite lookup_insert_eq in Hg. injection Hg as <-.
  bind_inv H keys c0 Hk. injection Hk as <- <-.
  bind_inv H acc c0 Hl. clear H.
  rewrite (detached_uses_form me Hu) in Hl.
  apply (plug_loop_inv self (set_char true me) _ (stat_formula me, ∅)
           (stat_root me) c acc c0 Hl).
  intros n Hn. now apply elem_of_empty in Hn.
Qed.

Lemma outputs_alter_all f l : forall (m : gmap string StatObj) t,
  (forall o, outputs (f o) = outputs o) ->
  outputs <$> alter_all f l m !! t = outputs <$> m !! t.
Proof.
  unfold alter_all.
  induction l as [|n l IH]; intros m t Hf; cbn [fold_left]; [ reflexivity | ].
  rewrite IH by exact Hf. rewrite lookup_alter.
  case_decide as E; [ subst t | reflexivity ].
  destruct (m !! n) as [o|]; cbn; [ now rewrite Hf | reflexivity ].
Qed.

Lemma outputs_marked self o : outputs (marked self o) = outputs o.
Proof. reflexivity. Qed.

Lemma outputs_released self o : outputs (released self o) = outputs o.
Proof. unfold released. cbv zeta. now case_bool_decide. Qed.

Lemma released_usedby self o :
  stat_usedby (released self o) = stat_usedby o ∖ {[self]}.
Proof. unfold released. cbv zeta. now case_bool_decide. Qed.

Lemma released_leaf self o :
  stat_usedby (released self o) = ∅ -> stat_leaf (released self o) = true.
Proof.
  unfold released. cbv zeta. case_bool_decide as E; [ reflexivity | ].
  intros H. contradiction.
Qed.

(** [unplug] without force or recursion of a stat that no stat depends on,
    where every stat it uses has it in its [usedby]. *)
Lemma unplug_eq self c o1 k :
  stat_char o1 = true ->
  stat_usedby o1 = ∅ ->
  self ∉ stat_uses o1 ->
  (forall n, n ∈ stat_uses o1 ->
             n ∈ stats_keys c
             /\ exists o, stats c !! n = Some o /\ self ∈ stat_usedby o) ->
  Stat.unplug (S k) self false false (with_stats (insert self o1) c)
  = Ok tt (with_stats (insert self (detached o1))
             (with_stats (alter_all (released self) (elements (stat_uses o1))) c)).
Proof.
  intros Hc Hu Hself Hall. cbn [Stat.unplug].
  erewrite bind_Ok; [ | apply get_stat_Ok; cbn; apply lookup_insert_eq ].
  rewrite Hc, Hu. cbn [negb].
  rewrite (bool_decide_true (∅ = ∅)) by reflexivity. cbn [negb andb].
  unfold bind at 1, ret at 1.
  rewrite (bind_Ok _ _ _ _ _ (upd_stat_inserted _ _ _ _)).
  rewrite (bind_Ok _ _ _ _ _ (upd_stat_inserted _ _ _ _)).
  erewrite bind_Ok; [ | apply get_stat_Ok; cbn; apply lookup_insert_eq ].
  fields.
  erewrite bind_Ok.
  2:{ apply release_loop; [ apply NoDup_elements | ].
      intros n Hn. apply elem_of_elements in Hn.
      destruct (Hall n Hn) as (Hk & o & Ho & Hin).
      split; [ exact Hk | ]. exists o. split; [ | exact Hin ].
      cbn. rewrite lookup_insert_ne; [ exact Ho | ]. intros ->. contradiction. }
  assert (Hnot : self ∉ elements (stat_uses o1)).
  { intros Hin. now apply elem_of_elements in Hin. }
  erewrite bind_Ok.
  2:{ apply upd_stat_at. cbn. rewrite lookup_alter_all_notin by exact Hnot.
      apply lookup_insert_eq. }
  rewrite (bind_Ok _ _ _ _ _ (upd_stat_inserted _ _ _ _)).
  rewrite (bind_Ok _ _ _ _ _ (upd_stat_inserted _ _ _ _)).
  rewrite upd_stat_inserted. f_equal.
  unfold with_stats; cbn. f_equal.
  apply alter_all_after_insert; [ apply NoDup_elements | exact Hnot ].
Qed.

(** C5, as stated, fails: a stat that was plugged in before, and whose new
    formula reads its own value, is plugged in, unplugged, and cannot be
    plugged in again. *)
Lemma replug_fails_on_own_value :
  exists c1 c2 c3,
    Stat.plug 1 "x" (own_value "1//(@value-1)") = Ok tt c1
    /\ Stat.unplug 1 "x" false false c1 = Ok tt c2
    /\ (forall fuel, Stat.plug fuel "x" c2 = Raise Py.FormulaError c3).
Proof.
  exists (run (Stat.plug 1 "x") (own_value "1//(@value-1)")).
  exists (run (Stat.unplug 1 "x" false false)
            (run (Stat.plug 1 "x") (own_value "1//(@value-1)"))).
  exists (run (Stat.plug 1 "x")
            (run (Stat.unplug 1 "x" false false)
               (run (Stat.plug 1 "x") (own_value "1//(@value-1)")))).
  split_and!; by_eval.
Qed.

(** C5, amended.  Take a detached stat (no [uses], no [usedby], its formula
    the original one) whose formula has no alias of the stat itself, and a
    [plug] of it that returns.  Then [unplug] returns and leaves the stat
    with its original formula, without [uses] and [usedby], root and leaf
    and unbound; every stat it used no longer has it in its [usedby] and is
    a leaf again when that set is empty.  If moreover the resolved formula
    reads no output of the stat itself, [plug] returns again. *)
Theorem plug_unplug_inverse (fuel : nat) (self : string) (c c1 : Character)
  (me me1 : StatObj) :
  stats c !! self = Some me ->
  stat_uses me = ∅ ->
  stat_usedby me = ∅ ->
  stat_formula me = stat_original me ->
  self ∉ resolved_names c me ->
  Stat.plug fuel self c = Ok tt c1 ->
  stats c1 !! self = Some me1 ->
  unplug_restores fuel self c1 me me1.
Proof.
  intros Ho Hu Hub Hfo Hself Hplug Ho1. unfold unplug_restores.
  pose proof (plug_ok_resolvable _ _ _ _ _ Ho Hu Hplug) as Hres.
  destruct (plug_eq fuel self c me Ho Hu Hres Hself) as [r Eq].
  rewrite Eq in Hplug. clear Eq.
  set (U := resolved_names c me) in *. set (s := resolved_formula c me) in *.
  set (oA := set_root r (set_uses U (set_char true me))) in *.
  set (cA := with_stats (insert self oA) c) in *.
  destruct (eval (plug_scope self) s cA) as [x cx| |] eqn:Hev;
    [ | discriminate | discriminate ].
  pose proof (eval_inv _ _ _ _ _ Hev) as [-> _].
  set (oC := set_formula_f s oA) in *.
  set (cM := with_stats (alter_all (marked self) (elements U)) c) in *.
  set (cC := with_stats (insert self oC) cM) in *.
  destruct (calc_leaf_inv fuel self cC c1 oC) as (f & b & -> & Hr);
    [ cbn; apply lookup_insert_eq | exact Hub | exact Hplug | ].
  clear Hplug.
  apply recompute_iff in Hr
    as (me' & n & base & v & Ho' & _ & Hn & Hb & Hv & -> & _).
  cbn in Ho'. rewrite lookup_insert_eq in Ho'. injection Ho' as <-.
  cbn in Ho1. rewrite lookup_insert_eq in Ho1. injection Ho1 as <-.
  set (o1 := set_value v (set_normal n oC)) in *.
  assert (HinU : forall k, k ∈ U ->
            k <> self /\ k ∈ stats_keys c /\ exists o, stats c !! k = Some o).
  { intros k Hk. destruct (Hres k Hk) as [Hkey Hor].
    assert (Hne : k <> self) by (intros ->; contradiction).
    split; [ exact Hne | split; [ exact Hkey | ] ].
    destruct Hor as [?|[o Hsome]]; [ contradiction | eauto ]. }
  assert (HcC : forall k, k ∈ U ->
            exists o, stats c !! k = Some o
                      /\ stats cC !! k = Some (marked self o)).
  { intros k Hk. destruct (HinU k Hk) as (Hne & _ & o & Hok).
    exists o. split; [ exact Hok | ]. cbn.
    rewrite lookup_insert_ne by congruence.
    rewrite lookup_alter_all_in;
      [ now rewrite Hok | apply NoDup_elements | now apply elem_of_elements ]. }
  assert (Hun : forall k,
            Stat.unplug (S k) self false false (with_stats (insert self o1) cC)
            = Ok tt (with_stats (insert self (detached o1))
                       (with_stats (alter_all (released self) (elements U)) cC))).
  { intros k. apply (unplug_eq self cC o1 k);
      [ reflexivity | exact Hub | exact Hself | ].
    intros m Hm. destruct (HinU m Hm) as (_ & Hkey & _).
    destruct (HcC m Hm) as (o & _ & HoC).
    split; [ exact Hkey | ]. exists (marked self o). split; [ exact HoC | ].
    cbn. apply elem_of_union. left. now apply elem_of_singleton. }
  set (cE := with_stats (alter_all (released self) (elements U)) cC) in *.
  set (c2 := with_stats (insert self (detached o1)) cE) in *.
  exists c2, (detached o1).
  split; [ exact Hun | ].
  split; [ cbn; apply lookup_insert_eq | ].
  do 7 (split; [ reflexivity | ]).
  split.
  { intros m Hm. destruct (HinU m Hm) as (Hne & _ & _).
    destruct (HcC m Hm) as (o & _ & HoC).
    exists (released self (marked self o)). split; [ | split ].
    - unfold c2, cE. cbn [stats with_stats].
      rewrite lookup_insert_ne by congruence.
      rewrite lookup_alter_all_in;
        [ | apply NoDup_elements | now apply elem_of_elements ].
      now rewrite HoC.
    - rewrite released_usedby. intros Hin.
      apply elem_of_difference in Hin as [_ Hin]. apply Hin.
      now apply elem_of_singleton.
    - apply released_leaf. }
  intros Hro. apply andb_prop in Hro as [HroV HroN].
  change (stat_formula o1) with s in HroV, HroN.
  (* the second plug *)
  assert (Hout2 : forall k, k <> self ->
            outputs <$> stats c2 !! k = outputs <$> stats c !! k).
  { intros k Hne. cbn. rewrite lookup_insert_ne by congruence.
    rewrite outputs_alter_all by apply outputs_released.
    rewrite lookup_insert_ne by congruence.
    apply outputs_alter_all, outputs_marked. }
  assert (Hsome2 : forall k, k <> self ->
            is_Some (stats c2 !! k) <-> is_Some (stats c !! k)).
  { intros k Hne. cbn. rewrite lookup_insert_ne by congruence.
    rewrite lookup_alter_all_is_Some.
    rewrite lookup_insert_ne by congruence.
    apply lookup_alter_all_is_Some. }
  assert (Ho2 : stats c2 !! self = Some (detached o1))
    by (cbn; apply lookup_insert_eq).
  assert (HU2 : resolved_names c2 (detached o1) = U).
  { unfold U, resolved_names, c2, cE, cC, cM, detached, o1, oC, oA.
    chars. fields. now rewrite <- Hfo. }
  assert (Hs2 : resolved_formula c2 (detached o1) = s).
  { unfold s, resolved_formula, c2, cE, cC, cM, detached, o1, oC, oA.
    chars. fields. now rewrite <- Hfo. }
  destruct (plug_eq (S f) self c2 (detached o1) Ho2 eq_refl) as [r2 Eq2].
  { intros k Hk. rewrite HU2 in Hk. destruct (HinU k Hk) as (Hne & Hkey & Hsome).
    split; [ exact Hkey | right ]. apply Hsome2; [ exact Hne | ].
    destruct Hsome as [o ->]. eauto. }
  { now rewrite HU2. }
  rewrite HU2, Hs2 in Eq2. rewrite Eq2. clear Eq2.
  set (oA2 := set_root r2 (set_uses U (set_char true (detached o1)))) in *.
  assert (Hev2 : eval (plug_scope self) s (with_stats (insert self oA2) c2)
                 = Ok x (with_stats (insert self oA2) c2)).
  { apply (eval_transfer (other_than self) _ _ cA); [ exact HroV | reflexivity | | | exact Hev ].
    - intros y [= <-]. cbn. now rewrite !lookup_insert_eq.
    - intros k Hk. apply negb_true_iff, String.eqb_neq in Hk.
      unfold cA. cbn [stats with_stats].
      rewrite !lookup_insert_ne by congruence. now apply Hout2. }
  rewrite Hev2.
  set (oC2 := set_formula_f s oA2) in *.
  set (cM2 := with_stats (alter_all (marked self) (elements U)) c2) in *.
  set (cC2 := with_stats (insert self oC2) cM2) in *.
  assert (HoutC : forall k, k <> self ->
            outputs <$> stats cC2 !! k = outputs <$> stats cC !! k).
  { intros k Hne. unfold cC2, cM2, cC, cM. cbn [stats with_stats].
    rewrite !lookup_insert_ne by congruence.
    rewrite !outputs_alter_all by apply outputs_marked.
    now apply Hout2. }
  eexists. eapply (calc_leaf f self cC2 _ oC2);
    [ cbn; apply lookup_insert_eq | reflexivity | ].
  apply recompute_iff. exists oC2, n, base, v.
  split; [ cbn; apply lookup_insert_eq | ].
  split; [ reflexivity | ].
  split; [ | split; [ | split; [ | split; reflexivity ] ] ].
  - apply (eval_transfer (other_than self) _ _ cC); [ exact HroN | reflexivity | | | exact Hn ].
    + intros y [= <-]. cbn. now rewrite !lookup_insert_eq.
    + intros k Hk. apply negb_true_iff, String.eqb_neq in Hk. now apply HoutC.
  - apply (eval_transfer (other_than self) _ _
             (with_stats (insert self (set_normal n oC)) cC));
      [ exact HroV | reflexivity | | | exact Hb ].
    + intros y [= <-]. cbn. now rewrite !lookup_insert_eq.
    + intros k Hk. apply negb_true_iff, String.eqb_neq in Hk.
      cbn [stats with_stats]. rewrite !lookup_insert_ne by congruence.
      now apply HoutC.
  - rewrite (add_categories_frame cC cC2) by (repeat split). exact Hv.
Qed.

Lemma plug_unplug_inverse_witness :
  unplug_restores 1 "dex" (run (Stat.plug 1 "dex") before_dex_floor)
    (Stat.init "dex" "($dexterity-10)//2" "")
    (default (Stat.init "dex" "" "")
       (stats (run (Stat.plug 1 "dex") before_dex_floor) !! "dex")).
Proof.
  apply (plug_unplug_inverse 1 "dex" before_dex_floor).
  - vm_compute. reflexivity.
  - reflexivity.
  - reflexivity.
  - reflexivity.
  - apply (bool_decide_unpack _). vm_compute. exact I.
  - vm_compute. reflexivity.
  - vm_compute. reflexivity.
Defined.

Example dex_reads_no_output_of_its_own :
  formula_reads_only (other_than "dex")
    (Stat.expand_value "dexterity" +:+ "-10")
  = true
  /\ (stat_formula <$> stats (run (Stat.plug 1 "dex") before_dex_floor) !! "dex")
     = Some ("(" +:+ Stat.expand_value "dexterity" +:+ "-10)//2")
  /\ formula_reads_only (other_than "dex")
       ("(" +:+ Stat.expand_value "dexterity" +:+ "-10)//2")
     = true.
Proof. split_and!; by_eval. Qed.

(** ** [calc] in any graph *)

Lemma last_recomputed_later t c c2 c3 :
  frame c c2 -> same_shape c c2 ->
  last_recomputed t c c2 ->
  stats c3 !! t = stats c2 !! t \/ last_recomputed t c2 c3 ->
  last_recomputed t c c3.
Proof.
  intros Hf Hs Hlast [Heq|(cm & b & cm' & Hfm & Hsm & Hr & Hl)].
  - destruct Hlast as (cm & b & cm' & Hfm & Hsm & Hr & Hl).
    exists cm, b, cm'.
    split; [ exact Hfm | split; [ exact Hsm | split; [ exact Hr | ] ] ].
    now rewrite Heq.
  - exists cm, b, cm'.
    split; [ eapply frame_trans; eauto | ].
    split; [ eapply same_shape_trans; eauto | auto ].
Qed.

Lemma touched_later t c c2 c3 :
  frame c c2 -> same_shape c c2 ->
  stats c2 !! t = stats c !! t \/ last_recomputed t c c2 ->
  stats c3 !! t = stats c2 !! t \/ last_recomputed t c2 c3 ->
  stats c3 !! t = stats c !! t \/ last_recomputed t c c3.
Proof.
  intros Hf Hs [Heq|Hlast] H3.
  - destruct H3 as [Heq3|(cm & b & cm' & Hfm & Hsm & Hr & Hl)].
    + left. now rewrite Heq3.
    + right. exists cm, b, cm'.
      split; [ eapply frame_trans; eauto | ].
      split; [ eapply same_shape_trans; eauto | auto ].
  - right. eapply last_recomputed_later; eauto.
Qed.

(** Every stat a [calc] that returns has written has the outputs of a
    recomputation of that stat, and the stat [calc] was called on is one of
    them. *)
Lemma calc_touches : forall fuel self c c',
  Stat.calc fuel self c = Ok tt c' ->
  frame c c' /\ same_shape c c'
  /\ (forall t, stats c' !! t = stats c !! t \/ last_recomputed t c c')
  /\ last_recomputed self c c'.
Proof.
  induction fuel as [|fuel IH]; intros self c c' H; [ discriminate | ].
  cbn [Stat.calc] in H. bind_inv H changed c1 Hr.
  destruct (recompute_frame _ _ _ _ Hr) as (Hf1 & Hs1 & Hne1).
  assert (Hself1 : last_recomputed self c c1).
  { exists c, changed, c1. split; [ apply frame_refl | ].
    split; [ apply same_shape_refl | auto ]. }
  assert (Hall1 : forall t, stats c1 !! t = stats c !! t \/ last_recomputed t c c1).
  { intros t. destruct (decide (t = self)) as [->|Hne]; [ now right | left; auto ]. }
  destruct changed; [ | injection H as <-; auto ].
  bind_inv H me1 c0 Hg. apply get_stat_inv in Hg as [-> _].
  revert H. generalize (elements (stat_usedby me1)). clear me1 Hr Hne1.
  intros l. revert c1 Hf1 Hs1 Hself1 Hall1.
  induction l as [|n l IHl]; intros c2 Hf2 Hs2 Hself2 Hall2 H.
  - injection H as <-. auto.
  - cbn [for_each] in H. bind_inv H u c3 Hn.
    bind_inv Hn o c4 Hk. apply char_stats_inv in Hk as [-> _].
    destruct (IH _ _ _ Hn) as (Hf3 & Hs3 & Hall3 & _).
    apply (IHl c3).
    + eapply frame_trans; eauto.
    + eapply same_shape_trans; eauto.
    + eapply last_recomputed_later; eauto.
    + intros t. eapply touched_later; eauto.
    + exact H.
Qed.

(** C1.  A [calc] that returns leaves the stat with, as value, its formula
    evaluated before bonuses plus the total over its bonus categories of:
    the sum of the values of the active bonuses where the category stacks,
    the largest of them where it does not, and nothing where none is active.
    The formula is evaluated in the store [cm] of the last recomputation of
    the stat, which differs from the store [calc] started from in outputs of
    stats at most; in a graph without cycle it is that store. *)
Theorem calc_folds_bonuses (fuel : nat) (self : string) (c c' : Character) :
  Stat.calc fuel self c = Ok tt c' ->
  (exists cm, frame c cm /\ same_shape c cm /\ folds_bonuses self cm c')
  /\ (forall rank, acyclic rank c -> folds_bonuses self c c').
Proof.
  intros H. split.
  - destruct (calc_touches _ _ _ _ H)
      as (_ & _ & _ & cm & b & cm' & Hf & Hs & Hr & Hl).
    exists cm. split; [ exact Hf | split; [ exact Hs | ] ].
    apply recompute_iff in Hr
      as (me & n & base & v & Ho & _ & Hn & Hb & Hv & -> & _).
    exists me, n, base, v.
    split; [ exact Ho | ]. split; [ exact Hn | ]. split; [ exact Hb | ].
    split; [ now apply add_categories_in_turn | ].
    split; [ intros z ->; now apply add_categories_total | ].
    rewrite Hl. cbn. rewrite lookup_insert_eq. split; reflexivity.
  - intros rank Hac. now apply (calc_folds_acyclic rank fuel).
Qed.

Lemma calc_folds_bonuses_witness :
  (exists cm, frame with_armor_and_dodge cm
              /\ same_shape with_armor_and_dodge cm
              /\ folds_bonuses "ac" cm with_armor_and_dodge)
  /\ (forall rank, acyclic rank with_armor_and_dodge ->
                   folds_bonuses "ac" with_armor_and_dodge with_armor_and_dodge).
Proof.
  apply (calc_folds_bonuses 1). vm_compute. reflexivity.
Defined.

Example armor_and_dodge_is_acyclic :
  acyclic (fun _ => 0%nat) with_armor_and_dodge.
Proof. apply (bool_decide_unpack _). vm_compute. exact I. Qed.

(** Why the stat is taken detached and without alias of itself: after a
    [plug] of a stat that has a dependant, or whose formula names the stat
    itself, [unplug] raises DependencyError. *)
Example unplug_fails_after_plug_of_used_stat :
  exists c1,
    Stat.plug 1 "dexterity" with_dex = Ok tt c1
    /\ Stat.unplug 1 "dexterity" false false c1
       = Raise (Py.DependencyError ["dex"]) c1.
Proof.
  exists (run (Stat.plug 1 "dexterity") with_dex). split_and!; by_eval.
Qed.

Example unplug_fails_on_own_alias :
  exists c1,
    Stat.plug 1 "x" own_alias = Ok tt c1
    /\ uses_of c1 "x" = Some ["x"]
    /\ Stat.unplug 1 "x" false false c1 = Raise (Py.DependencyError ["x"]) c1.
Proof.
  exists (run (Stat.plug 1 "x") own_alias). split_and!; by_eval.
Qed.

(** ** What holds in general around the failing runs *)

(** Where the resolved formula does not evaluate, [plug] raises FormulaError
    in a store that differs from the one it started from in the stat itself
    only: the stat is bound and has the matched names as [uses]. *)
Lemma plug_failure_store fuel self c me e c'' :
  stats c !! self = Some me ->
  stat_uses me = ∅ ->
  (forall n, n ∈ resolved_names c me -> resolvable c self n) ->
  self ∉ resolved_names c me ->
  (forall r, eval (plug_scope self) (resolved_formula c me)
               (with_stats
                  (insert self
                     (set_root r (set_uses (resolved_names c me) (set_char true me))))
                  c) = Raise e c'') ->
  exists c' me',
    Stat.plug fuel self c = Raise Py.FormulaError c'
    /\ stats c' !! self = Some me'
    /\ stat_char me' = true
    /\ stat_uses me' = resolved_names c me
    /\ stat_formula me' = stat_formula me
    /\ forall t, t <> self -> stats c' !! t = stats c !! t.
Proof.
  intros Ho Hu Hres Hself Hev.
  destruct (plug_eq fuel self c me Ho Hu Hres Hself) as [r Eq].
  rewrite (Hev r) in Eq. eexists. eexists.
  split; [ exact Eq | ].
  split; [ cbn; apply lookup_insert_eq | ].
  split; [ reflexivity | ]. split; [ reflexivity | ]. split; [ reflexivity | ].
  intros t Hne. cbn. now apply lookup_insert_ne.
Qed.

(** [unplug] of a stat that has dependants, without force or recursion,
    raises DependencyError with their names and changes nothing. *)
Lemma unplug_refused self c me k :
  stats c !! self = Some me ->
  stat_char me = true ->
  stat_usedby me <> ∅ ->
  Stat.unplug (S k) self false false c
  = Raise (Py.DependencyError (elements (stat_usedby me))) c.
Proof.
  intros Ho Hc Hne. cbn [Stat.unplug].
  rewrite (bind_Ok _ _ _ _ _ (get_stat_Ok _ _ _ Ho)). rewrite Hc. cbn [negb].
  now rewrite (bool_decide_false _ Hne).
Qed.

(** [toggle] leaves a plugged bonus of a permanent type, without condition,
    as it is; so do [on] and [off]. *)
Lemma toggle_permanent fuel self c me new :
  bonuses c !! self = Some me ->
  bonus_char me = true ->
  bonus_condition me = "" ->
  Bonus.mem (bonus_typ me) (BONUS_PERM c) = true ->
  Bonus.toggle fuel self new c = Ok tt c.
Proof.
  intros Ho Hc Hcond Hperm. unfold Bonus.toggle, bind, get_bonus.
  rewrite Ho, Hcond. cbn [Bonus.is_empty]. unfold Bonus.need_char.
  rewrite Hc. unfold ret, read. now rewrite Hperm.
Qed.

(** [off] without force raises AttributeError on every bonus that an effect
    has entered its name in. *)
Lemma off_raises_when_claimed fuel self c me :
  bonuses c !! self = Some me ->
  bonus_usedby me <> ∅ ->
  Bonus.off fuel self false c = Raise Py.AttributeError c.
Proof.
  intros Ho Hne. unfold Bonus.off, bind, get_bonus. rewrite Ho.
  destruct (elements (bonus_usedby me)) as [|x l] eqn:El.
  - apply elements_empty_inv in El. apply leibniz_equiv in El. contradiction.
  - reflexivity.
Qed.

(** [unplug] of a plugged effect that has a bonus raises NameError and
    changes nothing. *)
Lemma effect_unplug_raises_with_bonus fuel self c me b l :
  effects c !! self = Some me ->
  effect_char me = true ->
  effect_bonuses me = b :: l ->
  Effect.unplug fuel self c = Raise Py.NameError c.
Proof.
  intros Ho Hc Hb. unfold Effect.unplug, bind, get_effect.
  now rewrite Ho, Hc, Hb.
Qed.

(** ** The recursion budget *)

Lemma recompute_not_starved self c : Stat.recompute self c <> OutOfFuel.
Proof.
  intros H.
  assert (Hb : forall A B (m : M A) (k : A -> M B) c0,
             bind m k c0 = OutOfFuel ->
             m c0 = OutOfFuel \/ exists a c1, m c0 = Ok a c1 /\ k a c1 = OutOfFuel).
  { intros A B m k c0. unfold bind. destruct (m c0); eauto; discriminate. }
  assert (Hev : forall sc t c0, eval sc t c0 <> OutOfFuel).
  { intros sc t c0. unfold eval. destruct (Py.parse t); [ | discriminate ].
    destruct (eval_expr sc c0 e); discriminate. }
  assert (Hcat : forall tb c0, Stat.add_category self tb c0 <> OutOfFuel).
  { intros tb c0 Hc. unfold Stat.add_category in Hc.
    apply Hb in Hc as [Hc|(vals & c1 & _ & Hc)].
    - rewrite active_values_eq in Hc. destruct (active_vals _ _); discriminate.
    - apply Hb in Hc as [Hc|(stk & c2 & _ & Hc)]; [ discriminate | ].
      destruct (Stat.contribution stk vals); [ | discriminate ].
      apply Hb in Hc as [Hc|(me & c3 & _ & Hc)].
      + unfold get_stat in Hc. destruct (stats c2 !! self); discriminate.
      + apply Hb in Hc as [Hc|(v & c4 & _ & Hc)]; [ | discriminate ].
        unfold lift_eres in Hc. destruct (Py.py_add _ _); discriminate. }
  assert (Hloop : forall l c0, for_each l (Stat.add_category self) c0 <> OutOfFuel).
  { induction l as [|tb l IH]; intros c0 Hc; [ discriminate | ].
    cbn [for_each] in Hc. apply Hb in Hc as [Hc|(u & c1 & _ & Hc)].
    - now apply Hcat in Hc.
    - now apply IH in Hc. }
  unfold Stat.recompute in H.
  apply Hb in H as [H|(me & c1 & _ & H)].
  { unfold get_stat in H. destruct (stats c !! self); discriminate. }
  destruct (stat_char me); cbn [negb] in H; [ | discriminate ].
  apply Hb in H as [H|(n & c2 & _ & H)]; [ now apply Hev in H | ].
  apply Hb in H as [H|(u & c3 & _ & H)]; [ discriminate | ].
  apply Hb in H as [H|(v & c4 & _ & H)]; [ now apply Hev in H | ].
  apply Hb in H as [H|(u' & c5 & _ & H)]; [ discriminate | ].
  apply Hb in H as [H|(u'' & c6 & _ & H)]; [ now apply Hloop in H | ].
  apply Hb in H as [H|(me' & c7 & _ & H)]; [ | discriminate ].
  unfold get_stat in H. destruct (stats c6 !! self); discriminate.
Qed.

Lemma calc_S fuel self c :
  Stat.calc (S fuel) self c =
  match Stat.recompute self c with
  | Ok true c1 =>
      match get_stat self c1 with
      | Ok me c2 =>
          for_each (elements (stat_usedby me))
            (fun n => _ <~ char_stats n ;; Stat.calc fuel n) c2
      | Raise e c2 => Raise e c2
      | OutOfFuel => OutOfFuel
      end
  | Ok false c1 => Ok tt c1
  | Raise e c1 => Raise e c1
  | OutOfFuel => OutOfFuel
  end.
Proof.
  cbn [Stat.calc]. unfold bind at 1.
  destruct (Stat.recompute self c) as [[] c1| |]; reflexivity.
Qed.

Lemma for_each_cons {A} (x : A) l (f : A -> M unit) c :
  for_each (x :: l) f c =
  match f x c with
  | Ok _ c1 => for_each l f c1
  | Raise e c1 => Raise e c1
  | OutOfFuel => OutOfFuel
  end.
Proof. cbn [for_each]. unfold bind. destruct (f x c); reflexivity. Qed.

Lemma calc_of_user fuel n c :
  (_ <~ char_stats n ;; Stat.calc fuel n) c =
  match char_stats n c with
  | Ok _ c1 => Stat.calc fuel n c1
  | Raise e c1 => Raise e c1
  | OutOfFuel => OutOfFuel
  end.
Proof. reflexivity. Qed.

(** The outcome of a [calc] that had budget enough does not depend on the
    budget. *)
Lemma calc_more_fuel : forall fuel self c,
  Stat.calc fuel self c <> OutOfFuel ->
  Stat.calc (S fuel) self c = Stat.calc fuel self c.
Proof.
  induction fuel as [|fuel IH]; intros self c Hne; [ now contradiction Hne | ].
  rewrite (calc_S (S fuel)). rewrite (calc_S fuel) in Hne |- *.
  destruct (Stat.recompute self c) as [[] c1| |]; try reflexivity.
  destruct (get_stat self c1) as [me c2| |]; try reflexivity.
  revert c2 Hne. generalize (elements (stat_usedby me)).
  induction l as [|n l IHl]; intros c2 Hne; [ reflexivity | ].
  rewrite for_each_cons, calc_of_user in Hne.
  rewrite (for_each_cons n l (fun n => _ <~ char_stats n ;; Stat.calc (S fuel) n)).
  rewrite (for_each_cons n l (fun n => _ <~ char_stats n ;; Stat.calc fuel n)).
  rewrite !calc_of_user.
  destruct (char_stats n c2) as [o c3| |]; try reflexivity.
  destruct (Stat.calc fuel n c3) as [u c4|e c4|] eqn:Hn.
  - rewrite IH by (rewrite Hn; discriminate). rewrite Hn. now apply IHl.
  - rewrite IH by (rewrite Hn; discriminate). now rewrite Hn.
  - now contradiction Hne.
Qed.

(** In a graph without cycle whose ranks are at most [top], [calc] returns
    or raises within a budget of one call per rank from the stat up. *)
Lemma calc_not_starved rank top : forall fuel self c,
  acyclic rank c ->
  (forall t, (rank t <= top)%nat) ->
  (top - rank self < fuel)%nat ->
  Stat.calc fuel self c <> OutOfFuel.
Proof.
  induction fuel as [|fuel IH]; intros self c Hac Htop Hfuel; [ lia | ].
  rewrite calc_S.
  destruct (Stat.recompute self c) as [[] c1| |] eqn:Hr;
    [ | discriminate | discriminate | now apply recompute_not_starved in Hr ].
  destruct (recompute_frame _ _ _ _ Hr) as (_ & Hs1 & _).
  assert (Hac1 : acyclic rank c1) by (eapply acyclic_same_shape; eauto).
  destruct (get_stat self c1) as [me c2| |] eqn:Hg;
    [ | discriminate | unfold get_stat in Hg; destruct (stats c1 !! self); discriminate ].
  apply get_stat_inv in Hg as [-> Ho].
  assert (Hup : forall n, n ∈ elements (stat_usedby me) -> (rank self < rank n)%nat).
  { intros n Hn. apply elem_of_elements in Hn.
    exact (acyclic_lookup rank c1 self me n Hac1 Ho Hn). }
  revert Hup Hac1. generalize (elements (stat_usedby me)). clear Ho Hr Hs1.
  intros l. revert c1.
  induction l as [|n l IHl]; intros c2 Hup Hac2; [ discriminate | ].
  rewrite for_each_cons, calc_of_user.
  destruct (char_stats n c2) as [o c3| |] eqn:Hk;
    [ | discriminate
      | unfold char_stats, get_stat in Hk; case_bool_decide;
        [ destruct (stats c2 !! n) | ]; discriminate ].
  apply char_stats_inv in Hk as [-> _].
  assert (Hlt : (rank self < rank n)%nat) by (apply Hup, list_elem_of_here).
  destruct (Stat.calc fuel n c2) as [u c4|e c4|] eqn:Hn; [ | discriminate | ].
  - destruct u. destruct (calc_above rank _ _ _ _ Hac2 Hn) as (_ & Hs & _).
    apply IHl.
    + intros m Hm. apply Hup. now apply list_elem_of_further.
    + eapply acyclic_same_shape; eauto.
  - exfalso. revert Hn. apply IH; [ exact Hac2 | exact Htop | ].
    specialize (Htop n). lia.
Qed.

(** ** More on durations *)

(** *** Texts *)

Lemma app_cons c (a b : string) : String c a +:+ b = String c (a +:+ b).
Proof. reflexivity. Qed.

Lemma append_nil_r (s : string) : s +:+ "" = s.
Proof.
  induction s as [|c s IH]; [ reflexivity | now rewrite app_cons, IH ].
Qed.

Lemma append_assoc (a b c : string) : (a +:+ b) +:+ c = a +:+ (b +:+ c).
Proof.
  induction a as [|x a IH]; [ reflexivity | now rewrite !app_cons, IH ].
Qed.

Lemma lower_app a b : Py.lower (a +:+ b) = Py.lower a +:+ Py.lower b.
Proof.
  induction a as [|x a IH]; [ reflexivity | ].
  rewrite app_cons. cbn [Py.lower]. now rewrite app_cons, IH.
Qed.

Lemma lower_char_idem c : Py.lower_char (Py.lower_char c) = Py.lower_char c.
Proof.
  destruct c as [[] [] [] [] [] [] [] []]; reflexivity.
Qed.

Lemma lower_idem s : Py.lower (Py.lower s) = Py.lower s.
Proof.
  induction s as [|c s IH]; cbn; [ reflexivity | ].
  now rewrite lower_char_idem, IH.
Qed.

(** Taking out every occurrence of one character. *)
Lemma replace_char_cons c x s :
  Py.replace (String c "") "" (String x s)
  = if Ascii.eqb x c then Py.replace (String c "") "" s
    else String x (Py.replace (String c "") "" s).
Proof.
  unfold Py.replace. cbn [Py.replace_go String.length Nat.sub String.prefix].
  destruct (ascii_dec c x) as [<-|Hne].
  - rewrite Ascii.eqb_refl. destruct s; reflexivity.
  - destruct (Ascii.eqb_spec x c) as [->|_]; [ contradiction | reflexivity ].
Qed.

Lemma replace_char_nil c : Py.replace (String c "") "" "" = "".
Proof. reflexivity. Qed.

Lemma replace_char_app c a b :
  Py.replace (String c "") "" (a +:+ b)
  = Py.replace (String c "") "" a +:+ Py.replace (String c "") "" b.
Proof.
  induction a as [|x a IH]; [ reflexivity | ].
  rewrite app_cons, !replace_char_cons, IH.
  destruct (Ascii.eqb x c); [ reflexivity | now rewrite app_cons ].
Qed.

Lemma replace_char_idem c s :
  Py.replace (String c "") "" (Py.replace (String c "") "" s)
  = Py.replace (String c "") "" s.
Proof.
  induction s as [|x s IH]; [ reflexivity | ].
  rewrite replace_char_cons. destruct (Ascii.eqb x c) eqn:E; [ exact IH | ].
  now rewrite replace_char_cons, E, IH.
Qed.

Lemma replace_char_comm c d s :
  Py.replace (String c "") "" (Py.replace (String d "") "" s)
  = Py.replace (String d "") "" (Py.replace (String c "") "" s).
Proof.
  induction s as [|x s IH]; [ reflexivity | ].
  rewrite !replace_char_cons.
  destruct (Ascii.eqb x d) eqn:Ed, (Ascii.eqb x c) eqn:Ec;
    rewrite ?replace_char_cons, ?Ed, ?Ec, IH; reflexivity.
Qed.

Lemma lower_replace_char c s :
  Py.lower_char c = c ->
  (forall x, Py.lower_char x = c -> x = c) ->
  Py.lower (Py.replace (String c "") "" s)
  = Py.replace (String c "") "" (Py.lower s).
Proof.
  intros Hc Hinj. induction s as [|x s IH]; [ reflexivity | ].
  cbn [Py.lower]. rewrite !replace_char_cons.
  destruct (Ascii.eqb_spec x c) as [->|Hne].
  - rewrite Hc, Ascii.eqb_refl. exact IH.
  - destruct (Ascii.eqb_spec (Py.lower_char x) c) as [E|_].
    + apply Hinj in E. contradiction.
    + cbn [Py.lower]. now rewrite IH.
Qed.

Lemma lower_char_space x : Py.lower_char x = " "%char -> x = " "%char.
Proof. destruct x as [[] [] [] [] [] [] [] []]; cbv; congruence. Qed.

Lemma lower_char_underscore x : Py.lower_char x = "_"%char -> x = "_"%char.
Proof. destruct x as [[] [] [] [] [] [] [] []]; cbv; congruence. Qed.

(** The text [to_rds] works on. *)
Lemma to_rds_text t :
  Duration.to_rds (Duration.SText t)
  = let t := Py.replace "_" "" (Py.replace " " "" (Py.lower t)) in
    if bool_decide (t ∈ Duration.INF_NAMES) then inr (pretty Duration.INF)
    else match Duration.to_rds_terms (Py.split "+" t) with
         | inl e => inl e
         | inr rds => inr (Py.join "+" rds)
         end.
Proof. reflexivity. Qed.

(** [to_rds] reads a text without regard to the case of its letters, to
    spaces and to underscores: lower-casing the text, or putting a space or
    an underscore anywhere in it, does not change the outcome. *)
Theorem to_rds_ignores_case_and_spacing (a b : string) :
  Duration.to_rds (Duration.SText (Py.lower a))
  = Duration.to_rds (Duration.SText a)
  /\ Duration.to_rds (Duration.SText (a +:+ " " +:+ b))
     = Duration.to_rds (Duration.SText (a +:+ b))
  /\ Duration.to_rds (Duration.SText (a +:+ "_" +:+ b))
     = Duration.to_rds (Duration.SText (a +:+ b)).
Proof.
  rewrite !to_rds_text. cbv zeta. split_and!.
  - now rewrite lower_idem.
  - rewrite !lower_app, !(replace_char_app " "). reflexivity.
  - rewrite !lower_app, !(replace_char_app " "), !(replace_char_app "_").
    reflexivity.
Qed.

Lemma digits_prefix_spec s :
  (Duration.digits_prefix s).1 +:+ (Duration.digits_prefix s).2 = s
  /\ digits_only (Duration.digits_prefix s).1 = true
  /\ starts_with_digit (Duration.digits_prefix s).2 = false
  /\ ((Duration.digits_prefix s).1 = "" -> starts_with_digit s = false).
Proof.
  induction s as [|c s (IH1 & IH2 & IH3 & IH4)]; [ now cbn | ].
  cbn [Duration.digits_prefix]. unfold Duration.is_int.
  destruct (Py.is_digit c) eqn:Ec.
  - destruct (Duration.digits_prefix s) as [d r]. cbn [fst snd] in *.
    split_and!.
    + now rewrite app_cons, IH1.
    + cbn [digits_only]. now rewrite Ec, IH2.
    + exact IH3.
    + discriminate.
  - cbn [fst snd starts_with_digit]. now rewrite Ec.
Qed.

(** [split_unit] cuts a text after its leading digits: the number is a
    non-empty text of digits, the unit does not begin with a digit, and the
    two make up the text, except that a text without leading digit gets the
    number [1]. *)
Theorem split_unit_parts (s : string) :
  let (num, unit) := Duration.split_unit s in
  num <> ""
  /\ digits_only num = true
  /\ starts_with_digit unit = false
  /\ (if starts_with_digit s then num +:+ unit = s
      else num = "1" /\ unit = s).
Proof.
  unfold Duration.split_unit.
  destruct (digits_prefix_spec s) as (H1 & H2 & H3 & H4).
  destruct (Duration.digits_prefix s) as [d r]. cbn [fst snd] in *.
  destruct d as [|c d].
  - rewrite H4 by reflexivity. change ("" +:+ r) with r in H1. subst r.
    split_and!; [ discriminate | reflexivity | exact H3 | reflexivity | reflexivity ].
  - split_and!; [ discriminate | exact H2 | exact H3 | ].
    destruct s as [|x s]; [ discriminate | ].
    rewrite app_cons in H1. injection H1 as -> H1.
    cbn [starts_with_digit]. cbn [digits_only] in H2.
    apply andb_true_iff in H2 as [-> _]. now rewrite app_cons, H1.
Qed.

(** *** Advancing *)

Lemma py_max_int x y : Py.py_max (Py.VInt x) (Py.VInt y) = Py.EVal (Py.VInt (Z.max x y)).
Proof.
  unfold Py.py_max, Py.compare. cbv beta iota.
  destruct (Z.compare_spec y x); do 2 f_equal; lia.
Qed.

Lemma py_eqb_int x y : Py.py_eqb (Py.VInt x) (Py.VInt y) = (x =? y).
Proof.
  unfold Py.py_eqb, Py.compare. cbv beta iota.
  destruct (Z.compare_spec x y); destruct (Z.eqb_spec x y); try reflexivity; lia.
Qed.

Lemma advance_int (d : DurationObj) (r a : Z) :
  dur_rounds d = Py.VInt r -> r <> Duration.INF ->
  Duration.advance d (Duration.AInt a)
  = inr (Z.max 0 (r - a) =? 0,
         set_dur_rounds (Py.VInt (Z.max 0 (r - a))) d).
Proof.
  intros Hr Hinf. unfold Duration.advance. rewrite Hr, py_eqb_int.
  destruct (Z.eqb_spec r Duration.INF) as [E|_]; [ contradiction | ].
  cbn [Py.py_sub Py.arith ebind]. rewrite py_max_int.
  unfold Duration.expired.
  cbn [ebind dur_rounds set_dur_rounds]. now rewrite py_eqb_int.
Qed.

(** Advancing a finite duration by [a] rounds and then by [b] rounds, where
    [b] is not negative, is advancing it by [a + b] rounds: the same rounds
    are left and the same answer is given. *)
Theorem advance_additive (d : DurationObj) (r a b : Z) :
  dur_rounds d = Py.VInt r -> r <> Duration.INF -> 0 <= b ->
  exists e1 d1,
    Duration.advance d (Duration.AInt a) = inr (e1, d1)
    /\ Duration.advance d1 (Duration.AInt b)
       = Duration.advance d (Duration.AInt (a + b)).
Proof.
  intros Hr Hinf Hb. eexists. eexists.
  split; [ apply (advance_int d r a Hr Hinf) | ].
  rewrite (advance_int _ (Z.max 0 (r - a)) b);
    [ | reflexivity | unfold Duration.INF; lia ].
  rewrite (advance_int d r (a + b) Hr Hinf).
  replace (Z.max 0 (Z.max 0 (r - a) - b)) with (Z.max 0 (r - (a + b))) by lia.
  reflexivity.
Qed.

Lemma advance_additive_witness :
  dur_rounds (mkDuration "1*10" (Py.VInt 10) (Py.VInt 10)) = Py.VInt 10
  /\ 0 <= 4
  /\ exists e1 d1,
       Duration.advance (mkDuration "1*10" (Py.VInt 10) (Py.VInt 10))
         (Duration.AInt 3) = inr (e1, d1)
       /\ Duration.advance d1 (Duration.AInt 4)
          = Duration.advance (mkDuration "1*10" (Py.VInt 10) (Py.VInt 10))
              (Duration.AInt (3 + 4)).
Proof.
  split; [ reflexivity | ]. split; [ lia | ].
  apply (advance_additive _ 10 3 4); [ reflexivity | discriminate | lia ].
Defined.

Lemma advance_keeps_original d a e d' :
  Duration.advance d a = inr (e, d') ->
  dur_original d' = dur_original d /\ dur_raw d' = dur_raw d.
Proof.
  unfold Duration.advance.
  destruct (match a with
            | Duration.AInt z => Some (Py.VInt z)
            | Duration.ADur d0 => Some (dur_rounds d0)
            | Duration.AOther => None
            end) as [n|]; [ | discriminate ].
  destruct (Py.py_eqb (dur_rounds d) (Py.VInt Duration.INF)).
  - intros [= <- <-]. auto.
  - destruct (ebind _ _) as [v|x]; [ | discriminate ].
    intros [= <- <-]. auto.
Qed.

(** Whatever a duration has been advanced by, [reset] gives it back the
    rounds it was made with. *)
Theorem reset_after_advances (l : list Duration.amount) (d d' : DurationObj) :
  advance_all d l = inr d' ->
  Duration.reset d' = Duration.reset d.
Proof.
  revert d. induction l as [|a l IH]; intros d; cbn [advance_all].
  - now intros [= ->].
  - destruct (Duration.advance d a) as [x|[e d1]] eqn:Ea; [ discriminate | ].
    intros H. rewrite (IH _ H).
    destruct (advance_keeps_original _ _ _ _ Ea) as [Ho Hw].
    unfold Duration.reset, set_dur_rounds. now rewrite Ho, Hw.
Qed.

Lemma reset_after_advances_witness :
  advance_all (mkDuration "1*10" (Py.VInt 10) (Py.VInt 10))
    [Duration.AInt 3; Duration.AInt 20]
  = inr (mkDuration "1*10" (Py.VInt 10) (Py.VInt 0))
  /\ Duration.reset (mkDuration "1*10" (Py.VInt 10) (Py.VInt 0))
     = Duration.reset (mkDuration "1*10" (Py.VInt 10) (Py.VInt 10)).
Proof.
  split; [ reflexivity | ].
  apply (reset_after_advances [Duration.AInt 3; Duration.AInt 20]).
  reflexivity.
Defined.

(** *** Printing *)

Lemma lt_int a b : Printing.lt (Py.VInt a) (Py.VInt b) = inr (a <? b).
Proof.
  unfold Printing.lt, Py.compare. cbv beta iota.
  destruct (Z.compare_spec a b); destruct (Z.ltb_spec a b); try reflexivity; lia.
Qed.

Lemma truediv_int x n :
  n <> 0 ->
  Py.py_truediv (Py.VInt x) (Py.VInt n)
  = Py.lift_float (Py.int_true_divide x n).
Proof. intros Hn. unfold Py.py_truediv. now destruct (Z.eqb_spec n 0). Qed.

Lemma mod_int x n :
  n <> 0 -> Py.py_mod (Py.VInt x) (Py.VInt n) = Py.EVal (Py.VInt (x mod n)).
Proof. intros Hn. unfold Py.py_mod. now destruct (Z.eqb_spec n 0). Qed.

Lemma terms_low repr names : forall x,
  Forall (fun p => x <= p.1) names ->
  Printing.terms repr names (Py.VInt x) = inr [].
Proof.
  induction names as [|[num name] names IH]; intros x Hlow; [ reflexivity | ].
  apply Forall_cons in Hlow as [Hp Hlow]. cbn [fst] in Hp.
  cbn [Printing.terms]. rewrite lt_int.
  destruct (Z.ltb_spec num x); [ lia | now apply IH ].
Qed.

Lemma app_not_nil (a b : string) : b <> "" -> a +:+ b <> "".
Proof.
  intros Hb. destruct a as [|c a]; [ exact Hb | ].
  rewrite app_cons. discriminate.
Qed.

(** Above a unit the loop has a term to give, unless the quotient is too
    large for a float and the division raises. *)
Lemma terms_high repr names : forall x l,
  Forall (fun p => 0 < p.1 /\ p.2 <> "") names ->
  Exists (fun p => p.1 < x) names ->
  Printing.terms repr names (Py.VInt x) = inr l ->
  exists h t, l = h :: t /\ h <> "".
Proof.
  induction names as [|[num name] names IH]; intros x l Hok Hex;
    [ now apply Exists_nil in Hex | ].
  apply Forall_cons in Hok as [[Hp Hn] Hok]. cbn [fst snd] in Hp, Hn.
  cbn [Printing.terms]. rewrite lt_int.
  destruct (Z.ltb_spec num x) as [Hlt|Hge].
  - rewrite truediv_int, mod_int by lia.
    destruct (Py.lift_float (Py.int_true_divide x num)) as [q|e];
      [ | discriminate ].
    destruct (Printing.terms repr names (Py.VInt (x mod num))) as [e|t];
      [ discriminate | ].
    intros [= <-]. eexists. eexists. split; [ reflexivity | ].
    now apply app_not_nil.
  - apply IH; [ exact Hok | ].
    apply Exists_cons in Hex as [Hex|Hex]; [ cbn in Hex; lia | exact Hex ].
Qed.

Lemma join_not_nil sep h l : h <> "" -> Py.join sep (h :: l) <> "".
Proof.
  intros Hh. cbn [Py.join]. destruct l as [|x l]; [ exact Hh | ].
  destruct h as [|c h]; [ contradiction | ]. rewrite app_cons. discriminate.
Qed.

(** [Duration.__str__] compares each unit with what is left by [num < x]:
    a finite duration prints as the empty text exactly when it has at most
    one round left, whatever the rendering of floats. *)
Theorem duration_str_blank (repr : spec_float -> string) (d : DurationObj) (r : Z) :
  dur_rounds d = Py.VInt r -> r <> Duration.INF ->
  (Printing.Duration_str repr d = inr "" <-> r <= 1).
Proof.
  intros Hr Hinf. unfold Printing.Duration_str. rewrite Hr, py_eqb_int.
  destruct (Z.eqb_spec r Duration.INF) as [E|_]; [ contradiction | ].
  split.
  - intros H. destruct (Z.le_gt_cases r 1) as [Hle|Hgt]; [ exact Hle | exfalso ].
    destruct (Printing.terms repr Printing.NAMES (Py.VInt r)) as [e|l] eqn:E;
      [ discriminate | ].
    destruct (terms_high repr Printing.NAMES r l) as (h & t & -> & Hh).
    + unfold Printing.NAMES. repeat constructor; cbn; (lia || discriminate).
    + unfold Printing.NAMES. do 4 apply Exists_cons_tl. apply Exists_cons_hd.
      cbn. lia.
    + exact E.
    + injection H as H. now apply (join_not_nil "+" h t).
  - intros Hle. rewrite terms_low; [ reflexivity | ].
    unfold Printing.NAMES. repeat constructor; cbn; lia.
Qed.

Lemma duration_str_blank_witness :
  dur_rounds (mkDuration "1*1" (Py.VInt 1) (Py.VInt 1)) = Py.VInt 1
  /\ 1 <> Duration.INF
  /\ (Printing.Duration_str (fun _ => "?")
        (mkDuration "1*1" (Py.VInt 1) (Py.VInt 1)) = inr ""
      <-> 1 <= 1).
Proof.
  split; [ reflexivity | ]. split; [ discriminate | ].
  apply (duration_str_blank (fun _ => "?") _ 1); [ reflexivity | discriminate ].
Defined.

(** *** Reading a number back *)

Lemma digit_char_start d s :
  (d < 10)%N ->
  Py.tokenize_go (String (pretty_N_char d) s) Py.LStart
  = Py.tokenize_go s (Py.LNum (Z.of_N d =? 0) (Z.of_N d)).
Proof.
  intros Hd.
  assert (d = 0 \/ d = 1 \/ d = 2 \/ d = 3 \/ d = 4 \/ d = 5 \/ d = 6
          \/ d = 7 \/ d = 8 \/ d = 9)%N as H by lia.
  repeat (destruct H as [->|H]; [ reflexivity | ]). now subst d.
Qed.

Lemma digit_char_num d s n :
  (d < 10)%N ->
  Py.tokenize_go (String (pretty_N_char d) s) (Py.LNum false n)
  = Py.tokenize_go s (Py.LNum false (10 * n + Z.of_N d)).
Proof.
  intros Hd.
  assert (d = 0 \/ d = 1 \/ d = 2 \/ d = 3 \/ d = 4 \/ d = 5 \/ d = 6
          \/ d = 7 \/ d = 8 \/ d = 9)%N as H by lia.
  repeat (destruct H as [->|H]; [ reflexivity | ]). now subst d.
Qed.

Lemma digit_char_is_digit d : (d < 10)%N -> Py.is_digit (pretty_N_char d) = true.
Proof.
  intros Hd.
  assert (d = 0 \/ d = 1 \/ d = 2 \/ d = 3 \/ d = 4 \/ d = 5 \/ d = 6
          \/ d = 7 \/ d = 8 \/ d = 9)%N as H by lia.
  repeat (destruct H as [->|H]; [ reflexivity | ]). now subst d.
Qed.

(** The lexer reads the digits [pretty] writes for a positive number as that
    number. *)
Lemma tokenize_pretty_go x : forall s,
  (0 < x)%N ->
  Py.tokenize_go (pretty_N_go x s) Py.LStart
  = Py.tokenize_go s (Py.LNum false (Z.of_N x)).
Proof.
  induction (N.lt_wf_0 x) as [x _ IH]; intros s Hx.
  rewrite pretty_N_go_step by exact Hx.
  assert (Hd : (x `mod` 10 < 10)%N) by (apply N.mod_lt; discriminate).
  pose proof (N.div_mod x 10%N ltac:(discriminate)) as Hdm.
  destruct (N.eq_dec (x `div` 10)%N 0%N) as [E|Hne].
  - rewrite E, pretty_N_go_0, digit_char_start by exact Hd.
    replace (x `mod` 10)%N with x by lia.
    destruct (Z.eqb_spec (Z.of_N x) 0); [ lia | reflexivity ].
  - rewrite IH; [ | apply N.div_lt; lia | lia ].
    rewrite digit_char_num by exact Hd. do 2 f_equal. lia.
Qed.

Lemma digits_only_pretty_go x : forall s,
  digits_only s = true -> digits_only (pretty_N_go x s) = true.
Proof.
  induction (N.lt_wf_0 x) as [x _ IH]; intros s Hs.
  destruct (N.eq_dec x 0%N) as [->|Hne]; [ now rewrite pretty_N_go_0 | ].
  rewrite pretty_N_go_step by lia. apply IH; [ apply N.div_lt; lia | ].
  cbn [digits_only]. rewrite digit_char_is_digit, Hs; [ reflexivity | ].
  apply N.mod_lt. discriminate.
Qed.

Lemma pretty_go_not_nil x : forall s, (0 < x)%N -> pretty_N_go x s <> "".
Proof.
  induction (N.lt_wf_0 x) as [x _ IH]; intros s Hx.
  rewrite pretty_N_go_step by exact Hx.
  destruct (N.eq_dec (x `div` 10)%N 0%N) as [E|Hne].
  - rewrite E, pretty_N_go_0. discriminate.
  - apply IH; [ apply N.div_lt; lia | now apply N.neq_0_lt_0 ].
Qed.

Lemma pretty_N_unfold (n : N) :
  pretty n = if decide (n = 0%N) then "0" else pretty_N_go n "".
Proof. reflexivity. Qed.

Lemma digits_only_pretty (n : N) : digits_only (pretty n) = true.
Proof.
  rewrite pretty_N_unfold. case_decide; [ reflexivity | ].
  now apply digits_only_pretty_go.
Qed.

Lemma pretty_not_nil (n : N) : pretty n <> "".
Proof.
  rewrite pretty_N_unfold. case_decide; [ discriminate | ].
  apply pretty_go_not_nil. lia.
Qed.

Lemma pretty_go_app x : forall s t,
  pretty_N_go x s +:+ t = pretty_N_go x (s +:+ t).
Proof.
  induction (N.lt_wf_0 x) as [x _ IH]; intros s t.
  destruct (N.eq_dec x 0%N) as [->|Hne]; [ now rewrite !pretty_N_go_0 | ].
  rewrite (pretty_N_go_step x s), (pretty_N_go_step x (s +:+ t)) by lia.
  rewrite IH by (apply N.div_lt; lia). now rewrite app_cons.
Qed.

Lemma tokenize_pretty (n : N) (rest : string) :
  ends_number rest ->
  Py.tokenize (pretty n +:+ rest)
  = Py.TNum (Z.of_N n) :: Py.tokenize_go rest Py.LStart.
Proof.
  intros Hrest. unfold Py.tokenize. rewrite pretty_N_unfold.
  case_decide as E.
  - subst n. change ("0" +:+ rest) with (String "0" rest).
    change (Py.tokenize_go (String "0" rest) Py.LStart)
      with (Py.tokenize_go rest (Py.LNum true 0)).
    apply Hrest.
  - rewrite pretty_go_app. change ("" +:+ rest) with rest.
    rewrite tokenize_pretty_go by lia. apply Hrest.
Qed.

Lemma ends_number_nil : ends_number "".
Proof. intros l k. reflexivity. Qed.

Lemma parse_pretty_N (n : N) : Py.parse (pretty n) = Some (Py.ENum (Z.of_N n)).
Proof.
  unfold Py.parse. rewrite <- (append_nil_r (pretty n)).
  rewrite (tokenize_pretty n "" ends_number_nil). reflexivity.
Qed.

Lemma parse_pretty_neg (p : positive) :
  Py.parse (pretty (Z.neg p)) = Some (Py.ENeg (Py.ENum (Z.pos p))).
Proof.
  change (pretty (Z.neg p)) with (String "-" (pretty (N.pos p))).
  unfold Py.parse, Py.tokenize.
  change (Py.tokenize_go (String "-" (pretty (N.pos p))) Py.LStart)
    with (Py.TMinus :: Py.tokenize (pretty (N.pos p))).
  rewrite <- (append_nil_r (pretty (N.pos p))).
  rewrite (tokenize_pretty (N.pos p) "" ends_number_nil). reflexivity.
Qed.

(** What the digits and signs of a number leave alone. *)
Lemma count_app c a b : Py.count c (a +:+ b) = (Py.count c a + Py.count c b)%nat.
Proof.
  induction a as [|x a IH]; [ reflexivity | ].
  rewrite app_cons. cbn [Py.count]. rewrite IH. lia.
Qed.

Lemma count_digits c s :
  Py.is_digit c = false -> digits_only s = true -> Py.count c s = 0%nat.
Proof.
  intros Hc. induction s as [|x s IH]; [ reflexivity | ].
  cbn [digits_only Py.count]. intros H. apply andb_true_iff in H as [Hx Hs].
  rewrite (IH Hs). destruct (Ascii.eqb_spec c x) as [->|_]; [ congruence | reflexivity ].
Qed.

Lemma replace_absent o old new s :
  Py.count o s = 0%nat -> Py.replace (String o old) new s = s.
Proof.
  unfold Py.replace. induction s as [|x s IH]; [ reflexivity | ].
  cbn [Py.count Py.replace_go String.prefix].
  destruct (Ascii.eqb_spec o x) as [->|Hne]; [ discriminate | ].
  cbn [Nat.add]. intros Hs.
  destruct (ascii_dec o x) as [E|_]; [ contradiction | ]. now rewrite (IH Hs).
Qed.

Lemma expand_units_plain s : Py.count "$" s = 0%nat -> Duration.expand_units s = s.
Proof.
  intros Hs.
  change (Duration.expand_units s)
    with (Py.replace "$caster_level"
            ("char.stats[" +:+ Stat.quoted "caster_level" +:+ "].value")
            (Py.replace "$level"
               ("char.stats[" +:+ Stat.quoted "level" +:+ "].value") s)).
  rewrite (replace_absent "$" "level") by exact Hs.
  now rewrite (replace_absent "$" "caster_level") by exact Hs.
Qed.

Lemma contains_absent o sub s :
  Py.count o s = 0%nat -> Py.contains (String o sub) s = false.
Proof.
  induction s as [|x s IH]; [ reflexivity | ].
  cbn [Py.count Py.contains String.prefix].
  destruct (Ascii.eqb_spec o x) as [->|Hne]; [ discriminate | ].
  cbn [Nat.add]. intros Hs.
  destruct (ascii_dec o x) as [E|_]; [ contradiction | ]. now rewrite (IH Hs).
Qed.

(** [Duration(n)], for an [int] [n], has [n] rounds: among them, [-1] is the
    infinite duration and [0] one that has expired. *)
Theorem duration_of_int (z : Z) (char : bool) (c : Character) :
  Duration.init (Duration.SInt z) char c
  = Ok (mkDuration (pretty z) (Py.VInt z) (Py.VInt z)) c.
Proof.
  unfold Duration.init, Duration.parse. cbn [Duration.to_rds].
  assert (Hplain : Py.count "$" (pretty z) = 0%nat
                   /\ Py.count "c" (pretty z) = 0%nat).
  { destruct z as [|p|p].
    - split; reflexivity.
    - split; apply count_digits; try reflexivity;
        apply (digits_only_pretty (N.pos p)).
    - change (pretty (Z.neg p)) with (String "-" (pretty (N.pos p))).
      cbn [Py.count]. cbn [Ascii.eqb Bool.eqb Nat.add].
      split; apply count_digits; try reflexivity;
        apply (digits_only_pretty (N.pos p)). }
  destruct Hplain as [Hd Hc].
  rewrite (expand_units_plain _ Hd), (contains_absent _ _ _ Hc).
  cbn [andb]. unfold bind, eval.
  destruct z as [|p|p].
  - reflexivity.
  - change (pretty (Z.pos p)) with (pretty (N.pos p)).
    rewrite parse_pretty_N. reflexivity.
  - rewrite parse_pretty_neg. reflexivity.
Qed.

(** *** A count and a unit *)

Lemma lower_digits s : digits_only s = true -> Py.lower s = s.
Proof.
  induction s as [|c s IH]; [ reflexivity | ].
  cbn [digits_only Py.lower]. intros H. apply andb_true_iff in H as [Hc Hs].
  rewrite (IH Hs). f_equal. unfold Py.lower_char.
  destruct (Py.is_upper c) eqn:Eu; [ exfalso | reflexivity ].
  revert Hc Eu. destruct c as [[] [] [] [] [] [] [] []]; cbv; congruence.
Qed.

Lemma split_absent sep s : Py.count sep s = 0%nat -> Py.split sep s = [s].
Proof.
  induction s as [|c s IH]; [ reflexivity | ].
  cbn [Py.count Py.split].
  destruct (Ascii.eqb_spec sep c) as [->|Hne]; [ discriminate | ].
  cbn [Nat.add]. intros Hs. rewrite (IH Hs).
  destruct (Ascii.eqb_spec c sep) as [E|_]; [ now subst | reflexivity ].
Qed.

Lemma digits_prefix_app d u :
  digits_only d = true -> starts_with_digit u = false ->
  Duration.digits_prefix (d +:+ u) = (d, u).
Proof.
  intros Hd Hu. induction d as [|c d IH].
  - change ("" +:+ u) with u. destruct u as [|x u]; [ reflexivity | ].
    cbn [Duration.digits_prefix]. unfold Duration.is_int.
    cbn [starts_with_digit] in Hu. now rewrite Hu.
  - cbn [digits_only] in Hd. apply andb_true_iff in Hd as [Hc Hd].
    rewrite app_cons. cbn [Duration.digits_prefix]. unfold Duration.is_int.
    now rewrite Hc, (IH Hd).
Qed.

Lemma split_unit_app d u :
  d <> "" -> digits_only d = true -> starts_with_digit u = false ->
  Duration.split_unit (d +:+ u) = (d, u).
Proof.
  intros Hne Hd Hu. unfold Duration.split_unit.
  rewrite (digits_prefix_app d u Hd Hu). now destruct d.
Qed.

Lemma starts_with_digit_app d u :
  d <> "" -> digits_only d = true -> starts_with_digit (d +:+ u) = true.
Proof.
  destruct d as [|c d]; [ contradiction | ]. intros _ Hd.
  cbn [digits_only] in Hd. apply andb_true_iff in Hd as [Hc _].
  now rewrite app_cons.
Qed.

Lemma inf_name_no_digit t : t ∈ Duration.INF_NAMES -> starts_with_digit t = false.
Proof.
  unfold Duration.INF_NAMES. intros H.
  repeat (apply elem_of_cons in H as [->|H]; [ reflexivity | ]).
  now apply elem_of_nil in H.
Qed.

Lemma plain_unit_facts u :
  plain_unit u = true ->
  Py.replace "_" "" (Py.replace " " "" (Py.lower u)) = u
  /\ Py.count "+" u = 0%nat /\ Py.count "/" u = 0%nat
  /\ starts_with_digit u = false.
Proof.
  unfold plain_unit. intros H.
  apply andb_true_iff in H as [H H4]. apply andb_true_iff in H as [H H3].
  apply andb_true_iff in H as [H1 H2].
  apply String.eqb_eq in H1. apply Nat.eqb_eq in H2, H3.
  apply negb_true_iff in H4. auto.
Qed.

(** The text [to_rds] makes of a count and a unit. *)
Lemma to_rds_count_unit (n : N) (u : string) (m : Duration.mult) :
  plain_unit u = true ->
  Duration.get_mult u = inr m ->
  Duration.to_rds (Duration.SText (pretty n +:+ u))
  = inr (pretty n +:+ "*" +:+ Duration.fmt m).
Proof.
  intros Hu Hm. apply plain_unit_facts in Hu as (Hnorm & Hplus & Hslash & Hdig).
  pose proof (digits_only_pretty n) as Hd.
  pose proof (pretty_not_nil n) as Hne.
  rewrite to_rds_text. cbv zeta.
  rewrite lower_app, (lower_digits _ Hd).
  rewrite (replace_char_app " "), (replace_char_app "_").
  rewrite (replace_absent " " "" "" (pretty n))
    by (apply count_digits; [ reflexivity | exact Hd ]).
  rewrite (replace_absent "_" "" "" (pretty n))
    by (apply count_digits; [ reflexivity | exact Hd ]).
  rewrite Hnorm.
  rewrite bool_decide_false.
  2:{ intros Hin. apply inf_name_no_digit in Hin.
      rewrite (starts_with_digit_app _ u Hne Hd) in Hin. discriminate. }
  assert (Hcount : forall c, Py.is_digit c = false -> Py.count c u = 0%nat ->
                             Py.count c (pretty n +:+ u) = 0%nat).
  { intros c Hc Hcu. rewrite count_app, Hcu, (count_digits c _ Hc Hd). reflexivity. }
  rewrite (split_absent "+") by (apply Hcount; [ reflexivity | exact Hplus ]).
  cbn [Duration.to_rds_terms]. unfold Duration.to_rds_term.
  rewrite (Hcount "/"%char eq_refl Hslash). cbn [Nat.ltb Nat.leb].
  rewrite (split_absent "/") by (apply Hcount; [ reflexivity | exact Hslash ]).
  cbn [hd tl]. rewrite (split_unit_app _ u Hne Hd Hdig). now rewrite Hm.
Qed.

Lemma duration_count_unit_gen (n : N) (u : string) (m : Z) char c :
  plain_unit u = true ->
  Duration.get_mult u = inr (Duration.MInt m) ->
  Py.count "$" (pretty m) = 0%nat -> Py.count "c" (pretty m) = 0%nat ->
  Py.tokenize_go (String "*" (pretty m)) Py.LStart = [Py.TStar; Py.TNum m] ->
  Duration.init (Duration.SText (pretty n +:+ u)) char c
  = Ok (mkDuration (pretty n +:+ "*" +:+ pretty m)
          (Py.VInt (Z.of_N n * m)) (Py.VInt (Z.of_N n * m))) c.
Proof.
  intros Hu Hm Hd Hc Htok.
  unfold Duration.init, Duration.parse.
  rewrite (to_rds_count_unit n u _ Hu Hm). cbn [Duration.fmt].
  pose proof (digits_only_pretty n) as Hn.
  assert (Hplain : forall x, Py.is_digit x = false -> Ascii.eqb x "*" = false ->
                     Py.count x (pretty m) = 0%nat ->
                     Py.count x (pretty n +:+ "*" +:+ pretty m) = 0%nat).
  { intros x Hx Hstar Hxm.
    rewrite count_app, (count_digits x _ Hx Hn).
    change ("*" +:+ pretty m) with (String "*" (pretty m)).
    cbn [Py.count]. now rewrite Hstar, Hxm. }
  rewrite expand_units_plain by (apply Hplain; [ reflexivity | reflexivity | exact Hd ]).
  rewrite contains_absent by (apply Hplain; [ reflexivity | reflexivity | exact Hc ]).
  cbn [andb]. unfold bind, eval, Py.parse.
  rewrite (tokenize_pretty n).
  2:{ intros l k. reflexivity. }
  change ("*" +:+ pretty m) with (String "*" (pretty m)). rewrite Htok.
  reflexivity.
Qed.

(** A text made of a count and the name of a unit of fixed length makes a
    duration of the count times the rounds of the unit: [pretty n] are the
    digits of [n], without leading zero. *)
Theorem duration_count_unit (n : N) (names : list string) (m : Z) (u : string)
  (char : bool) (c : Character) :
  (names, Duration.MInt m) ∈ Duration.UNITS -> u ∈ names ->
  Duration.init (Duration.SText (pretty n +:+ u)) char c
  = Ok (mkDuration (pretty n +:+ "*" +:+ pretty m)
          (Py.VInt (Z.of_N n * m)) (Py.VInt (Z.of_N n * m))) c.
Proof.
  unfold Duration.UNITS. intros Hin Hu.
  repeat (apply elem_of_cons in Hin as [Hin|Hin];
          [ first
              [ discriminate Hin
              | injection Hin as -> ->;
                repeat (apply elem_of_cons in Hu as [->|Hu];
                        [ apply duration_count_unit_gen; reflexivity | ]);
                now apply elem_of_nil in Hu ]
          | ]).
  now apply elem_of_nil in Hin.
Qed.

Lemma duration_count_unit_witness :
  (["h"; "hr"; "hrs"; "hour"; "hours"], Duration.MInt 600) ∈ Duration.UNITS
  /\ "hr" ∈ ["h"; "hr"; "hrs"; "hour"; "hours"]
  /\ Duration.init (Duration.SText (pretty 2%N +:+ "hr")) false with_dexterity
     = Ok (mkDuration (pretty 2%N +:+ "*" +:+ pretty 600)
             (Py.VInt (Z.of_N 2 * 600)) (Py.VInt (Z.of_N 2 * 600)))
          with_dexterity.
Proof.
  assert (H1 : (["h"; "hr"; "hrs"; "hour"; "hours"], Duration.MInt 600)
               ∈ Duration.UNITS)
    by (unfold Duration.UNITS; do 2 apply list_elem_of_further;
        apply list_elem_of_here).
  assert (H2 : "hr" ∈ ["h"; "hr"; "hrs"; "hour"; "hours"])
    by (apply list_elem_of_further, list_elem_of_here).
  split; [ exact H1 | ]. split; [ exact H2 | ].
  exact (duration_count_unit 2 _ 600 "hr" false with_dexterity H1 H2).
Defined.

(** ** The bonuses of a stat *)

Lemma filter_out_absent (b : string) (bs : list string) :
  b ∉ bs -> filter (fun x => x ≠ b) bs = bs.
Proof.
  induction bs as [|x bs IH]; intros Hb; [ reflexivity | ].
  apply not_elem_of_cons in Hb as [Hne Hb].
  rewrite filter_cons_True by congruence. now rewrite IH.
Qed.

Lemma filter_out_repeat (b : string) (bs : list string) k :
  b ∉ bs -> filter (fun x => x ≠ b) (bs ++ repeat b k) = bs.
Proof.
  intros Hb. rewrite filter_app, (filter_out_absent b bs Hb).
  induction k as [|k IH]; cbn [repeat]; [ now rewrite app_nil_r | ].
  rewrite filter_cons_False by (intros H; now apply H). exact IH.
Qed.

Lemma bonuses_remove_cons_eq typ b bs r :
  Stat.bonuses_remove typ b ((typ, bs) :: r)
  = match filter (fun x => x ≠ b) bs with
    | [] => Some r
    | bs' => Some ((typ, bs') :: r)
    end.
Proof. cbn [Stat.bonuses_remove]. now rewrite String.eqb_refl. Qed.

Lemma bonuses_remove_cons_ne typ b t bs r :
  t <> typ ->
  Stat.bonuses_remove typ b ((t, bs) :: r)
  = r' ← Stat.bonuses_remove typ b r; Some ((t, bs) :: r').
Proof.
  intros Hne. cbn [Stat.bonuses_remove].
  destruct (String.eqb_spec t typ); [ contradiction | reflexivity ].
Qed.

Lemma bonuses_append_cons_eq typ b bs r :
  Stat.bonuses_append typ b ((typ, bs) :: r) = (typ, bs ++ [b]) :: r.
Proof. cbn [Stat.bonuses_append]. now rewrite String.eqb_refl. Qed.

Lemma bonuses_append_cons_ne typ b t bs r :
  t <> typ ->
  Stat.bonuses_append typ b ((t, bs) :: r) = (t, bs) :: Stat.bonuses_append typ b r.
Proof.
  intros Hne. cbn [Stat.bonuses_append].
  destruct (String.eqb_spec t typ); [ contradiction | reflexivity ].
Qed.

(** The dict after [k] calls of [add_bonus] with the same bonus. *)
Lemma iter_append_nil typ b k :
  Nat.iter (S k) (Stat.bonuses_append typ b) [] = [(typ, repeat b (S k))].
Proof.
  induction k as [|k IH]; [ reflexivity | ].
  rewrite Nat.iter_succ, IH. rewrite bonuses_append_cons_eq.
  do 2 f_equal. change (repeat b (S k) ++ [b] = b :: repeat b (S k)).
  now rewrite <- repeat_cons.
Qed.

Lemma iter_append_cons_eq typ b bs r k :
  Nat.iter k (Stat.bonuses_append typ b) ((typ, bs) :: r)
  = (typ, bs ++ repeat b k) :: r.
Proof.
  induction k as [|k IH]; [ cbn; now rewrite app_nil_r | ].
  rewrite Nat.iter_succ, IH, bonuses_append_cons_eq.
  do 2 f_equal. rewrite <- app_assoc. f_equal.
  change (repeat b k ++ [b] = b :: repeat b k). now rewrite <- repeat_cons.
Qed.

Lemma iter_append_cons_ne typ b t bs r k :
  t <> typ ->
  Nat.iter k (Stat.bonuses_append typ b) ((t, bs) :: r)
  = (t, bs) :: Nat.iter k (Stat.bonuses_append typ b) r.
Proof.
  intros Hne. induction k as [|k IH]; [ reflexivity | ].
  now rewrite !Nat.iter_succ, IH, bonuses_append_cons_ne.
Qed.

Lemma registered_cons_ne typ b t bs r :
  t <> typ -> registered typ b ((t, bs) :: r) <-> registered typ b r.
Proof.
  intros Hne. unfold registered. split.
  - intros (bs' & Hin & Hb). apply elem_of_cons in Hin as [[= E _]|Hin];
      [ now subst | eauto ].
  - intros (bs' & Hin & Hb). exists bs'. split; [ now apply elem_of_cons; right | exact Hb ].
Qed.

(** Removing a bonus that was added, once or more, gives the dict back. *)
Lemma remove_after_appends typ b k : forall l,
  no_empty_category l -> ~ registered typ b l ->
  Stat.bonuses_remove typ b (Nat.iter (S k) (Stat.bonuses_append typ b) l)
  = Some l.
Proof.
  induction l as [|[t bs] r IH]; intros Hwf Hfresh.
  - rewrite iter_append_nil, bonuses_remove_cons_eq.
    pose proof (filter_out_repeat b [] (S k) (not_elem_of_nil b)) as E.
    rewrite app_nil_l in E. now rewrite E.
  - apply Forall_cons in Hwf as [Hbs Hwf]. cbn [snd] in Hbs.
    destruct (decide (t = typ)) as [->|Hne].
    + rewrite iter_append_cons_eq, bonuses_remove_cons_eq.
      rewrite filter_out_repeat.
      * destruct bs; [ contradiction | reflexivity ].
      * intros Hin. apply Hfresh. exists bs. split; [ apply list_elem_of_here | exact Hin ].
    + rewrite iter_append_cons_ne, bonuses_remove_cons_ne by exact Hne.
      rewrite IH; [ reflexivity | exact Hwf | ].
      now rewrite <- (registered_cons_ne typ b t bs r Hne).
Qed.

(** Removing a bonus that is not there changes nothing, when the dict has
    a list for its type. *)
Lemma remove_absent typ b : forall l l',
  no_empty_category l -> ~ registered typ b l ->
  Stat.bonuses_remove typ b l = Some l' -> l' = l.
Proof.
  induction l as [|[t bs] r IH]; intros l' Hwf Hfresh; [ discriminate | ].
  apply Forall_cons in Hwf as [Hbs Hwf]. cbn [snd] in Hbs.
  destruct (decide (t = typ)) as [->|Hne].
  - rewrite bonuses_remove_cons_eq, filter_out_absent.
    + destruct bs; [ contradiction | now intros [= <-] ].
    + intros Hin. apply Hfresh. exists bs. split; [ apply list_elem_of_here | exact Hin ].
  - rewrite bonuses_remove_cons_ne by exact Hne.
    destruct (Stat.bonuses_remove typ b r) as [r'|] eqn:Er; [ | discriminate ].
    cbn. intros [= <-]. f_equal. apply IH; [ exact Hwf | | reflexivity ].
    now rewrite <- (registered_cons_ne typ b t bs r Hne).
Qed.

Lemma remove_none_iff typ b l :
  Stat.bonuses_remove typ b l = None <-> ~ has_category typ l.
Proof.
  induction l as [|[t bs] r IH].
  - split; [ intros _ (bs & Hin); now apply elem_of_nil in Hin | reflexivity ].
  - destruct (decide (t = typ)) as [->|Hne].
    + rewrite bonuses_remove_cons_eq. split.
      * destruct (filter _ bs); discriminate.
      * intros H. exfalso. apply H. exists bs. apply list_elem_of_here.
    + rewrite bonuses_remove_cons_ne by exact Hne.
      destruct (Stat.bonuses_remove typ b r) as [r'|] eqn:Er; cbn.
      * split; [ discriminate | ]. intros H. exfalso.
        destruct IH as [_ IH]. assert (Hn : ~ has_category typ r).
        { intros (bs' & Hin). apply H. exists bs'. now apply elem_of_cons; right. }
        now specialize (IH Hn).
      * split; [ | reflexivity ]. intros _ (bs' & Hin).
        apply elem_of_cons in Hin as [[= E _]|Hin]; [ now subst | ].
        destruct IH as [IH _]. apply (IH eq_refl). now exists bs'.
Qed.

Lemma set_bonuses_same o : set_bonuses (stat_bonuses o) o = o.
Proof. now destruct o. Qed.

Lemma set_bonuses_twice l l' o : set_bonuses l (set_bonuses l' o) = set_bonuses l o.
Proof. reflexivity. Qed.

Lemma get_bonus_Ok c n o : bonuses c !! n = Some o -> get_bonus n c = Ok o c.
Proof. unfold get_bonus. now intros ->. Qed.

Lemma add_bonus_eq self b c o bo :
  stats c !! self = Some o -> bonuses c !! b = Some bo ->
  Stat.add_bonus self b c
  = Ok tt (with_stats
             (insert self
                (set_bonuses (Stat.bonuses_append (bonus_typ bo) b (stat_bonuses o)) o))
             c).
Proof.
  intros Ho Hb. unfold Stat.add_bonus.
  rewrite (bind_Ok _ _ _ _ _ (get_bonus_Ok _ _ _ Hb)).
  exact (upd_stat_at self
           (fun o => set_bonuses
                       (Stat.bonuses_append (bonus_typ bo) b (stat_bonuses o)) o)
           c o Ho).
Qed.

Lemma del_bonus_eq self b c o bo :
  stats c !! self = Some o -> bonuses c !! b = Some bo ->
  Stat.del_bonus self b c
  = match Stat.bonuses_remove (bonus_typ bo) b (stat_bonuses o) with
    | Some l => Ok tt (with_stats (insert self (set_bonuses l o)) c)
    | None => Raise Py.KeyError c
    end.
Proof.
  intros Ho Hb. unfold Stat.del_bonus.
  rewrite (bind_Ok _ _ _ _ _ (get_bonus_Ok _ _ _ Hb)).
  rewrite (bind_Ok _ _ _ _ _ (get_stat_Ok _ _ _ Ho)).
  destruct (Stat.bonuses_remove _ _ _); [ | reflexivity ].
  apply (upd_stat_at _ _ _ _ Ho).
Qed.

(** [del_bonus] undoes [add_bonus]: for a bonus that is not yet in the list
    of its type, in a dict without empty list, adding the bonus and deleting
    it again leaves the store as it was. *)
Theorem add_del_bonus_inverse (self b : string) (c : Character)
  (o : StatObj) (bo : BonusObj) :
  stats c !! self = Some o -> bonuses c !! b = Some bo ->
  no_empty_category (stat_bonuses o) ->
  ~ registered (bonus_typ bo) b (stat_bonuses o) ->
  exists c1,
    Stat.add_bonus self b c = Ok tt c1
    /\ (exists o1, stats c1 !! self = Some o1
                   /\ registered (bonus_typ bo) b (stat_bonuses o1))
    /\ Stat.del_bonus self b c1 = Ok tt c.
Proof.
  intros Ho Hb Hwf Hfresh. eexists.
  split; [ apply (add_bonus_eq _ _ _ _ _ Ho Hb) | ].
  split.
  - eexists. split; [ cbn; apply lookup_insert_eq | ].
    cbn [stat_bonuses set_bonuses].
    clear Hwf Hfresh. induction (stat_bonuses o) as [|[t bs] r IH].
    + exists [b]. split; apply list_elem_of_here.
    + destruct (decide (t = bonus_typ bo)) as [->|Hne].
      * rewrite bonuses_append_cons_eq. exists (bs ++ [b]).
        split; [ apply list_elem_of_here | ].
        apply elem_of_app. right. apply list_elem_of_here.
      * rewrite bonuses_append_cons_ne by exact Hne.
        now apply registered_cons_ne.
  - erewrite del_bonus_eq; [ | cbn; apply lookup_insert_eq | exact Hb ].
    cbn [stat_bonuses set_bonuses].
    pose proof (remove_after_appends (bonus_typ bo) b 0 _ Hwf Hfresh) as E.
    cbn [Nat.iter nat_rect] in E. rewrite E.
    rewrite set_bonuses_twice, set_bonuses_same, with_insert_insert.
    now rewrite (with_insert_id _ _ _ Ho).
Qed.

Lemma add_del_bonus_inverse_witness :
  stats Cases.before_shield !! "ac" = Some Cases.ac_plain
  /\ bonuses Cases.before_shield !! "shield" = Some Cases.shield
  /\ no_empty_category (stat_bonuses Cases.ac_plain)
  /\ ~ registered (bonus_typ Cases.shield) "shield" (stat_bonuses Cases.ac_plain)
  /\ exists c1,
       Stat.add_bonus "ac" "shield" Cases.before_shield = Ok tt c1
       /\ (exists o1, stats c1 !! "ac" = Some o1
                      /\ registered (bonus_typ Cases.shield) "shield"
                           (stat_bonuses o1))
       /\ Stat.del_bonus "ac" "shield" c1 = Ok tt Cases.before_shield.
Proof.
  assert (H1 : stats Cases.before_shield !! "ac" = Some Cases.ac_plain)
    by (vm_compute; reflexivity).
  assert (H2 : bonuses Cases.before_shield !! "shield" = Some Cases.shield)
    by (vm_compute; reflexivity).
  assert (H3 : no_empty_category (stat_bonuses Cases.ac_plain)) by constructor.
  assert (H4 : ~ registered (bonus_typ Cases.shield) "shield"
                   (stat_bonuses Cases.ac_plain)).
  { intros (bs & Hin & _). now apply elem_of_nil in Hin. }
  split; [ exact H1 | ]. split; [ exact H2 | ]. split; [ exact H3 | ].
  split; [ exact H4 | ].
  exact (add_del_bonus_inverse "ac" "shield" _ _ _ H1 H2 H3 H4).
Defined.

(** [del_bonus] raises KeyError exactly when the stat has no list for the
    type of the bonus, and then changes nothing; where it has one that does
    not hold the bonus, [del_bonus] returns and changes nothing either. *)
Theorem del_bonus_of_absent (self b : string) (c : Character)
  (o : StatObj) (bo : BonusObj) :
  stats c !! self = Some o -> bonuses c !! b = Some bo ->
  (Stat.del_bonus self b c = Raise Py.KeyError c
   <-> ~ has_category (bonus_typ bo) (stat_bonuses o))
  /\ (no_empty_category (stat_bonuses o) ->
      has_category (bonus_typ bo) (stat_bonuses o) ->
      ~ registered (bonus_typ bo) b (stat_bonuses o) ->
      Stat.del_bonus self b c = Ok tt c).
Proof.
  intros Ho Hb. rewrite (del_bonus_eq _ _ _ _ _ Ho Hb). split.
  - rewrite <- (remove_none_iff (bonus_typ bo) b).
    destruct (Stat.bonuses_remove _ _ _); [ | now split ].
    split; discriminate.
  - intros Hwf Hcat Hfresh.
    destruct (Stat.bonuses_remove _ _ _) as [l|] eqn:El.
    + apply (remove_absent _ _ _ _ Hwf Hfresh) in El as ->.
      now rewrite set_bonuses_same, (with_insert_id _ _ _ Ho).
    + apply remove_none_iff in El. contradiction.
Qed.

Lemma del_bonus_of_absent_witness :
  stats Cases.before_tome !! "ac" = Some Cases.ac_shielded
  /\ bonuses Cases.before_tome !! "tome" = Some Cases.tome
  /\ (Stat.del_bonus "ac" "tome" Cases.before_tome
       = Raise Py.KeyError Cases.before_tome
       <-> ~ has_category (bonus_typ Cases.tome) (stat_bonuses Cases.ac_shielded))
  /\ (no_empty_category (stat_bonuses Cases.ac_shielded) ->
      has_category (bonus_typ Cases.tome) (stat_bonuses Cases.ac_shielded) ->
      ~ registered (bonus_typ Cases.tome) "tome" (stat_bonuses Cases.ac_shielded) ->
      Stat.del_bonus "ac" "tome" Cases.before_tome = Ok tt Cases.before_tome).
Proof.
  assert (H1 : stats Cases.before_tome !! "ac" = Some Cases.ac_shielded)
    by (vm_compute; reflexivity).
  assert (H2 : bonuses Cases.before_tome !! "tome" = Some Cases.tome)
    by (vm_compute; reflexivity).
  split; [ exact H1 | ]. split; [ exact H2 | ].
  exact (del_bonus_of_absent "ac" "tome" _ _ _ H1 H2).
Defined.

(** ** What [calc] leaves alone *)

Lemma outputs_only_refl c : outputs_only c c.
Proof. split; [ apply frame_refl | apply same_shape_refl ]. Qed.

Lemma outputs_only_trans c1 c2 c3 :
  outputs_only c1 c2 -> outputs_only c2 c3 -> outputs_only c1 c3.
Proof.
  intros [F1 S1] [F2 S2].
  split; [ eapply frame_trans; eauto | eapply same_shape_trans; eauto ].
Qed.

Section Keeps.

Variable R : Character -> Character -> Prop.
Hypothesis R_refl : forall c, R c c.
Hypothesis R_trans : forall c1 c2 c3, R c1 c2 -> R c2 c3 -> R c1 c3.

Lemma keeps_ret {A} (a : A) : keeps R (ret a).
Proof. intros c. apply R_refl. Qed.

Lemma keeps_raise {A} e : keeps R (@raise A e).
Proof. intros c. apply R_refl. Qed.

Lemma keeps_read {A} (f : Character -> A) : keeps R (read f).
Proof. intros c. apply R_refl. Qed.

Lemma keeps_bind {A B} (m : M A) (k : A -> M B) :
  keeps R m -> (forall a, keeps R (k a)) -> keeps R (bind m k).
Proof.
  intros Hm Hk c. unfold bind. specialize (Hm c).
  destruct (m c) as [a c1|e c1|]; [ | exact Hm | exact I ].
  specialize (Hk a c1). destruct (k a c1); eauto.
Qed.

Lemma keeps_for_each {A} (l : list A) (body : A -> M unit) :
  (forall x, keeps R (body x)) -> keeps R (for_each l body).
Proof.
  intros Hb. induction l as [|x l IH]; cbn [for_each]; [ apply keeps_ret | ].
  apply keeps_bind; [ apply Hb | intros _; exact IH ].
Qed.

Lemma keeps_foldM {A B} (f : B -> A -> M B) (l : list A) :
  (forall b x, keeps R (f b x)) -> forall b, keeps R (foldM f l b).
Proof.
  intros Hf. induction l as [|x l IH]; intros b; cbn [foldM];
    [ apply keeps_ret | ].
  apply keeps_bind; [ apply Hf | exact IH ].
Qed.

Lemma keeps_get_stat n : keeps R (get_stat n).
Proof. intros c. unfold get_stat. destruct (stats c !! n); apply R_refl. Qed.

Lemma keeps_get_bonus n : keeps R (get_bonus n).
Proof. intros c. unfold get_bonus. destruct (bonuses c !! n); apply R_refl. Qed.

Lemma keeps_get_effect n : keeps R (get_effect n).
Proof. intros c. unfold get_effect. destruct (effects c !! n); apply R_refl. Qed.

Lemma keeps_char_stats n : keeps R (char_stats n).
Proof.
  intros c. unfold char_stats. case_bool_decide; [ apply keeps_get_stat | apply R_refl ].
Qed.

Lemma keeps_char_bonuses n : keeps R (char_bonuses n).
Proof. intros c. unfold char_bonuses. destruct (bonuses c !! n); apply R_refl. Qed.

Lemma keeps_eval sc t : keeps R (eval sc t).
Proof.
  intros c. unfold eval. destruct (Py.parse t) as [e|]; [ | apply R_refl ].
  destruct (eval_expr sc c e); apply R_refl.
Qed.

Lemma keeps_lift_eres r : keeps R (lift_eres r).
Proof. destruct r; [ apply keeps_ret | apply keeps_raise ]. Qed.

Lemma keeps_Ok {A} (m : M A) c a c' : keeps R m -> m c = Ok a c' -> R c c'.
Proof. intros Hm E. specialize (Hm c). now rewrite E in Hm. Qed.

Lemma keeps_Raise {A} (m : M A) c e c' : keeps R m -> m c = Raise e c' -> R c c'.
Proof. intros Hm E. specialize (Hm c). now rewrite E in Hm. Qed.

End Keeps.

Lemma upd_stat_outputs_only n f :
  (forall o, shape (f o) = shape o) -> keeps outputs_only (upd_stat n f).
Proof.
  intros Hf c. cbn. split; [ apply frame_with_stats | ].
  intros t. cbn. rewrite lookup_alter. case_decide as E; [ subst t | reflexivity ].
  destruct (stats c !! n) as [o|]; cbn; [ now rewrite Hf | reflexivity ].
Qed.

Ltac keeps_step :=
  first
    [ apply (keeps_ret _ outputs_only_refl)
    | apply (keeps_raise _ outputs_only_refl)
    | apply (keeps_read _ outputs_only_refl)
    | apply (keeps_get_stat _ outputs_only_refl)
    | apply (keeps_get_bonus _ outputs_only_refl)
    | apply (keeps_char_stats _ outputs_only_refl)
    | apply (keeps_eval _ outputs_only_refl)
    | apply (keeps_lift_eres _ outputs_only_refl)
    | apply upd_stat_outputs_only; intros; reflexivity
    | apply (keeps_bind _ outputs_only_trans); [ | intros ] ].

Lemma add_category_outputs_only self tb :
  keeps outputs_only (Stat.add_category self tb).
Proof.
  unfold Stat.add_category. keeps_step.
  - unfold Stat.active_values.
    apply (keeps_foldM _ outputs_only_refl outputs_only_trans).
    intros b x. repeat keeps_step.
  - keeps_step; [ keeps_step | ].
    destruct (Stat.contribution _ _); repeat keeps_step.
Qed.

Lemma recompute_outputs_only self : keeps outputs_only (Stat.recompute self).
Proof.
  unfold Stat.recompute. keeps_step; [ keeps_step | ].
  destruct (negb (stat_char a)); [ keeps_step | ].
  do 4 (keeps_step; [ keeps_step | ]).
  keeps_step.
  - apply (keeps_for_each _ outputs_only_refl outputs_only_trans).
    intros tb. apply add_category_outputs_only.
  - repeat keeps_step.
Qed.

(** Whether it returns or raises, and however far it propagates, [calc]
    writes nothing but the [value] and [normal] of stats: every other field
    of every stat, the keys, the bonuses, the effects and the configuration
    are as before. *)
Theorem calc_writes_outputs_only (fuel : nat) (self : string) :
  keeps outputs_only (Stat.calc fuel self).
Proof.
  revert self. induction fuel as [|fuel IH]; intros self; [ intros c; exact I | ].
  cbn [Stat.calc]. keeps_step; [ apply recompute_outputs_only | ].
  destruct a; [ | keeps_step ].
  keeps_step; [ keeps_step | ].
  apply (keeps_for_each _ outputs_only_refl outputs_only_trans).
  intros n. keeps_step; [ keeps_step | apply IH ].
Qed.

(** The same, as a lemma for the proofs below. *)
Lemma calc_outputs_only fuel self : keeps outputs_only (Stat.calc fuel self).
Proof.
  revert self. induction fuel as [|fuel IH]; intros self; [ intros c; exact I | ].
  cbn [Stat.calc]. keeps_step; [ apply recompute_outputs_only | ].
  destruct a; [ | keeps_step ].
  keeps_step; [ keeps_step | ].
  apply (keeps_for_each _ outputs_only_refl outputs_only_trans).
  intros n. keeps_step; [ keeps_step | apply IH ].
Qed.

(** ** Plugging a bonus in and out *)

Lemma shape_idem o : shape (shape o) = shape o.
Proof. reflexivity. Qed.

Lemma with_added_shape typ b k o : with_added typ b k (shape o) = with_added typ b k o.
Proof. reflexivity. Qed.

Lemma with_added_0 typ b o : with_added typ b 0 o = shape o.
Proof. now destruct o. Qed.

Lemma with_added_succ typ b k o :
  with_added typ b k
    (set_bonuses (Stat.bonuses_append typ b (stat_bonuses o)) o)
  = with_added typ b (S k) o.
Proof.
  unfold with_added. cbn [stat_bonuses set_bonuses shape set_value set_normal].
  now rewrite Nat.iter_succ_r.
Qed.

Lemma frame_bonuses c c' : frame c c' -> bonuses c' = bonuses c.
Proof. now intros (_ & H & _). Qed.

Lemma frame_keys c c' : frame c c' -> stats_keys c' = stats_keys c.
Proof. now intros (H & _). Qed.

(** The loop of [Bonus.plug]: every stat gets the bonus as many times as
    the bonus names it. *)
Lemma bonus_plug_loop fuel self bo names : forall c c',
  bonuses c !! self = Some bo ->
  for_each names
    (fun name =>
       _ <~ char_stats name ;; Stat.add_bonus name self ;;; Stat.calc fuel name) c
  = Ok tt c' ->
  frame c c'
  /\ forall t, shape <$> stats c' !! t
               = with_added (bonus_typ bo) self (times t names) <$> stats c !! t.
Proof.
  induction names as [|n names IH]; intros c c' Hb H; cbn [for_each times] in *.
  - injection H as <-. split; [ apply frame_refl | ]. intros t.
    destruct (stats c !! t) as [o|]; cbn; [ now rewrite with_added_0 | reflexivity ].
  - bind_inv H u c1 Hn. bind_inv Hn o c0 Hk.
    apply char_stats_inv in Hk as (-> & _ & Ho).
    bind_inv Hn u c2 Ha. rewrite (add_bonus_eq _ _ _ _ _ Ho Hb) in Ha.
    injection Ha as <-.
    pose proof (keeps_Ok _ _ _ _ _ (calc_outputs_only fuel n) Hn) as [Hf1 Hs1].
    assert (Hf : frame c c1).
    { eapply frame_trans; [ apply frame_with_stats | exact Hf1 ]. }
    destruct (IH c1 c') as [Hf2 Hs2]; [ | exact H | ].
    { rewrite (frame_bonuses _ _ Hf). exact Hb. }
    split; [ eapply frame_trans; eauto | ].
    intros t. rewrite Hs2.
    transitivity (with_added (bonus_typ bo) self (times t names)
                    <$> (shape <$> stats c1 !! t)).
    { destruct (stats c1 !! t); reflexivity. }
    rewrite (Hs1 t). cbn [stats with_stats].
    destruct (String.eqb_spec n t) as [->|Hne].
    + rewrite lookup_insert_eq, Ho. cbn [fmap option_fmap option_map].
      f_equal. rewrite with_added_shape. apply with_added_succ.
    + rewrite lookup_insert_ne by exact Hne.
      destruct (stats c !! t); reflexivity.
Qed.

Lemma removals_succ typ b k l :
  removals typ b (S k) l
  = match Stat.bonuses_remove typ b l with
    | Some l1 => removals typ b k l1
    | None => None
    end.
Proof.
  unfold removals. rewrite Nat.iter_succ_r. cbn [mbind option_bind].
  destruct (Stat.bonuses_remove typ b l); [ reflexivity | ].
  induction k as [|k IH]; [ reflexivity | ]. now rewrite Nat.iter_succ, IH.
Qed.

(** The loop of [Bonus.unplug]. *)
Lemma bonus_unplug_loop fuel self bo names : forall c c',
  bonuses c !! self = Some bo ->
  for_each names
    (fun name =>
       _ <~ char_stats name ;; Stat.del_bonus name self ;;; Stat.calc fuel name) c
  = Ok tt c' ->
  frame c c'
  /\ forall t,
       match stats c !! t with
       | Some o =>
           exists l', removals (bonus_typ bo) self (times t names) (stat_bonuses o)
                      = Some l'
                      /\ shape <$> stats c' !! t = Some (set_bonuses l' (shape o))
       | None => stats c' !! t = None
       end.
Proof.
  induction names as [|n names IH]; intros c c' Hb H; cbn [for_each times] in *.
  - injection H as <-. split; [ apply frame_refl | ]. intros t.
    destruct (stats c !! t) as [o|] eqn:Ho; [ | reflexivity ].
    exists (stat_bonuses o). split; [ reflexivity | ]. cbn. now destruct o.
  - bind_inv H u c1 Hn. bind_inv Hn o c0 Hk.
    apply char_stats_inv in Hk as (-> & _ & Ho).
    bind_inv Hn u c2 Hd. rewrite (del_bonus_eq _ _ _ _ _ Ho Hb) in Hd.
    destruct (Stat.bonuses_remove (bonus_typ bo) self (stat_bonuses o))
      as [l1|] eqn:El; [ | discriminate ].
    injection Hd as <-.
    pose proof (keeps_Ok _ _ _ _ _ (calc_outputs_only fuel n) Hn) as [Hf1 Hs1].
    assert (Hf : frame c c1).
    { eapply frame_trans; [ apply frame_with_stats | exact Hf1 ]. }
    destruct (IH c1 c') as [Hf2 Hs2]; [ | exact H | ].
    { rewrite (frame_bonuses _ _ Hf). exact Hb. }
    split; [ eapply frame_trans; eauto | ].
    intros t. specialize (Hs2 t). specialize (Hs1 t). cbn [stats with_stats] in Hs1.
    destruct (String.eqb_spec n t) as [->|Hne].
    + rewrite Ho. rewrite lookup_insert_eq in Hs1.
      destruct (stats c1 !! t) as [o1|]; [ | discriminate ].
      apply (inj Some) in Hs1.
      destruct Hs2 as (l' & Hl' & Hsh). exists l'. split.
      * cbn [Nat.add]. rewrite removals_succ, El.
        assert (E1 : stat_bonuses o1 = l1)
          by (now apply (f_equal stat_bonuses) in Hs1).
        now rewrite E1 in Hl'.
      * rewrite Hsh. f_equal.
        transitivity (set_bonuses l' (shape (shape o1))); [ reflexivity | ].
        now rewrite Hs1.
    + rewrite lookup_insert_ne in Hs1 by exact Hne. cbn [Nat.add].
      destruct (stats c !! t) as [o0|], (stats c1 !! t) as [o1|];
        try discriminate; [ | exact Hs2 ].
      apply (inj Some) in Hs1. destruct Hs2 as (l' & Hl' & Hsh). exists l'.
      split.
      * assert (E1 : stat_bonuses o1 = stat_bonuses o0)
          by (now apply (f_equal stat_bonuses) in Hs1).
        now rewrite E1 in Hl'.
      * rewrite Hsh. f_equal.
        transitivity (set_bonuses l' (shape (shape o1))); [ reflexivity | ].
        now rewrite Hs1.
Qed.

Lemma removals_fresh typ b k : forall l l',
  no_empty_category l -> ~ registered typ b l ->
  removals typ b k l = Some l' -> l' = l.
Proof.
  induction k as [|k IH]; intros l l' Hwf Hfresh; [ now intros [= <-] | ].
  rewrite removals_succ.
  destruct (Stat.bonuses_remove typ b l) as [l1|] eqn:El; [ | discriminate ].
  apply (remove_absent _ _ _ _ Hwf Hfresh) in El as ->. now apply IH.
Qed.

Lemma removals_after_appends typ b k l l' :
  no_empty_category l -> ~ registered typ b l ->
  removals typ b k (Nat.iter k (Stat.bonuses_append typ b) l) = Some l' ->
  l' = l.
Proof.
  intros Hwf Hfresh. destruct k as [|k]; [ now intros [= <-] | ].
  rewrite removals_succ, (remove_after_appends typ b k l Hwf Hfresh).
  now apply removals_fresh.
Qed.

Lemma upd_bonus_at n f c o :
  bonuses c !! n = Some o ->
  upd_bonus n f c = Ok tt (with_bonuses (insert n (f o)) c).
Proof.
  intros Ho. unfold upd_bonus, with_bonuses. f_equal. f_equal.
  apply map_eq. intros t. rewrite lookup_alter, lookup_insert.
  case_decide as E; [ subst t; now rewrite Ho | reflexivity ].
Qed.

Lemma times_absent t l : t ∉ l -> times t l = 0%nat.
Proof.
  induction l as [|x l IH]; intros Hn; [ reflexivity | ].
  apply not_elem_of_cons in Hn as [Hne Hn]. cbn [times].
  destruct (String.eqb_spec x t); [ congruence | ]. now rewrite IH.
Qed.

(** [Bonus.unplug] undoes [Bonus.plug].  For a bonus that the stats it names
    do not hold yet, where those stats have no empty list of bonuses, a
    [plug] and an [unplug] that return leave every stat as it was, outputs
    apart, and the bonus unbound; the bonus is as it was except that [plug]
    has made it active when its type is permanent. *)
Theorem bonus_plug_unplug_inverse (fuel fuel' : nat) (self : string)
  (c c1 c2 : Character) (me : BonusObj) :
  bonuses c !! self = Some me ->
  (forall t o, t ∈ bonus_stats me -> stats c !! t = Some o ->
               no_empty_category (stat_bonuses o)
               /\ ~ registered (bonus_typ me) self (stat_bonuses o)) ->
  Bonus.plug fuel self c = Ok tt c1 ->
  Bonus.unplug fuel' self c1 = Ok tt c2 ->
  same_shape c c2
  /\ stats_keys c2 = stats_keys c
  /\ effects c2 = effects c
  /\ bonuses c2 = <[self := after_plug_unplug (BONUS_PERM c) me]> (bonuses c).
Proof.
  intros Hb Hfresh Hp Hu.
  unfold Bonus.plug in Hp. bind_inv Hp me0 c0 Hg.
  unfold get_bonus in Hg. rewrite Hb in Hg. injection Hg as <- <-.
  bind_inv Hp types c0 Hr. injection Hr as <- <-.
  destruct (negb (bool_decide (BONUS_TYPES c = [])) && _); [ discriminate | ].
  bind_inv Hp u ca Hloop.
  destruct (bonus_plug_loop _ _ _ _ _ _ Hb Hloop) as [Hfa Hsa].
  assert (Hba : bonuses ca !! self = Some me)
    by (rewrite (frame_bonuses _ _ Hfa); exact Hb).
  bind_inv Hp u cb Hc. rewrite (upd_bonus_at _ _ _ _ Hba) in Hc. injection Hc as <-.
  bind_inv Hp perm c0 Hr. injection Hr as <- <-.
  cbn [BONUS_PERM with_bonuses] in Hp.
  assert (Hperm : BONUS_PERM ca = BONUS_PERM c) by (now destruct Hfa as (_&_&_&_&?&_)).
  set (me1 := if Bonus.is_empty (bonus_condition me)
                 && Bonus.mem (bonus_typ me) (BONUS_PERM c)
              then set_bonus_active true (set_bonus_char true me)
              else set_bonus_char true me).
  assert (Hc1 : c1 = with_bonuses (insert self me1) ca).
  { subst me1. rewrite <- Hperm.
    destruct (Bonus.is_empty (bonus_condition me)
              && Bonus.mem (bonus_typ me) (BONUS_PERM ca)).
    - rewrite (upd_bonus_at _ _ _ (set_bonus_char true me)) in Hp
        by (cbn; apply lookup_insert_eq).
      injection Hp as <-. unfold with_bonuses; cbn. now rewrite insert_insert_eq.
    - now injection Hp as <-. }
  clear Hp. subst c1.
  assert (Hb1 : bonuses (with_bonuses (insert self me1) ca) !! self = Some me1)
    by (cbn; apply lookup_insert_eq).
  assert (Htyp : bonus_typ me1 = bonus_typ me /\ bonus_stats me1 = bonus_stats me
                 /\ bonus_char me1 = true).
  { subst me1. destruct (_ && _); auto. }
  destruct Htyp as (Htyp & Hst & Hch).
  unfold Bonus.unplug in Hu. bind_inv Hu me0 c0 Hg.
  unfold get_bonus in Hg. rewrite Hb1 in Hg. injection Hg as <- <-.
  rewrite Hch in Hu. cbn [negb] in Hu. rewrite Hst in Hu.
  bind_inv Hu u cd Hloop2.
  destruct (bonus_unplug_loop _ _ _ _ _ _ Hb1 Hloop2) as [Hfd Hsd].
  rewrite Htyp in Hsd.
  assert (Hbd : bonuses cd !! self = Some me1)
    by (rewrite (frame_bonuses _ _ Hfd); exact Hb1).
  rewrite (upd_bonus_at _ _ _ _ Hbd) in Hu. injection Hu as <-.
  split_and!.
  - intros t. cbn [stats with_bonuses]. specialize (Hsa t). specialize (Hsd t).
    cbn [stats with_bonuses] in Hsd.
    destruct (stats c !! t) as [o|] eqn:Ho.
    + cbn in Hsa. destruct (stats ca !! t) as [oa|]; [ | discriminate ].
      apply (inj Some) in Hsa. destruct Hsd as (l' & Hl' & Hsh). rewrite Hsh.
      cbn. f_equal.
      assert (El : l' = stat_bonuses o).
      { destruct (decide (t ∈ bonus_stats me)) as [Hin|Hout].
        - destruct (Hfresh t o Hin Ho) as [Hwf Hfr].
          apply (removals_after_appends (bonus_typ me) self
                   (times t (bonus_stats me)) _ _ Hwf Hfr).
          assert (E1 : stat_bonuses oa
                       = Nat.iter (times t (bonus_stats me))
                           (Stat.bonuses_append (bonus_typ me) self) (stat_bonuses o)).
          { transitivity (stat_bonuses (shape oa)); [ reflexivity | ].
            now rewrite Hsa. }
          now rewrite E1 in Hl'.
        - rewrite (times_absent _ _ Hout) in Hl', Hsa.
          cbn in Hl'. injection Hl' as <-.
          rewrite with_added_0 in Hsa.
          transitivity (stat_bonuses (shape oa)); [ reflexivity | ].
          now rewrite Hsa. }
      subst l'. transitivity (set_bonuses (stat_bonuses o) (shape (shape oa)));
        [ reflexivity | ].
      rewrite Hsa. unfold with_added. now destruct o.
    + cbn in Hsa. destruct (stats ca !! t); [ discriminate | ].
      now rewrite Hsd.
  - cbn. rewrite (frame_keys _ _ Hfd). cbn. apply (frame_keys _ _ Hfa).
  - cbn. destruct Hfd as (_ & _ & -> & _). cbn. now destruct Hfa as (_ & _ & -> & _).
  - cbn. rewrite (frame_bonuses _ _ Hfd). cbn. rewrite (frame_bonuses _ _ Hfa).
    rewrite !insert_insert_eq. f_equal. subst me1. unfold after_plug_unplug.
    destruct (_ && _); reflexivity.
Qed.

Lemma bonus_plug_unplug_inverse_witness :
  bonuses Cases.before_shield !! "shield" = Some Cases.shield
  /\ Bonus.plug 1 "shield" Cases.before_shield = Ok tt with_shield
  /\ Bonus.unplug 1 "shield" with_shield
     = Ok tt (run (Bonus.unplug 1 "shield") with_shield)
  /\ same_shape Cases.before_shield (run (Bonus.unplug 1 "shield") with_shield)
  /\ stats_keys (run (Bonus.unplug 1 "shield") with_shield)
     = stats_keys Cases.before_shield
  /\ effects (run (Bonus.unplug 1 "shield") with_shield)
     = effects Cases.before_shield
  /\ bonuses (run (Bonus.unplug 1 "shield") with_shield)
     = <["shield" := after_plug_unplug (BONUS_PERM Cases.before_shield)
                       Cases.shield]> (bonuses Cases.before_shield).
Proof.
  assert (H1 : bonuses Cases.before_shield !! "shield" = Some Cases.shield)
    by (vm_compute; reflexivity).
  assert (H2 : Bonus.plug 1 "shield" Cases.before_shield = Ok tt with_shield)
    by (vm_compute; reflexivity).
  assert (H3 : Bonus.unplug 1 "shield" with_shield
               = Ok tt (run (Bonus.unplug 1 "shield") with_shield))
    by (vm_compute; reflexivity).
  split; [ exact H1 | ]. split; [ exact H2 | ]. split; [ exact H3 | ].
  apply (bonus_plug_unplug_inverse 1 1 "shield" Cases.before_shield with_shield
           (run (Bonus.unplug 1 "shield") with_shield) Cases.shield H1);
    [ | exact H2 | exact H3 ].
  intros t o Ht Ho. apply list_elem_of_singleton in Ht as ->.
  assert (E : stats Cases.before_shield !! "ac" = Some Cases.ac_plain)
    by (vm_compute; reflexivity).
  rewrite E in Ho. injection Ho as <-.
  split; [ constructor | ]. intros (bs & Hin & _). now apply elem_of_nil in Hin.
Defined.

(** ** Switching bonuses *)

Lemma bonus_calc_outputs_only fuel self : keeps outputs_only (Bonus.calc fuel self).
Proof.
  unfold Bonus.calc. keeps_step; [ keeps_step | ].
  apply (keeps_for_each _ outputs_only_refl outputs_only_trans). intros name.
  keeps_step.
  - unfold Bonus.need_char. destruct (bonus_char a); keeps_step.
  - keeps_step; [ keeps_step | apply calc_outputs_only ].
Qed.

Lemma outputs_only_with_bonuses f c c' :
  outputs_only (with_bonuses f c) c' ->
  same_shape c c' /\ bonuses c' = f (bonuses c)
  /\ stats_keys c' = stats_keys c /\ effects c' = effects c
  /\ BONUS_PERM c' = BONUS_PERM c.
Proof.
  intros [(Hk & Hb & He & _ & Hp & _) Hs]. cbn in *. auto.
Qed.

(** [toggle] of a bonus that is not permanent, where it returns. *)
Lemma toggle_inv fuel self new c c1 me :
  bonuses c !! self = Some me ->
  permanent (BONUS_PERM c) me = false ->
  Bonus.toggle fuel self new c = Ok tt c1 ->
  Bonus.calc fuel self
    (with_bonuses
       (insert self (set_bonus_active new (set_bonus_last (bonus_active me) me))) c)
  = Ok tt c1.
Proof.
  intros Hb Hperm H. unfold Bonus.toggle in H. bind_inv H me0 c0 Hg.
  unfold get_bonus in Hg. rewrite Hb in Hg. injection Hg as <- <-.
  assert (Hupd : forall c2,
             (upd_bonus self (fun b => set_bonus_last (bonus_active b) b) ;;;
              upd_bonus self (set_bonus_active new) ;;;
              Bonus.calc fuel self) c = Ok tt c2 ->
             Bonus.calc fuel self
               (with_bonuses
                  (insert self
                     (set_bonus_active new (set_bonus_last (bonus_active me) me))) c)
             = Ok tt c2).
  { intros c2 H2. bind_inv H2 u ca Ha.
    rewrite (upd_bonus_at _ _ _ _ Hb) in Ha. injection Ha as <-.
    bind_inv H2 u cb Hb2.
    rewrite (upd_bonus_at _ _ _ (set_bonus_last (bonus_active me) me)) in Hb2
      by (cbn; apply lookup_insert_eq).
    injection Hb2 as <-.
    unfold with_bonuses in H2 |- *; cbn in H2 |- *.
    now rewrite insert_insert_eq in H2. }
  unfold permanent in Hperm.
  destruct (Bonus.is_empty (bonus_condition me)); [ | now apply Hupd ].
  cbn [andb] in Hperm. bind_inv H u c0 Hn.
  unfold Bonus.need_char in Hn. destruct (bonus_char me); [ | discriminate ].
  injection Hn as <-. bind_inv H perm c0 Hr. injection Hr as <- <-.
  rewrite Hperm in H. now apply Hupd.
Qed.

Lemma set_active_last_same (a : bool) me :
  set_bonus_active a (set_bonus_last a me) = set_bonus_last a (set_bonus_active a me).
Proof. reflexivity. Qed.

(** [revert] after [toggle] gives a bonus that is not permanent the state it
    had before the [toggle], whatever the [toggle] asked for; the stats are
    as before, outputs apart; and a second [revert] changes nothing. *)
Theorem toggle_then_revert (fuel fuel' : nat) (self : string) (new : bool)
  (c c1 c2 : Character) (me : BonusObj) :
  bonuses c !! self = Some me ->
  permanent (BONUS_PERM c) me = false ->
  Bonus.toggle fuel self new c = Ok tt c1 ->
  Bonus.revert fuel' self c1 = Ok tt c2 ->
  bonuses c2 = <[self := set_bonus_last (bonus_active me) me]> (bonuses c)
  /\ bonus_active <$> bonuses c2 !! self = Some (bonus_active me)
  /\ same_shape c c2
  /\ forall k, Bonus.revert k self c2 = Ok tt c2.
Proof.
  intros Hb Hperm Ht Hr. apply (toggle_inv _ _ _ _ _ _ Hb Hperm) in Ht.
  apply (keeps_Ok _ _ _ _ _ (bonus_calc_outputs_only fuel self)) in Ht.
  apply outputs_only_with_bonuses in Ht as (Hs1 & Hb1 & _).
  set (me1 := set_bonus_active new (set_bonus_last (bonus_active me) me)) in *.
  assert (Hl1 : bonuses c1 !! self = Some me1)
    by (rewrite Hb1; apply lookup_insert_eq).
  unfold Bonus.revert in Hr. bind_inv Hr me0 c0 Hg.
  unfold get_bonus in Hg. rewrite Hl1 in Hg. injection Hg as <- <-.
  assert (Hfinal : forall c3,
             bonuses c3 = <[self := set_bonus_last (bonus_active me) me]> (bonuses c) ->
             same_shape c c3 ->
             bonuses c3 = <[self := set_bonus_last (bonus_active me) me]> (bonuses c)
             /\ bonus_active <$> bonuses c3 !! self = Some (bonus_active me)
             /\ same_shape c c3
             /\ forall k, Bonus.revert k self c3 = Ok tt c3).
  { intros c3 Hb3 Hs3. split; [ exact Hb3 | ].
    assert (Hl3 : bonuses c3 !! self = Some (set_bonus_last (bonus_active me) me))
      by (rewrite Hb3; apply lookup_insert_eq).
    split; [ now rewrite Hl3 | ]. split; [ exact Hs3 | ].
    intros k. unfold Bonus.revert, bind, get_bonus. rewrite Hl3.
    cbn [bonus_active bonus_last set_bonus_last]. now rewrite Bool.eqb_reflx. }
  cbn [bonus_active bonus_last me1 set_bonus_active set_bonus_last] in Hr.
  destruct (Bool.eqb new (bonus_active me)) eqn:En.
  - injection Hr as <-. apply Bool.eqb_prop in En. apply Hfinal; [ | exact Hs1 ].
    rewrite Hb1. f_equal. subst me1. rewrite En. now destruct me.
  - bind_inv Hr u ca Ha. rewrite (upd_bonus_at _ _ _ _ Hl1) in Ha.
    injection Ha as <-.
    apply (keeps_Ok _ _ _ _ _ (bonus_calc_outputs_only fuel' self)) in Hr.
    apply outputs_only_with_bonuses in Hr as (Hs2 & Hb2 & _).
    apply Hfinal; [ | eapply same_shape_trans; eauto ].
    rewrite Hb2, Hb1, insert_insert_eq. f_equal.
Qed.

Lemma toggle_then_revert_witness :
  bonuses with_shield !! "shield"
  = Some (set_bonus_char true Cases.shield)
  /\ permanent (BONUS_PERM with_shield) (set_bonus_char true Cases.shield) = false
  /\ Bonus.toggle 1 "shield" false with_shield
     = Ok tt (run (Bonus.toggle 1 "shield" false) with_shield)
  /\ bonus_active
       <$> bonuses (run (Bonus.revert 1 "shield")
                      (run (Bonus.toggle 1 "shield" false) with_shield)) !! "shield"
     = Some true.
Proof.
  assert (H1 : bonuses with_shield !! "shield"
               = Some (set_bonus_char true Cases.shield))
    by (vm_compute; reflexivity).
  assert (H2 : permanent (BONUS_PERM with_shield)
                 (set_bonus_char true Cases.shield) = false)
    by (vm_compute; reflexivity).
  assert (H3 : Bonus.toggle 1 "shield" false with_shield
               = Ok tt (run (Bonus.toggle 1 "shield" false) with_shield))
    by (vm_compute; reflexivity).
  assert (H4 : Bonus.revert 1 "shield"
                 (run (Bonus.toggle 1 "shield" false) with_shield)
               = Ok tt (run (Bonus.revert 1 "shield")
                          (run (Bonus.toggle 1 "shield" false) with_shield)))
    by (vm_compute; reflexivity).
  split; [ exact H1 | ]. split; [ exact H2 | ]. split; [ exact H3 | ].
  exact (proj1 (proj2 (toggle_then_revert 1 1 "shield" false _ _ _ _ H1 H2 H3 H4))).
Defined.

(** ** Plugging an effect in *)

Lemma char_bonuses_Ok c n o : bonuses c !! n = Some o -> char_bonuses n c = Ok o c.
Proof. unfold char_bonuses. now intros ->. Qed.

(** An effect made with [active=False] cannot be plugged in: [plug] enters
    the name of the effect in its first bonus and calls [off] on it, which
    raises AttributeError on a bonus that an effect has claimed. *)
Theorem effect_plug_inactive_raises (fuel : nat) (self b : string)
  (l : list string) (c : Character) (me : EffectObj) (bo : BonusObj) :
  effects c !! self = Some me ->
  effect_active me = Some false ->
  effect_bonuses me = b :: l ->
  bonuses c !! b = Some bo ->
  Effect.plug fuel self c
  = Raise Py.AttributeError (with_bonuses (insert b (claimed self bo)) c).
Proof.
  intros He Ha Hl Hb. unfold Effect.plug.
  unfold bind at 1, get_effect at 1. rewrite He, Hl, Ha. cbn [for_each].
  unfold bind at 1. unfold bind at 1.
  rewrite (bind_Ok _ _ _ _ _ (char_bonuses_Ok _ _ _ Hb)).
  rewrite (bind_Ok _ _ _ _ _ (upd_bonus_at _ _ _ _ Hb)).
  rewrite (off_raises_when_claimed fuel b _ (claimed self bo));
    [ reflexivity | cbn; apply lookup_insert_eq | ].
  cbn. intros E. apply (f_equal (fun s => bool_decide (self ∈ s))) in E.
  rewrite bool_decide_true in E by set_solver.
  rewrite bool_decide_false in E by set_solver. discriminate.
Qed.

Lemma effect_plug_inactive_raises_witness :
  effects Cases.before_curse !! "curse" = Some Cases.curse
  /\ bonuses Cases.before_curse !! "shield"
     = Some (set_bonus_char true Cases.shield)
  /\ Effect.plug 1 "curse" Cases.before_curse
     = Raise Py.AttributeError
         (with_bonuses
            (insert "shield" (claimed "curse" (set_bonus_char true Cases.shield)))
            Cases.before_curse).
Proof.
  assert (H1 : effects Cases.before_curse !! "curse" = Some Cases.curse)
    by (vm_compute; reflexivity).
  assert (H2 : bonuses Cases.before_curse !! "shield"
               = Some (set_bonus_char true Cases.shield))
    by (vm_compute; reflexivity).
  split; [ exact H1 | ]. split; [ exact H2 | ].
  exact (effect_plug_inactive_raises 1 "curse" "shield" [] _ _ _ H1 eq_refl eq_refl H2).
Defined.

Lemma claim_all_is_Some self names : forall m b,
  is_Some (claim_all self names m !! b) <-> is_Some (m !! b).
Proof.
  unfold claim_all. induction names as [|n names IH]; intros m b; cbn [fold_left];
    [ reflexivity | ].
  rewrite IH, lookup_alter. case_decide as E; [ subst | reflexivity ].
  apply fmap_is_Some.
Qed.

Lemma effect_plug_loop_unset self names : forall c,
  (forall b, b ∈ names -> is_Some (bonuses c !! b)) ->
  for_each names
    (fun name =>
       _ <~ char_bonuses name ;;
       upd_bonus name (fun b => set_bonus_usedby ({[self]} ∪ bonus_usedby b) b) ;;;
       ret tt) c
  = Ok tt (with_bonuses (claim_all self names) c).
Proof.
  induction names as [|n names IH]; intros c Hall; cbn [for_each];
    [ now destruct c | ].
  destruct (Hall n (list_elem_of_here _ _)) as [bo Hb].
  unfold bind at 1. unfold bind at 1.
  rewrite (char_bonuses_Ok _ _ _ Hb). unfold bind at 1, upd_bonus at 1, ret at 1.
  rewrite IH; [ reflexivity | ].
  intros b Hin. cbn. rewrite lookup_alter.
  case_decide as E; [ subst; rewrite Hb; cbn; eauto | ].
  apply Hall. now apply list_elem_of_further.
Qed.

(** An effect made without [active] is plugged in by entering its name in
    each of its bonuses, where they all exist: [plug] returns, no bonus is
    switched, and no stat is touched. *)
Theorem effect_plug_unset_registers (fuel : nat) (self : string)
  (c : Character) (me : EffectObj) :
  effects c !! self = Some me ->
  effect_active me = None ->
  (forall b, b ∈ effect_bonuses me -> is_Some (bonuses c !! b)) ->
  Effect.plug fuel self c
  = Ok tt (with_effects (insert self (set_effect_char true me))
             (with_bonuses (claim_all self (effect_bonuses me)) c)).
Proof.
  intros He Ha Hall. unfold Effect.plug.
  unfold bind at 1, get_effect at 1. rewrite He, Ha.
  rewrite (bind_Ok _ _ _ _ _ (effect_plug_loop_unset self _ c Hall)).
  unfold upd_effect, with_effects; cbn. do 2 f_equal.
  apply map_eq. intros t. rewrite lookup_alter, lookup_insert.
  case_decide as E; [ subst t; now rewrite He | reflexivity ].
Qed.

Lemma effect_plug_unset_registers_witness :
  effects Cases.before_spell !! "spell" = Some Cases.spell
  /\ Effect.plug 1 "spell" Cases.before_spell
     = Ok tt (with_effects (insert "spell" (set_effect_char true Cases.spell))
                (with_bonuses (claim_all "spell" (effect_bonuses Cases.spell))
                   Cases.before_spell)).
Proof.
  assert (H1 : effects Cases.before_spell !! "spell" = Some Cases.spell)
    by (vm_compute; reflexivity).
  split; [ exact H1 | ].
  apply (effect_plug_unset_registers 1 "spell" _ _ H1 eq_refl).
  intros b Hb. apply list_elem_of_singleton in Hb as ->.
  vm_compute. eauto.
Defined.

Lemma permanent_claimed perm self bo :
  permanent perm (claimed self bo) = permanent perm bo.
Proof. reflexivity. Qed.

(** One turn of the loop of [Effect.plug] for an effect made with
    [active=True]. *)
Lemma effect_plug_step_on fuel self name c c' :
  (_ <~ char_bonuses name ;;
   upd_bonus name (fun b => set_bonus_usedby ({[self]} ∪ bonus_usedby b) b) ;;;
   Bonus.on fuel name) c = Ok tt c' ->
  BONUS_PERM c' = BONUS_PERM c
  /\ turned_on self name c'
  /\ forall b, turned_on self b c -> turned_on self b c'.
Proof.
  intros H. bind_inv H bo c0 Hk. unfold char_bonuses in Hk.
  destruct (bonuses c !! name) as [bo0|] eqn:Hb; [ | discriminate ].
  injection Hk as <- <-. rename bo0 into bo.
  bind_inv H u ca Ha. rewrite (upd_bonus_at _ _ _ _ Hb) in Ha. injection Ha as <-.
  fold (claimed self bo) in H.
  assert (Hla : bonuses (with_bonuses (insert name (claimed self bo)) c) !! name
                = Some (claimed self bo)) by (cbn; apply lookup_insert_eq).
  assert (Hin : self ∈ bonus_usedby (claimed self bo)) by (cbn; set_solver).
  assert (Hgoal : forall bo1,
             BONUS_PERM c' = BONUS_PERM c ->
             bonuses c' = <[name := bo1]> (bonuses c) ->
             self ∈ bonus_usedby bo1 ->
             bonus_active bo1 = true \/ permanent (BONUS_PERM c) bo1 = true ->
             BONUS_PERM c' = BONUS_PERM c
             /\ turned_on self name c'
             /\ forall b, turned_on self b c -> turned_on self b c').
  { intros bo1 Hp Hb1 Hu1 Hon. split; [ exact Hp | ]. split.
    - exists bo1. rewrite Hb1, Hp. split; [ apply lookup_insert_eq | auto ].
    - intros b (bo2 & Hb2 & Hu2 & Hon2).
      destruct (decide (b = name)) as [->|Hne].
      + exists bo1. rewrite Hb1, Hp. split; [ apply lookup_insert_eq | auto ].
      + exists bo2. rewrite Hb1, Hp.
        split; [ now rewrite lookup_insert_ne | auto ]. }
  destruct (permanent (BONUS_PERM c) bo) eqn:Hperm.
  - unfold Bonus.on, Bonus.toggle in H. bind_inv H me0 c0 Hg.
    unfold get_bonus in Hg. rewrite Hla in Hg. injection Hg as <- <-.
    unfold permanent in Hperm. apply andb_true_iff in Hperm as [Hc Hm].
    cbn [bonus_condition claimed set_bonus_usedby] in H. rewrite Hc in H.
    bind_inv H u c0 Hn. unfold Bonus.need_char in Hn.
    destruct (bonus_char (claimed self bo)); [ | discriminate ].
    injection Hn as <-. bind_inv H perm c0 Hr. injection Hr as <- <-.
    cbn [BONUS_PERM with_bonuses bonus_typ claimed set_bonus_usedby] in H.
    rewrite Hm in H. injection H as <-.
    apply (Hgoal (claimed self bo)); [ reflexivity | reflexivity | exact Hin | ].
    right. unfold permanent. cbn. now rewrite Hc, Hm.
  - unfold Bonus.on in H.
    apply (toggle_inv _ _ _ _ _ _ Hla Hperm) in H.
    apply (keeps_Ok _ _ _ _ _ (bonus_calc_outputs_only fuel name)) in H.
    apply outputs_only_with_bonuses in H as (_ & Hb1 & _ & _ & Hp).
    cbn in Hb1, Hp. rewrite insert_insert_eq in Hb1.
    eapply Hgoal; [ exact Hp | exact Hb1 | exact Hin | now left ].
Qed.

(** An effect made with [active=True] turns its bonuses on when it is
    plugged in: after a [plug] that returns, every bonus of the effect has
    the name of the effect in its [usedby] and is active, unless it is one
    that cannot be switched. *)
Theorem effect_plug_active_turns_on (fuel : nat) (self : string)
  (c c1 : Character) (me : EffectObj) :
  effects c !! self = Some me ->
  effect_active me = Some true ->
  Effect.plug fuel self c = Ok tt c1 ->
  forall b, b ∈ effect_bonuses me -> turned_on self b c1.
Proof.
  intros He Ha H. unfold Effect.plug in H. bind_inv H me0 c0 Hg.
  unfold get_effect in Hg. rewrite He in Hg. injection Hg as <- <-.
  rewrite Ha in H. bind_inv H u ca Hloop.
  assert (Hup : forall b, turned_on self b ca -> turned_on self b c1).
  { injection H as <-. intros b (bo & Hb & Hrest). exists bo. now cbn. }
  clear H. intros b Hb. apply Hup. clear Hup He Ha.
  revert c Hloop. induction (effect_bonuses me) as [|n names IH]; intros c Hloop;
    [ now apply elem_of_nil in Hb | ].
  cbn [for_each] in Hloop. bind_inv Hloop u c2 Hstep.
  destruct (effect_plug_step_on _ _ _ _ _ Hstep) as (_ & Hn & Hkeep).
  assert (Hrest : forall b0 c3,
             turned_on self b0 c2 ->
             for_each names
               (fun name =>
                  _ <~ char_bonuses name ;;
                  upd_bonus name
                    (fun b => set_bonus_usedby ({[self]} ∪ bonus_usedby b) b) ;;;
                  Bonus.on fuel name) c2 = Ok tt c3 ->
             turned_on self b0 c3).
  { clear. intros b0. revert c2. induction names as [|m names IH2]; intros c2 c3 Hon H.
    - now injection H as <-.
    - cbn [for_each] in H. bind_inv H u c4 Hs.
      destruct (effect_plug_step_on _ _ _ _ _ Hs) as (_ & _ & Hk).
      apply (IH2 c4); [ now apply Hk | exact H ]. }
  apply elem_of_cons in Hb as [->|Hb].
  - now apply (Hrest n ca Hn).
  - now apply (IH Hb c2).
Qed.

Lemma effect_plug_active_turns_on_witness :
  effects Cases.before_blessing !! "blessing" = Some Cases.blessing
  /\ Effect.plug 1 "blessing" Cases.before_blessing
     = Ok tt (run (Effect.plug 1 "blessing") Cases.before_blessing)
  /\ turned_on "blessing" "shield"
       (run (Effect.plug 1 "blessing") Cases.before_blessing).
Proof.
  assert (H1 : effects Cases.before_blessing !! "blessing" = Some Cases.blessing)
    by (vm_compute; reflexivity).
  assert (H2 : Effect.plug 1 "blessing" Cases.before_blessing
               = Ok tt (run (Effect.plug 1 "blessing") Cases.before_blessing))
    by (vm_compute; reflexivity).
  split; [ exact H1 | ]. split; [ exact H2 | ].
  apply (effect_plug_active_turns_on 1 "blessing" _ _ _ H1 eq_refl H2).
  apply list_elem_of_here.
Defined.

(** ** Texts *)

Lemma lstrip_starts s : starts_blank (Text.lstrip s) = false.
Proof.
  induction s as [|c s IH]; [ reflexivity | ]. cbn [Text.lstrip].
  destruct (Text.is_space c) eqn:E; [ exact IH | ]. cbn. exact E.
Qed.

Lemma rstrip_ends s : ends_blank (Text.rstrip s) = false.
Proof.
  induction s as [|c s IH]; [ reflexivity | ]. cbn [Text.rstrip].
  destruct (Text.rstrip s) as [|d r] eqn:Er.
  - destruct (Text.is_space c) eqn:E; [ reflexivity | cbn; exact E ].
  - exact IH.
Qed.

Lemma rstrip_starts s : starts_blank s = false -> starts_blank (Text.rstrip s) = false.
Proof.
  destruct s as [|c s]; [ reflexivity | ]. cbn [starts_blank Text.rstrip].
  intros Hc. destruct (Text.rstrip s); [ rewrite Hc | ]; exact Hc.
Qed.

Lemma lstrip_id s : starts_blank s = false -> Text.lstrip s = s.
Proof. destruct s as [|c s]; [ reflexivity | ]. cbn. now intros ->. Qed.

Lemma rstrip_id s : ends_blank s = false -> Text.rstrip s = s.
Proof.
  induction s as [|c s IH]; [ reflexivity | ].
  cbn [ends_blank Text.rstrip]. destruct s as [|d r].
  - cbn. now intros ->.
  - intros H. now rewrite (IH H).
Qed.

Lemma strip_id s : starts_blank s = false -> ends_blank s = false -> Text.strip s = s.
Proof.
  intros H1 H2. unfold Text.strip. rewrite (lstrip_id _ H1). now apply rstrip_id.
Qed.

Lemma strip_trimmed s :
  starts_blank (Text.strip s) = false /\ ends_blank (Text.strip s) = false.
Proof.
  unfold Text.strip. split; [ apply rstrip_starts, lstrip_starts | apply rstrip_ends ].
Qed.

(** Writing every newline as a backslash and an [n]. *)
Lemma escape_cons x s :
  Py.replace Text.newline Text.escaped (String x s)
  = if Ascii.eqb x (ascii_of_nat 10)
    then Text.escaped +:+ Py.replace Text.newline Text.escaped s
    else String x (Py.replace Text.newline Text.escaped s).
Proof.
  unfold Py.replace, Text.newline.
  cbn [Py.replace_go String.length Nat.sub String.prefix].
  destruct (ascii_dec (ascii_of_nat 10) x) as [<-|Hne].
  - destruct s; reflexivity.
  - destruct (Ascii.eqb_spec x (ascii_of_nat 10)) as [->|_];
      [ contradiction | reflexivity ].
Qed.

Lemma escape_no_newline s :
  Py.count (ascii_of_nat 10) (Py.replace Text.newline Text.escaped s) = 0%nat.
Proof.
  induction s as [|x s IH]; [ reflexivity | ]. rewrite escape_cons.
  destruct (Ascii.eqb_spec x (ascii_of_nat 10)) as [->|Hne].
  - unfold Text.escaped. rewrite !app_cons. cbn [Py.count]. exact IH.
  - cbn [Py.count]. rewrite IH.
    destruct (Ascii.eqb_spec (ascii_of_nat 10) x); [ congruence | reflexivity ].
Qed.

Lemma escape_starts s :
  starts_blank s = false ->
  starts_blank (Py.replace Text.newline Text.escaped s) = false.
Proof.
  destruct s as [|x s]; [ reflexivity | ]. cbn [starts_blank]. intros Hx.
  rewrite escape_cons.
  destruct (Ascii.eqb_spec x (ascii_of_nat 10)) as [->|_]; [ discriminate | exact Hx ].
Qed.

Lemma escape_not_nil s :
  s <> "" -> Py.replace Text.newline Text.escaped s <> "".
Proof.
  destruct s as [|x s]; [ contradiction | ]. intros _. rewrite escape_cons.
  destruct (Ascii.eqb x (ascii_of_nat 10)); discriminate.
Qed.

Lemma ends_blank_cons c s : s <> "" -> ends_blank (String c s) = ends_blank s.
Proof. destruct s; [ contradiction | reflexivity ]. Qed.

Lemma escape_ends s :
  ends_blank s = false ->
  ends_blank (Py.replace Text.newline Text.escaped s) = false.
Proof.
  induction s as [|x s IH]; [ reflexivity | ]. intros H.
  rewrite escape_cons. destruct s as [|d r].
  - cbn in H. destruct (Ascii.eqb_spec x (ascii_of_nat 10)) as [->|_];
      [ discriminate | exact H ].
  - assert (Hr : ends_blank (String d r) = false) by exact H.
    specialize (IH Hr).
    pose proof (escape_not_nil (String d r) ltac:(discriminate)) as Hne.
    destruct (Ascii.eqb x (ascii_of_nat 10)).
    + unfold Text.escaped. rewrite !app_cons.
      change ("" +:+ ?x) with x.
      rewrite ends_blank_cons by discriminate.
      now rewrite ends_blank_cons by exact Hne.
    + now rewrite ends_blank_cons by exact Hne.
Qed.

Lemma set_no_newline (t : option string) :
  Py.count (ascii_of_nat 10) (Text.set t) = 0%nat.
Proof. exact (escape_no_newline (Text.strip (default "" t))). Qed.

Lemma set_trimmed (t : option string) :
  starts_blank (Text.set t) = false /\ ends_blank (Text.set t) = false.
Proof.
  unfold Text.set. destruct (strip_trimmed (default "" t)) as [Hs He].
  split; [ exact (escape_starts _ Hs) | exact (escape_ends _ He) ].
Qed.

Lemma set_set (t : option string) : Text.set (Some (Text.set t)) = Text.set t.
Proof.
  destruct (set_trimmed t) as [Hs He]. pose proof (set_no_newline t) as Hn.
  unfold Text.set at 1.
  change (default "" (Some (Text.set t))) with (Text.set t).
  rewrite (strip_id _ Hs He). apply replace_absent. exact Hn.
Qed.

(** What [set] stores has no newline and no blank at either end, and [set]
    stores it again as it is: a text that has been set is set for good. *)
Theorem text_set_normal_form (t : option string) :
  Py.count (ascii_of_nat 10) (Text.set t) = 0%nat
  /\ starts_blank (Text.set t) = false
  /\ ends_blank (Text.set t) = false
  /\ Text.set (Some (Text.set t)) = Text.set t.
Proof.
  destruct (set_trimmed t) as [Hs He].
  split_and!; [ apply set_no_newline | exact Hs | exact He | apply set_set ].
Qed.

(** Reading the stored text back. *)
Lemma replace_go_hit old new c s :
  String.prefix old (String c s) = true ->
  Py.replace_go old new 0 (String c s)
  = new +:+ Py.replace_go old new (String.length old - 1) s.
Proof. cbn [Py.replace_go]. now intros ->. Qed.

Lemma replace_go_miss old new c s :
  String.prefix old (String c s) = false ->
  Py.replace_go old new 0 (String c s) = String c (Py.replace_go old new 0 s).
Proof. cbn [Py.replace_go]. now intros ->. Qed.

Lemma replace_go_skip old new k c s :
  Py.replace_go old new (S k) (String c s) = Py.replace_go old new k s.
Proof. reflexivity. Qed.

Lemma unescape_hit s :
  Py.replace Text.escaped Text.newline (Text.escaped +:+ s)
  = Text.newline +:+ Py.replace Text.escaped Text.newline s.
Proof.
  unfold Py.replace, Text.escaped. rewrite !app_cons. change ("" +:+ s) with s.
  rewrite replace_go_hit.
  - change (String.length (String (ascii_of_nat 92) "n") - 1)%nat with 1%nat.
    now rewrite replace_go_skip.
  - cbn [String.prefix].
    destruct (ascii_dec (ascii_of_nat 92) (ascii_of_nat 92)) as [_|N];
      [ | contradiction ].
    destruct (ascii_dec "n" "n") as [_|N]; [ now destruct s | contradiction ].
Qed.

Lemma unescape_miss x s :
  String.prefix Text.escaped (String x s) = false ->
  Py.replace Text.escaped Text.newline (String x s)
  = String x (Py.replace Text.escaped Text.newline s).
Proof. intros H. unfold Py.replace, Text.escaped. now apply replace_go_miss. Qed.

Lemma unescape_escape s :
  Py.contains Text.escaped s = false ->
  Py.replace Text.escaped Text.newline (Py.replace Text.newline Text.escaped s) = s.
Proof.
  induction s as [|x s IH]; [ reflexivity | ].
  cbn [Py.contains]. intros H. apply orb_false_elim in H as [Hp Hc].
  specialize (IH Hc). rewrite escape_cons.
  destruct (Ascii.eqb_spec x (ascii_of_nat 10)) as [->|Hne].
  - rewrite unescape_hit, IH. reflexivity.
  - rewrite unescape_miss; [ now rewrite IH | ].
    unfold Text.escaped in Hp |- *. cbn [String.prefix] in Hp |- *.
    destruct (ascii_dec (ascii_of_nat 92) x) as [E|_]; [ | reflexivity ].
    destruct s as [|d r]; [ reflexivity | ].
    rewrite escape_cons.
    destruct (Ascii.eqb_spec d (ascii_of_nat 10)) as [->|_]; [ reflexivity | ].
    cbn [String.prefix] in Hp |- *.
    destruct (ascii_dec "n" d); [ | reflexivity ].
    destruct r; [ discriminate Hp | discriminate Hp ].
Qed.

(** [str_all] shows under the name the text that was given, stripped, with
    its newlines, when that text is not empty and holds no backslash
    followed by an [n]. *)
Theorem text_str_all_shows_text (name t : string) :
  Text.strip t <> "" ->
  Py.contains Text.escaped (Text.strip t) = false ->
  Text.str_all (Text.init name (Some t))
  = "--- " +:+ name +:+ Text.newline +:+ Text.strip t.
Proof.
  intros Hne Hc. unfold Text.str_all, Text.init, Text.set.
  cbn [text_name text_text]. change (default "" (Some t)) with t.
  pose proof (escape_not_nil _ Hne) as Hne'.
  destruct (Py.replace Text.newline Text.escaped (Text.strip t)) as [|x e] eqn:Ee;
    [ contradiction | ].
  cbn [Text.blank_or]. rewrite <- Ee. now rewrite (unescape_escape _ Hc).
Qed.

Lemma text_str_all_shows_text_witness :
  Text.strip Notes.two_lines <> ""
  /\ Py.contains Text.escaped (Text.strip Notes.two_lines) = false
  /\ Text.str_all (Text.init "note" (Some Notes.two_lines))
     = "--- note" +:+ Text.newline +:+ "two" +:+ Text.newline +:+ "lines".
Proof.
  assert (H1 : Text.strip Notes.two_lines <> "") by discriminate.
  assert (H2 : Py.contains Text.escaped (Text.strip Notes.two_lines) = false)
    by reflexivity.
  split; [ exact H1 | ]. split; [ exact H2 | ].
  exact (text_str_all_shows_text "note" Notes.two_lines H1 H2).
Defined.

Lemma length_app (a b : string) :
  String.length (a +:+ b) = (String.length a + String.length b)%nat.
Proof.
  induction a as [|c a IH]; [ reflexivity | ]. rewrite app_cons. cbn. now rewrite IH.
Qed.

Lemma substring_0_length m : forall s,
  (String.length (String.substring 0 m s) <= m)%nat.
Proof.
  induction m as [|m IH]; intros s.
  - destruct s; cbn; lia.
  - destruct s as [|c s]; cbn; [ lia | ]. specialize (IH s). lia.
Qed.

Lemma substring_0_count c m : forall s,
  Py.count c s = 0%nat -> Py.count c (String.substring 0 m s) = 0%nat.
Proof.
  induction m as [|m IH]; intros s.
  - destruct s; reflexivity.
  - destruct s as [|x s]; [ reflexivity | ]. cbn [Py.count String.substring].
    destruct (Ascii.eqb c x); [ discriminate | ]. cbn. apply IH.
Qed.

Lemma replace_go_count c old new :
  Py.count c new = 0%nat ->
  forall s k, Py.count c s = 0%nat -> Py.count c (Py.replace_go old new k s) = 0%nat.
Proof.
  intros Hnew. induction s as [|x s IH]; intros k Hs; [ reflexivity | ].
  cbn [Py.count] in Hs.
  assert (Hx : Ascii.eqb c x = false) by (destruct (Ascii.eqb c x); [ discriminate | reflexivity ]).
  rewrite Hx in Hs. cbn in Hs.
  destruct k as [|k]; [ | rewrite replace_go_skip; now apply IH ].
  destruct (String.prefix old (String x s)) eqn:Ep.
  - rewrite (replace_go_hit _ _ _ _ Ep), count_app, Hnew. now apply IH.
  - rewrite (replace_go_miss _ _ _ _ Ep). cbn [Py.count]. rewrite Hx. now apply IH.
Qed.

(** [__str__] gives one line: after the name, a colon and a space it has at
    most 50 characters of the text and three dots, and no newline. *)
Theorem text_str_one_line (name : string) (t : option string) :
  Py.count (ascii_of_nat 10) (Text.str (Text.init name t))
  = Py.count (ascii_of_nat 10) name
  /\ (String.length (Text.str (Text.init name t)) <= String.length name + 55)%nat.
Proof.
  unfold Text.str, Text.init. cbn [text_name text_text].
  pose proof (set_no_newline t) as Hn.
  set (shown := match Text.set t with
                | "" => "[BLANK]"
                | String a s => Py.replace Text.escaped " | " (String a s)
                end).
  assert (Hshown : Py.count (ascii_of_nat 10) shown = 0%nat).
  { subst shown. destruct (Text.set t) as [|a s]; [ reflexivity | ].
    unfold Py.replace, Text.escaped. now apply replace_go_count. }
  destruct (50 <? String.length shown)%nat eqn:El.
  - split.
    + rewrite !count_app, (substring_0_count _ _ _ Hshown).
      change (Py.count (ascii_of_nat 10) ": ") with 0%nat.
      change (Py.count (ascii_of_nat 10) "...") with 0%nat. lia.
    + rewrite !length_app. pose proof (substring_0_length 50 shown). cbn. lia.
  - apply Nat.ltb_ge in El. split.
    + rewrite !count_app, Hshown.
      change (Py.count (ascii_of_nat 10) ": ") with 0%nat.
      change (Py.count (ascii_of_nat 10) "") with 0%nat. lia.
    + rewrite !length_app. cbn. lia.
Qed.

(** ** Saving and loading *)

(** A [Text] that is saved and loaded again is the same [Text]. *)
Theorem text_load_save (name : string) (t : option string) :
  Field.save Field.Text (Text.init name t) = inr [name; Text.set t]
  /\ Field.load Field.Text [name; Text.set t] = inr (Text.init name t).
Proof.
  split; [ reflexivity | ].
  change (Field.load Field.Text [name; Text.set t])
    with (@inr Field.error _ (Text.init name (Some (Text.set t)))).
  unfold Text.init.
  now rewrite set_set.
Qed.

Lemma int_digits_char d s acc b :
  (d < 10)%N ->
  Field.int_digits (String (pretty_N_char d) s) acc b
  = Field.int_digits s (10 * acc + Z.of_N d) true.
Proof.
  intros Hd.
  assert (d = 0 \/ d = 1 \/ d = 2 \/ d = 3 \/ d = 4 \/ d = 5 \/ d = 6
          \/ d = 7 \/ d = 8 \/ d = 9)%N as H by lia.
  repeat (destruct H as [->|H]; [ reflexivity | ]). now subst d.
Qed.

Lemma int_digits_pretty_go x : forall s b,
  (0 < x)%N ->
  Field.int_digits (pretty_N_go x s) 0 b = Field.int_digits s (Z.of_N x) true.
Proof.
  induction (N.lt_wf_0 x) as [x _ IH]; intros s b Hx.
  rewrite pretty_N_go_step by exact Hx.
  assert (Hd : (x `mod` 10 < 10)%N) by (apply N.mod_lt; discriminate).
  pose proof (N.div_mod x 10%N ltac:(discriminate)) as Hdm.
  destruct (N.eq_dec (x `div` 10)%N 0%N) as [E|Hne].
  - rewrite E, pretty_N_go_0, int_digits_char by exact Hd. f_equal. lia.
  - rewrite IH; [ | apply N.div_lt; lia | lia ].
    rewrite int_digits_char by exact Hd. f_equal. lia.
Qed.

Lemma int_digits_pretty (n : N) b :
  Field.int_digits (pretty n) 0 b = Some (Z.of_N n).
Proof.
  rewrite pretty_N_unfold. case_decide as E; [ now subst n | ].
  rewrite int_digits_pretty_go by lia. reflexivity.
Qed.

Lemma digit_not_space c : Py.is_digit c = true -> Text.is_space c = false.
Proof.
  unfold Py.is_digit, Text.is_space. cbv zeta. intros H.
  apply andb_true_iff in H as [H1 H2].
  apply Nat.leb_le in H1, H2.
  destruct (Nat.leb_spec 9 (nat_of_ascii c)), (Nat.leb_spec (nat_of_ascii c) 13),
    (Nat.leb_spec 28 (nat_of_ascii c)), (Nat.leb_spec (nat_of_ascii c) 32);
    cbn; try reflexivity; lia.
Qed.

Lemma digits_not_blank s :
  digits_only s = true -> starts_blank s = false /\ ends_blank s = false.
Proof.
  induction s as [|c s IH]; [ now split | ].
  cbn [digits_only]. intros H. apply andb_true_iff in H as [Hc Hs].
  pose proof (digit_not_space c Hc) as Hsp. split; [ exact Hsp | ].
  destruct s as [|d r]; [ exact Hsp | ]. now apply IH.
Qed.

Lemma digit_not_sign c :
  Py.is_digit c = true -> Ascii.eqb c "+" = false /\ Ascii.eqb c "-" = false.
Proof.
  intros H. split.
  - destruct (Ascii.eqb_spec c "+") as [->|_]; [ discriminate | reflexivity ].
  - destruct (Ascii.eqb_spec c "-") as [->|_]; [ discriminate | reflexivity ].
Qed.

(** [int] reads what [str] writes of an [int]. *)
Lemma int_of_string_pretty (z : Z) : Field.int_of_string (pretty z) = inr (Field.VInt z).
Proof.
  unfold Field.int_of_string. cbv zeta. destruct z as [|p|p].
  - reflexivity.
  - change (pretty (Z.pos p)) with (pretty (N.pos p)).
    pose proof (digits_only_pretty (N.pos p)) as Hd.
    destruct (digits_not_blank _ Hd) as [Hs He]. rewrite (strip_id _ Hs He).
    pose proof (int_digits_pretty (N.pos p) false) as Hi.
    destruct (pretty (N.pos p)) as [|c r] eqn:Ep.
    + now apply pretty_not_nil in Ep.
    + cbn [digits_only] in Hd. apply andb_true_iff in Hd as [Hc _].
      destruct (digit_not_sign c Hc) as [-> ->]. now rewrite Hi.
  - change (pretty (Z.neg p)) with (String "-" (pretty (N.pos p))).
    pose proof (digits_only_pretty (N.pos p)) as Hd.
    destruct (digits_not_blank _ Hd) as [Hs He].
    rewrite strip_id.
    + cbn [Ascii.eqb Bool.eqb]. now rewrite int_digits_pretty.
    + reflexivity.
    + rewrite ends_blank_cons; [ exact He | apply pretty_not_nil ].
Qed.

Lemma split_app_sep sep x rest :
  Py.count sep x = 0%nat ->
  Py.split sep (x +:+ String sep rest) = x :: Py.split sep rest.
Proof.
  induction x as [|c x IH].
  - intros _. change ("" +:+ String sep rest) with (String sep rest).
    cbn [Py.split]. now rewrite Ascii.eqb_refl.
  - cbn [Py.count]. destruct (Ascii.eqb_spec sep c) as [->|Hne]; [ discriminate | ].
    cbn [Nat.add]. intros Hx. rewrite app_cons. cbn [Py.split].
    destruct (Ascii.eqb_spec c sep) as [E|_]; [ now subst | ].
    now rewrite (IH Hx).
Qed.

(** Splitting at the commas what was joined with commas. *)
Lemma split_join sep l :
  l <> [] -> Forall (fun s => Py.count sep s = 0%nat) l ->
  Py.split sep (Py.join (String sep "") l) = l.
Proof.
  intros Hne Hall. induction l as [|x l IH]; [ contradiction | ].
  apply Forall_cons in Hall as [Hx Hall]. destruct l as [|y l].
  - cbn [Py.join]. now apply split_absent.
  - change (Py.join (String sep "") (x :: y :: l))
      with (x +:+ String sep "" +:+ Py.join (String sep "") (y :: l)).
    rewrite app_cons. change ("" +:+ ?s) with s.
    rewrite (split_app_sep _ _ _ Hx). f_equal. now apply IH.
Qed.

Lemma or_else_same s d : Bonus.or_else (Some s) d = match s with "" => d | _ => s end.
Proof. now destruct s. Qed.

(** A [Bonus] that is saved and loaded again has the value, the stats, the
    type, the condition and the text it had, where it names at least one
    stat, no name of a stat has a comma, and the type is as [__init__]
    leaves it, not empty and in lower case.  It is active as it was, except
    that a bonus with a condition is loaded inactive; it remembers as its
    last state the one it was saved in, and it is bound to no character and
    claimed by no effect. *)
Theorem bonus_load_save (name : string) (b : BonusObj) :
  bonus_stats b <> [] ->
  Forall (fun s => Py.count "," s = 0%nat) (bonus_stats b) ->
  bonus_typ b <> "" ->
  Py.lower (bonus_typ b) = bonus_typ b ->
  exists fields,
    Field.save Field.Bonus (name, b) = inr fields
    /\ Field.load Field.Bonus fields = inr (name, reloaded b).
Proof.
  intros Hne Hcomma Htyp Hlow. eexists. split; [ reflexivity | ].
  unfold Field.load.
  cbn [Field.FIELDS Field.Bonus map snd Field.parse_fields Field.Tstr Field.Tint
       Field.convert Field.saved fst].
  rewrite int_of_string_pretty, (split_join "," _ Hne Hcomma).
  cbn [Field.construct Field.Bonus]. do 2 f_equal.
  unfold Bonus.init, reloaded. rewrite !or_else_same.
  assert (Hactive : String.eqb (if bonus_active b then "True" else "False") "True"
                    = bonus_active b) by (now destruct (bonus_active b)).
  destruct (bonus_active b) eqn:Ea; cbn [String.eqb Ascii.eqb Bool.eqb] in *;
    destruct (bonus_typ b) as [|c r] eqn:Et; try contradiction;
    rewrite Hlow; destruct (bonus_condition b), (bonus_text b); reflexivity.
Qed.

Lemma bonus_load_save_witness :
  bonus_stats Notes.cover <> []
  /\ bonus_typ Notes.cover <> ""
  /\ Py.lower (bonus_typ Notes.cover) = bonus_typ Notes.cover
  /\ exists fields,
       Field.save Field.Bonus ("cover", Notes.cover) = inr fields
       /\ Field.load Field.Bonus fields = inr ("cover", reloaded Notes.cover).
Proof.
  assert (H1 : bonus_stats Notes.cover <> []) by discriminate.
  assert (H2 : Forall (fun s => Py.count "," s = 0%nat) (bonus_stats Notes.cover))
    by (repeat constructor).
  assert (H3 : bonus_typ Notes.cover <> "") by discriminate.
  assert (H4 : Py.lower (bonus_typ Notes.cover) = bonus_typ Notes.cover)
    by reflexivity.
  split; [ exact H1 | ]. split; [ exact H3 | ]. split; [ exact H4 | ].
  exact (bonus_load_save "cover" Notes.cover H1 H2 H3 H4).
Defined.

(** ** The dependency graph *)

Lemma shape_fields o o' :
  shape o' = shape o ->
  stat_uses o' = stat_uses o /\ stat_usedby o' = stat_usedby o
  /\ stat_root o' = stat_root o /\ stat_leaf o' = stat_leaf o.
Proof.
  intros H. split_and!.
  - exact (f_equal stat_uses H).
  - exact (f_equal stat_usedby H).
  - exact (f_equal stat_root H).
  - exact (f_equal stat_leaf H).
Qed.

Lemma same_shape_lookup c c' t o' :
  same_shape c c' -> stats c' !! t = Some o' ->
  exists o, stats c !! t = Some o /\ shape o' = shape o.
Proof.
  intros Hs Ho'. specialize (Hs t). rewrite Ho' in Hs.
  destruct (stats c !! t) as [o|]; [ | discriminate ].
  exists o. split; [ reflexivity | ]. now apply (inj Some) in Hs.
Qed.

Lemma same_shape_lookup_r c c' t o :
  same_shape c c' -> stats c !! t = Some o ->
  exists o', stats c' !! t = Some o' /\ shape o' = shape o.
Proof.
  intros Hs Ho. specialize (Hs t). rewrite Ho in Hs.
  destruct (stats c' !! t) as [o'|]; [ | discriminate ].
  exists o'. split; [ reflexivity | ]. now apply (inj Some) in Hs.
Qed.

(** Consistency is a property of the graph and the keys: outputs play no
    part in it. *)
Lemma graph_ok_outputs_only c c' : outputs_only c c' -> graph_ok c -> graph_ok c'.
Proof.
  intros [Hf Hs] Hok t o' Ho'.
  destruct (same_shape_lookup _ _ _ _ Hs Ho') as (o & Ho & Hsh).
  destruct (shape_fields _ _ Hsh) as (Eu & Eb & Er & El).
  destruct (Hok t o Ho) as (H1 & H2 & H3 & H4).
  rewrite Eu, Eb, Er, El. split; [ exact H1 | ]. split; [ exact H2 | ].
  split.
  - intros n Hn. destruct (H3 n Hn) as (Hk & on & Hon & Hin).
    split; [ now rewrite (frame_keys _ _ Hf) | ].
    destruct (same_shape_lookup_r _ _ _ _ Hs Hon) as (on' & Hon' & Hshn).
    exists on'. split; [ exact Hon' | ].
    destruct (shape_fields _ _ Hshn) as (_ & -> & _). exact Hin.
  - intros n Hn. destruct (H4 n Hn) as (on & Hon & Hin).
    destruct (same_shape_lookup_r _ _ _ _ Hs Hon) as (on' & Hon' & Hshn).
    exists on'. split; [ exact Hon' | ].
    destruct (shape_fields _ _ Hshn) as (-> & _). exact Hin.
Qed.

Lemma with_insert_inj self (A B : StatObj) c :
  with_stats (insert self A) c = with_stats (insert self B) c -> A = B.
Proof.
  intros H. apply (f_equal (fun c => stats c !! self)) in H. cbn in H.
  rewrite !lookup_insert_eq in H. now injection H.
Qed.

(** The [root] flag along the loops of [plug]: it is set exactly as long as
    no alias has been matched. *)
Lemma plug_var_root self o0 name acc v r c acc' c' :
  (r = true <-> acc.2 = ∅) ->
  Stat.plug_var self name acc v
    (with_stats (insert self (set_root r (set_uses acc.2 o0))) c)
  = Ok acc' c' ->
  exists r',
    c' = with_stats (insert self (set_root r' (set_uses acc'.2 o0))) c
    /\ (r' = true <-> acc'.2 = ∅).
Proof.
  unfold Stat.plug_var. cbv zeta.
  destruct (negb _) eqn:Hm; cbn [fst snd]; intros Hr H.
  - bind_inv H u c1 Hu. rewrite upd_stat_inserted in Hu. injection Hu as <-.
    bind_inv H u c1 Hu. rewrite upd_stat_inserted in Hu. injection Hu as <-.
    bind_inv H o c1 Hk. apply char_stats_inv in Hk as (-> & _).
    injection H as <- <-. exists false. split; [ reflexivity | ].
    cbn [snd]. split; [ discriminate | ]. intros E. exfalso.
    assert (Hin : name ∈ ({[name]} ∪ acc.2 : gset string))
      by (apply elem_of_union; left; now apply elem_of_singleton).
    rewrite E in Hin. now apply not_elem_of_empty in Hin.
  - injection H as <- <-. exists r. split; [ reflexivity | exact Hr ].
Qed.

Lemma plug_vars_root self o0 name vars : forall acc r c acc' c',
  (r = true <-> acc.2 = ∅) ->
  foldM (Stat.plug_var self name) vars acc
    (with_stats (insert self (set_root r (set_uses acc.2 o0))) c)
  = Ok acc' c' ->
  exists r',
    c' = with_stats (insert self (set_root r' (set_uses acc'.2 o0))) c
    /\ (r' = true <-> acc'.2 = ∅).
Proof.
  induction vars as [|v vars IH]; intros acc r c acc' c' Hr H; cbn [foldM] in H.
  - injection H as <- <-. eauto.
  - bind_inv H acc1 c1 H1.
    destruct (plug_var_root _ _ _ _ _ _ _ _ _ Hr H1) as (r1 & -> & Hr1).
    exact (IH _ _ _ _ _ Hr1 H).
Qed.

Lemma plug_loop_root self o0 keys : forall acc r c acc' c',
  (r = true <-> acc.2 = ∅) ->
  foldM (fun acc name => foldM (Stat.plug_var self name) Stat.VARS acc)
    keys acc (with_stats (insert self (set_root r (set_uses acc.2 o0))) c)
  = Ok acc' c' ->
  exists r',
    c' = with_stats (insert self (set_root r' (set_uses acc'.2 o0))) c
    /\ (r' = true <-> acc'.2 = ∅).
Proof.
  induction keys as [|k keys IH]; intros acc r c acc' c' Hr H; cbn [foldM] in H.
  - injection H as <- <-. eauto.
  - bind_inv H acc1 c1 H1.
    destruct (plug_vars_root _ _ _ _ _ _ _ _ _ Hr H1) as (r1 & -> & Hr1).
    exact (IH _ _ _ _ _ Hr1 H).
Qed.

(** The store a [plug] that returns has handed to [calc]. *)
Lemma plug_Ok_shape fuel self c me c1 :
  stats c !! self = Some me ->
  stat_uses me = ∅ ->
  stat_root me = true ->
  self ∉ resolved_names c me ->
  Stat.plug fuel self c = Ok tt c1 ->
  exists r,
    (r = true <-> resolved_names c me = ∅)
    /\ (forall n, n ∈ resolved_names c me -> resolvable c self n)
    /\ outputs_only
         (with_stats
            (insert self
               (set_formula_f (resolved_formula c me)
                  (set_root r (set_uses (resolved_names c me) (set_char true me)))))
            (with_stats
               (alter_all (marked self) (elements (resolved_names c me))) c))
         c1.
Proof.
  intros Ho Hu Hroot Hself H.
  pose proof (plug_ok_resolvable _ _ _ _ _ Ho Hu H) as Hres.
  destruct (plug_loop_step self (set_char true me) (stats_keys c)
              (stat_formula me, ∅) (stat_root me) c Hres) as [r E].
  cbn [fst snd] in E.
  assert (Hroot0 : stat_root me = true
                   <-> (stat_formula me, (∅ : gset string)).2 = ∅)
    by (cbn [snd]; split; [ reflexivity | intros _; exact Hroot ]).
  destruct (plug_loop_root self (set_char true me) (stats_keys c)
              (stat_formula me, ∅) (stat_root me) c _ _ Hroot0 E)
    as (r' & Er & Hr').
  apply with_insert_inj in Er. apply (f_equal stat_root) in Er. cbn in Er.
  subst r'. fold (resolved_names c me) in Hr'.
  exists r. split; [ exact Hr' | ]. split; [ exact Hres | ].
  rewrite <- (detached_uses_form me Hu) in E.
  unfold Stat.plug in H.
  bind_inv H o c0 Hg. apply get_stat_inv in Hg as [-> _].
  bind_inv H u c0 Hup. rewrite (upd_stat_at _ _ _ _ Ho) in Hup.
  injection Hup as <-.
  bind_inv H me0 c0 Hg. apply get_stat_inv in Hg as [-> Hg].
  cbn in Hg. rewrite lookup_insert_eq in Hg. injection Hg as <-.
  bind_inv H keys c0 Hk. injection Hk as <- <-.
  change (stats_keys (with_stats (insert self (set_char true me)) c))
    with (stats_keys c) in H.
  change (stat_formula (set_char true me)) with (stat_formula me) in H.
  bind_inv H acc c0 Hl. rewrite E in Hl. injection Hl as <- <-.
  fold (resolved_names c me) in H. fold (resolved_formula c me) in H.
  bind_inv H u c0 Ht. unfold Stat.try_eval in Ht.
  destruct (eval _ _ _) as [v cv|x cv|] eqn:Ev; try discriminate.
  apply eval_inv in Ev as [-> _]. injection Ht as <-.
  bind_inv H u c0 Hm. rewrite mark_loop in Hm. injection Hm as <-.
  bind_inv H u c0 Hf.
  erewrite upd_stat_at in Hf.
  2:{ cbn. rewrite lookup_alter_all_notin
        by (intros Hin; apply elem_of_elements in Hin; contradiction).
      apply lookup_insert_eq. }
  injection Hf as <-.
  apply (keeps_Ok _ _ _ _ _ (calc_outputs_only fuel self)) in H.
  replace (with_stats
             (insert self
                (set_formula_f (resolved_formula c me)
                   (set_root r (set_uses (resolved_names c me) (set_char true me)))))
             (with_stats
                (alter_all (marked self) (elements (resolved_names c me))) c))
    with (with_stats
            (insert self
               (set_formula_f (resolved_formula c me)
                  (set_root r (set_uses (resolved_names c me) (set_char true me)))))
            (with_stats
               (alter_all (marked self) (elements (resolved_names c me)))
               (with_stats
                  (insert self
                     (set_root r
                        (set_uses (resolved_names c me) (set_char true me)))) c)));
    [ exact H | ].
  unfold with_stats; cbn. f_equal.
  apply alter_all_after_insert; [ apply NoDup_elements | ].
  intros Hin. now apply elem_of_elements in Hin.
Qed.

(** A successful [plug] keeps the dependency graph consistent: for a stat
    that uses no stat yet and whose formula has no alias of the stat itself,
    plugged into a consistent graph, the graph is consistent afterwards. *)
Theorem plug_keeps_graph (fuel : nat) (self : string) (c c1 : Character)
  (me : StatObj) :
  graph_ok c ->
  stats c !! self = Some me ->
  stat_uses me = ∅ ->
  self ∉ resolved_names c me ->
  Stat.plug fuel self c = Ok tt c1 ->
  graph_ok c1.
Proof.
  intros Hok Ho Hu Hself H.
  assert (Hroot : stat_root me = true).
  { destruct (Hok self me Ho) as ([_ Hr] & _). now apply Hr. }
  destruct (plug_Ok_shape _ _ _ _ _ Ho Hu Hroot Hself H) as (r & Hr & Hres & Hout).
  apply (graph_ok_outputs_only _ _ Hout). clear Hout H c1.
  set (N := resolved_names c me) in *.
  set (meB := set_formula_f (resolved_formula c me)
                (set_root r (set_uses N (set_char true me)))).
  set (cB := with_stats (insert self meB)
               (with_stats (alter_all (marked self) (elements N)) c)).
  assert (Hkeys : stats_keys cB = stats_keys c) by reflexivity.
  assert (F1 : stats cB !! self = Some meB) by (cbn; apply lookup_insert_eq).
  assert (F2 : forall t, t <> self -> t ∈ N ->
                         stats cB !! t = marked self <$> stats c !! t).
  { intros t Hne Hin. cbn. rewrite lookup_insert_ne by congruence.
    apply lookup_alter_all_in; [ apply NoDup_elements | now apply elem_of_elements ]. }
  assert (F3 : forall t, t <> self -> t ∉ N -> stats cB !! t = stats c !! t).
  { intros t Hne Hout. cbn. rewrite lookup_insert_ne by congruence.
    apply lookup_alter_all_notin. intros Hin. now apply elem_of_elements in Hin. }
  assert (Hme : forall n, n ∈ stat_usedby me -> n <> self).
  { intros n Hn ->. destruct (Hok self me Ho) as (_ & _ & _ & H4).
    destruct (H4 self Hn) as (o' & Ho' & Hin). rewrite Ho in Ho'.
    injection Ho' as <-. rewrite Hu in Hin. now apply not_elem_of_empty in Hin. }
  (* every stat of [c] is in [cB] with at least the [usedby] it had and,
     unless it is [self], the [uses] it had *)
  assert (Hup : forall n o, stats c !! n = Some o ->
                  exists o', stats cB !! n = Some o'
                             /\ (stat_usedby o ⊆ stat_usedby o')
                             /\ (n <> self -> stat_uses o' = stat_uses o)).
  { intros n o Hn. destruct (decide (n = self)) as [->|Hne].
    - exists meB. rewrite Ho in Hn. injection Hn as <-.
      split; [ exact F1 | ]. split; [ reflexivity | congruence ].
    - destruct (decide (n ∈ N)) as [Hin|Hnin].
      + exists (marked self o). rewrite (F2 n Hne Hin), Hn.
        split; [ reflexivity | ].
        split; [ cbn; intros x Hx; apply elem_of_union; now right | reflexivity ].
      + exists o. rewrite (F3 n Hne Hnin).
        split; [ exact Hn | ]. split; [ reflexivity | reflexivity ]. }
  intros t o' Ht. destruct (decide (t = self)) as [->|Hne].
  - rewrite F1 in Ht. injection Ht as <-.
    destruct (Hok self me Ho) as (_ & H2 & _ & H4).
    cbn [meB stat_root stat_uses stat_leaf stat_usedby set_formula_f set_root
         set_uses set_char].
    split; [ exact Hr | ]. split; [ exact H2 | ]. split.
    + intros n Hn. destruct (Hres n Hn) as [Hk Hsome].
      assert (Hns : n <> self) by (intros ->; contradiction).
      destruct Hsome as [->|[on Hon]]; [ contradiction | ].
      split; [ exact Hk | ]. exists (marked self on).
      rewrite (F2 n Hns Hn), Hon.
      split; [ reflexivity | cbn; apply elem_of_union; left; now apply elem_of_singleton ].
    + intros n Hn. destruct (H4 n Hn) as (on & Hon & Hin).
      destruct (Hup n on Hon) as (on' & Hon' & _ & Huses).
      exists on'. split; [ exact Hon' | ].
      rewrite (Huses (Hme n Hn)). exact Hin.
  - assert (Hview : exists o, stats c !! t = Some o
                      /\ stat_uses o' = stat_uses o
                      /\ stat_root o' = stat_root o
                      /\ ((t ∈ N /\ stat_usedby o' = {[self]} ∪ stat_usedby o
                           /\ stat_leaf o' = false)
                          \/ ((t ∉ N) /\ stat_usedby o' = stat_usedby o
                              /\ stat_leaf o' = stat_leaf o))).
    { destruct (decide (t ∈ N)) as [Hin|Hnin].
      - rewrite (F2 t Hne Hin) in Ht.
        destruct (stats c !! t) as [o|]; [ | discriminate ].
        injection Ht as <-. exists o. split; [ reflexivity | ].
        split; [ reflexivity | ]. split; [ reflexivity | ]. left. auto.
      - rewrite (F3 t Hne Hnin) in Ht. exists o'.
        split; [ exact Ht | ]. split; [ reflexivity | ]. split; [ reflexivity | ].
        right. auto. }
    destruct Hview as (o & Hto & Euses & Eroot & Hcase).
    destruct (Hok t o Hto) as (H1 & H2 & H3 & H4).
    rewrite Euses, Eroot. split; [ exact H1 | ]. split; [ | split ].
    + destruct Hcase as [(_ & -> & ->)|(_ & -> & ->)]; [ | exact H2 ].
      split; [ discriminate | ]. intros E. exfalso.
      assert (Hin : self ∈ ({[self]} ∪ stat_usedby o : gset string))
        by (apply elem_of_union; left; now apply elem_of_singleton).
      rewrite E in Hin. now apply not_elem_of_empty in Hin.
    + intros n Hn. destruct (H3 n Hn) as (Hk & on & Hon & Hin).
      split; [ exact Hk | ].
      destruct (Hup n on Hon) as (on' & Hon' & Hsub & _).
      exists on'. split; [ exact Hon' | now apply Hsub ].
    + intros n Hn.
      assert (Hn' : n = self /\ t ∈ N \/ n ∈ stat_usedby o).
      { destruct Hcase as [(Hin & E & _)|(_ & E & _)]; rewrite E in Hn;
          [ | now right ].
        apply elem_of_union in Hn as [Hn|Hn]; [ | now right ].
        apply elem_of_singleton in Hn. now left. }
      destruct Hn' as [[-> Hin]|Hn'].
      * exists meB. split; [ exact F1 | exact Hin ].
      * destruct (H4 n Hn') as (on & Hon & Hin).
        assert (Hns : n <> self).
        { intros ->. rewrite Ho in Hon. injection Hon as <-.
          rewrite Hu in Hin. now apply not_elem_of_empty in Hin. }
        destruct (Hup n on Hon) as (on' & Hon' & _ & Huses).
        exists on'. split; [ exact Hon' | ]. now rewrite (Huses Hns).
Qed.

Lemma graph_checked_ok c : graph_checked c -> graph_ok c.
Proof.
  intros H t o Ho. destruct (H t o Ho) as (H1 & H2 & H3 & H4).
  split; [ exact H1 | ]. split; [ exact H2 | ]. split.
  - intros n Hn. destruct (H3 n Hn) as [Hk He]. split; [ exact Hk | ].
    unfold edge_back in He. destruct (stats c !! n) as [o'|]; [ eauto | contradiction ].
  - intros n Hn. specialize (H4 n Hn).
    unfold edge_back in H4. destruct (stats c !! n) as [o'|]; [ eauto | contradiction ].
Qed.

Lemma plug_keeps_graph_witness :
  graph_ok before_dex_floor
  /\ stats before_dex_floor !! "dex" = Some (Stat.init "dex" "($dexterity-10)//2" "")
  /\ Stat.plug 1 "dex" before_dex_floor
     = Ok tt (run (Stat.plug 1 "dex") before_dex_floor)
  /\ graph_ok (run (Stat.plug 1 "dex") before_dex_floor).
Proof.
  assert (H1 : graph_ok before_dex_floor).
  { apply graph_checked_ok. apply (bool_decide_unpack _). vm_compute. exact I. }
  assert (H2 : stats before_dex_floor !! "dex"
               = Some (Stat.init "dex" "($dexterity-10)//2" ""))
    by (vm_compute; reflexivity).
  assert (H3 : Stat.plug 1 "dex" before_dex_floor
               = Ok tt (run (Stat.plug 1 "dex") before_dex_floor))
    by (vm_compute; reflexivity).
  split; [ exact H1 | ]. split; [ exact H2 | ]. split; [ exact H3 | ].
  apply (plug_keeps_graph 1 "dex" before_dex_floor _ _ H1 H2 eq_refl); [ | exact H3 ].
  apply (bool_decide_unpack _). vm_compute. exact I.
Defined.

(** An [unplug] without force or recursion that returns keeps the
    dependency graph consistent. *)
Theorem unplug_keeps_graph (fuel : nat) (self : string) (c1 c2 : Character)
  (o1 : StatObj) :
  graph_ok c1 ->
  stats c1 !! self = Some o1 ->
  Stat.unplug fuel self false false c1 = Ok tt c2 ->
  graph_ok c2.
Proof.
  intros Hok Ho H. destruct fuel as [|k]; [ discriminate | ].
  destruct (stat_char o1) eqn:Hc.
  2:{ cbn [Stat.unplug] in H. rewrite (bind_Ok _ _ _ _ _ (get_stat_Ok _ _ _ Ho)) in H.
      rewrite Hc in H. discriminate. }
  destruct (decide (stat_usedby o1 = ∅)) as [Hu|Hu].
  2:{ rewrite (unplug_refused _ _ _ k Ho Hc Hu) in H. discriminate. }
  destruct (Hok self o1 Ho) as (_ & _ & H3self & _).
  assert (Hself : self ∉ stat_uses o1).
  { intros Hin. destruct (H3self self Hin) as (_ & o' & Ho' & Hin').
    rewrite Ho in Ho'. injection Ho' as <-. rewrite Hu in Hin'.
    now apply not_elem_of_empty in Hin'. }
  rewrite <- (with_insert_id self o1 c1 Ho) in H at 1.
  rewrite (unplug_eq self c1 o1 k Hc Hu Hself) in H.
  2:{ intros n Hn. destruct (H3self n Hn) as (Hk & o' & Ho' & Hin'). eauto. }
  injection H as <-.
  set (U := stat_uses o1) in *.
  set (c2 := with_stats (insert self (detached o1))
               (with_stats (alter_all (released self) (elements U)) c1)).
  assert (F1 : stats c2 !! self = Some (detached o1)) by (cbn; apply lookup_insert_eq).
  assert (F2 : forall t, t <> self -> t ∈ U ->
                         stats c2 !! t = released self <$> stats c1 !! t).
  { intros t Hne Hin. cbn. rewrite lookup_insert_ne by congruence.
    apply lookup_alter_all_in; [ apply NoDup_elements | now apply elem_of_elements ]. }
  assert (F3 : forall t, t <> self -> t ∉ U -> stats c2 !! t = stats c1 !! t).
  { intros t Hne Hout. cbn. rewrite lookup_insert_ne by congruence.
    apply lookup_alter_all_notin. intros Hin. now apply elem_of_elements in Hin. }
  (* a stat other than [self] keeps its [uses] and loses at most [self]
     from its [usedby] *)
  assert (Hup : forall n o, n <> self -> stats c1 !! n = Some o ->
                  exists o', stats c2 !! n = Some o'
                             /\ stat_uses o' = stat_uses o
                             /\ stat_root o' = stat_root o
                             /\ stat_usedby o' = stat_usedby o ∖ {[self]}
                             /\ (stat_leaf o' = true <-> stat_usedby o' = ∅)).
  { intros n o Hne Hn. destruct (Hok n o Hn) as (_ & H2 & _ & H4).
    destruct (decide (n ∈ U)) as [Hin|Hnin].
    - exists (released self o). rewrite (F2 n Hne Hin), Hn.
      split; [ reflexivity | ].
      split; [ unfold released; cbv zeta; now case_bool_decide | ].
      split; [ unfold released; cbv zeta; now case_bool_decide | ].
      split; [ apply released_usedby | ].
      split; [ | apply released_leaf ].
      unfold released. cbv zeta. case_bool_decide as E; [ intros _; exact E | ].
      cbn. intros Hl. apply H2 in Hl. destruct (H3self n Hin) as (_ & o' & Ho' & Hin').
      rewrite Hn in Ho'. injection Ho' as <-. rewrite Hl in Hin'.
      now apply not_elem_of_empty in Hin'.
    - exists o. rewrite (F3 n Hne Hnin). split; [ exact Hn | ].
      split; [ reflexivity | ]. split; [ reflexivity | ].
      assert (Hs : self ∉ stat_usedby o).
      { intros Hin. destruct (H4 self Hin) as (o' & Ho' & Hin').
        rewrite Ho in Ho'. injection Ho' as <-. contradiction. }
      split; [ | exact H2 ].
      apply set_eq. intros x. rewrite elem_of_difference, elem_of_singleton.
      split; [ intros Hx; split; [ exact Hx | now intros -> ] | now intros [? _] ]. }
  intros t o' Ht. destruct (decide (t = self)) as [->|Hne].
  - rewrite F1 in Ht. injection Ht as <-.
    cbn [detached stat_root stat_uses stat_leaf stat_usedby set_formula_f set_root
         set_uses set_char set_leaf set_usedby].
    split; [ now split | ]. split; [ now split | ].
    split; intros n Hn; now apply not_elem_of_empty in Hn.
  - assert (Hto : exists o, stats c1 !! t = Some o).
    { destruct (decide (t ∈ U)) as [Hin|Hnin].
      - rewrite (F2 t Hne Hin) in Ht. destruct (stats c1 !! t); [ eauto | discriminate ].
      - rewrite (F3 t Hne Hnin) in Ht. eauto. }
    destruct Hto as [o Hto].
    destruct (Hup t o Hne Hto) as (o2 & Ho2 & Euses & Eroot & Eby & Hleaf).
    rewrite Ht in Ho2. injection Ho2 as <-.
    destruct (Hok t o Hto) as (H1 & H2 & H3 & H4).
    rewrite Euses, Eroot. split; [ exact H1 | ]. split; [ exact Hleaf | ]. split.
    + intros n Hn. destruct (H3 n Hn) as (Hk & on & Hon & Hin).
      split; [ exact Hk | ].
      assert (Hns : n <> self).
      { intros ->. rewrite Ho in Hon. injection Hon as <-. rewrite Hu in Hin.
        now apply not_elem_of_empty in Hin. }
      destruct (Hup n on Hns Hon) as (on' & Hon' & _ & _ & Eby' & _).
      exists on'. split; [ exact Hon' | ]. rewrite Eby'.
      apply elem_of_difference. split; [ exact Hin | ].
      intros Hs. apply elem_of_singleton in Hs. contradiction.
    + intros n Hn. rewrite Eby in Hn. apply elem_of_difference in Hn as [Hn Hns].
      assert (Hns' : n <> self) by (intros ->; apply Hns; now apply elem_of_singleton).
      destruct (H4 n Hn) as (on & Hon & Hin).
      destruct (Hup n on Hns' Hon) as (on' & Hon' & Euses' & _).
      exists on'. split; [ exact Hon' | ]. now rewrite Euses'.
Qed.

Lemma unplug_keeps_graph_witness :
  graph_ok with_dex
  /\ Stat.unplug 1 "dex" false false with_dex
     = Ok tt (run (Stat.unplug 1 "dex" false false) with_dex)
  /\ graph_ok (run (Stat.unplug 1 "dex" false false) with_dex).
Proof.
  assert (H1 : graph_ok with_dex).
  { apply graph_checked_ok. apply (bool_decide_unpack _). vm_compute. exact I. }
  assert (H2 : Stat.unplug 1 "dex" false false with_dex
               = Ok tt (run (Stat.unplug 1 "dex" false false) with_dex))
    by (vm_compute; reflexivity).
  split; [ exact H1 | ]. split; [ exact H2 | ].
  eapply (unplug_keeps_graph 1 "dex" with_dex _ _ H1); [ | exact H2 ].
  vm_compute. reflexivity.
Defined.

(** ** The depth of [calc] *)

Lemma calc_not_starved_witness :
  acyclic ability_rank with_reflex
  /\ (1 - ability_rank "dexterity" < 2)%nat
  /\ Stat.calc 2 "dexterity" with_reflex <> OutOfFuel.
Proof.
  assert (H1 : acyclic ability_rank with_reflex)
    by (apply (bool_decide_unpack _); vm_compute; exact I).
  assert (H2 : forall t, (ability_rank t <= 1)%nat)
    by (intros t; unfold ability_rank; destruct (String.eqb t "dexterity"); lia).
  assert (H3 : (1 - ability_rank "dexterity" < 2)%nat) by (cbn; lia).
  split; [ exact H1 | ]. split; [ exact H3 | ].
  exact (calc_not_starved ability_rank 1 2 "dexterity" with_reflex H1 H2 H3).
Defined.

(** ** The bonuses that bear on a stat *)

Lemma registered_concat b (l : list (string * list string)) :
  b ∈ concat (map snd l) -> exists typ, registered typ b l.
Proof.
  induction l as [|[t bs] r IH]; cbn [map concat snd]; intros H;
    [ now apply elem_of_nil in H | ].
  apply elem_of_app in H as [H|H].
  - exists t, bs. split; [ apply list_elem_of_here | exact H ].
  - destruct (IH H) as (typ & bs' & Hin & Hb). exists typ, bs'.
    split; [ now apply list_elem_of_further | exact Hb ].
Qed.

Lemma own_bonuses_sound self me c : forall l acc r c',
  stats c !! self = Some me ->
  (forall b, b ∈ l -> b ∈ concat (map snd (stat_bonuses me))) ->
  Forall (listed c false) acc.1 -> Forall (listed c true) acc.2 ->
  Forall (fun p => depends c self p.1) (acc.1 ++ acc.2) ->
  foldM
    (fun (acc : Views.pairs) b =>
       bo <~ get_bonus b ;;
       ret (if Bonus.is_empty (bonus_condition bo)
            then (acc.1 ++ [(self, b)], acc.2)
            else (acc.1, acc.2 ++ [(self, b)])))
    l acc c = Ok r c' ->
  c' = c /\ Forall (listed c false) r.1 /\ Forall (listed c true) r.2
  /\ Forall (fun p => depends c self p.1) (r.1 ++ r.2).
Proof.
  intros l. induction l as [|b l IH]; intros acc r c' Ho Hl H1 H2 Hd H;
    cbn [foldM] in H.
  - injection H as <- <-. auto.
  - bind_inv H acc1 c1 Hb. bind_inv Hb bo c0 Hg.
    unfold get_bonus in Hg. destruct (bonuses c !! b) as [bo0|] eqn:Eb;
      [ | discriminate ].
    injection Hg as <- <-. injection Hb as <- <-.
    assert (Hreg : exists o typ, stats c !! (self, b).1 = Some o
                                 /\ registered typ (self, b).2 (stat_bonuses o)).
    { destruct (registered_concat b (stat_bonuses me)) as [typ Hr];
        [ apply Hl, list_elem_of_here | ].
      exists me, typ. auto. }
    apply (IH _ _ _ Ho) in H; [ exact H | | | | ].
    + intros x Hx. apply Hl. now apply list_elem_of_further.
    + destruct (Bonus.is_empty (bonus_condition bo0)) eqn:Ec; cbn [fst]; [ | exact H1 ].
      apply Forall_app. split; [ exact H1 | ]. constructor; [ | constructor ].
      split; [ exact Hreg | ]. exists bo0. auto.
    + destruct (Bonus.is_empty (bonus_condition bo0)) eqn:Ec; cbn [snd]; [ exact H2 | ].
      apply Forall_app. split; [ exact H2 | ]. constructor; [ | constructor ].
      split; [ exact Hreg | ]. exists bo0. auto.
    + apply Forall_app in Hd as [Hd1 Hd2].
      destruct (Bonus.is_empty (bonus_condition bo0)); cbn [fst snd];
        rewrite ?Forall_app; repeat split; try assumption;
        (constructor; [ apply depends_refl | constructor ]).
Qed.

(** [get_bonuses] reads the store and leaves it alone, and what it returns
    is sound: every pair of the first list is a bonus without condition, and
    every pair of the second list a bonus with one, that is in the dict of
    the stat it is paired with, and that stat is the stat asked about or one
    it uses, directly or not. *)
Theorem get_bonuses_sound (fuel : nat) (self : string) (c c' : Character)
  (r : Views.pairs) :
  Views.get_bonuses fuel self c = Ok r c' ->
  c' = c
  /\ Forall (listed c false) r.1
  /\ Forall (listed c true) r.2
  /\ Forall (fun p => depends c self p.1) (r.1 ++ r.2).
Proof.
  revert self c' r. induction fuel as [|fuel IH]; intros self c' r H; [ discriminate | ].
  cbn [Views.get_bonuses] in H.
  bind_inv H me c0 Hg. apply get_stat_inv in Hg as [-> Ho].
  bind_inv H own c0 Hown. unfold Views.own_bonuses in Hown.
  apply (own_bonuses_sound self me c _ _ _ _ Ho) in Hown;
    [ | auto | constructor | constructor | constructor ].
  destruct Hown as (-> & Hown1 & Hown2 & Hownd).
  assert (Huses : forall n, n ∈ elements (stat_uses me) -> n ∈ stat_uses me)
    by (intros n; apply elem_of_elements).
  revert own Hown1 Hown2 Hownd H Huses.
  induction (elements (stat_uses me)) as [|n l IHl]; intros acc H1 H2 Hd H Huses;
    cbn [foldM] in H.
  - injection H as <- <-. auto.
  - bind_inv H acc1 c1 Hstep. bind_inv Hstep u c0 Hc.
    destruct (stat_char me); [ | discriminate ]. injection Hc as <-.
    bind_inv Hstep o c0 Hk. apply char_stats_inv in Hk as (-> & _).
    bind_inv Hstep rn c0 Hn. injection Hstep as <- <-.
    destruct (IH _ _ _ Hn) as (-> & Hn1 & Hn2 & Hnd).
    apply (IHl _) in H; [ exact H | | | | ].
    + cbn [fst]. apply Forall_app. auto.
    + cbn [snd]. apply Forall_app. auto.
    + cbn [fst snd]. apply Forall_app in Hd as [Hd1 Hd2].
      apply Forall_app in Hnd as [Hnd1 Hnd2].
      assert (Hlift : forall ps : list (string * string),
                        Forall (fun p => depends c n p.1) ps ->
                        Forall (fun p => depends c self p.1) ps).
      { intros ps Hps. eapply Forall_impl; [ exact Hps | ]. intros p Hp. cbn beta in Hp |- *.
        apply (depends_step c self n me _ Ho); [ | exact Hp ].
        apply Huses, list_elem_of_here. }
      rewrite !Forall_app. repeat split; auto.
    + intros m Hm. apply Huses. now apply list_elem_of_further.
Qed.

Lemma get_bonuses_sound_witness :
  Views.get_bonuses 1 "ac" with_shield = Ok ([("ac", "shield")], []) with_shield
  /\ with_shield = with_shield
  /\ Forall (listed with_shield false) [("ac", "shield")]
  /\ Forall (listed with_shield true) []
  /\ Forall (fun p => depends with_shield "ac" p.1) ([("ac", "shield")] ++ []).
Proof.
  assert (H : Views.get_bonuses 1 "ac" with_shield
              = Ok ([("ac", "shield")], []) with_shield)
    by (vm_compute; reflexivity).
  split; [ exact H | ].
  exact (get_bonuses_sound 1 "ac" with_shield with_shield _ H).
Defined.

(** ** The command line *)

Lemma assign_no_blank k v d :
  k <> "" -> v <> Cli.Word "" ->
  Forall (fun kv : string * Cli.arg => kv.1 <> "" /\ kv.2 <> Cli.Word "") d ->
  Forall (fun kv : string * Cli.arg => kv.1 <> "" /\ kv.2 <> Cli.Word "")
    (Cli.assign k v d).
Proof.
  intros Hk Hv. induction d as [|[k' v'] r IH]; intros Hd; cbn [Cli.assign].
  - constructor; [ now split | constructor ].
  - apply Forall_cons in Hd as [[Hk' Hv'] Hr].
    destruct (String.eqb k' k); constructor; auto.
Qed.

Lemma step_no_blank lower split c st st' :
  no_blank st -> Cli.step lower split c st = inr st' -> no_blank st'.
Proof.
  intros (Ha & Hk & Hkey). unfold Cli.step.
  destruct (Ascii.eqb c " ").
  - destruct (Cli.quote st).
    + intros [= <-]. unfold no_blank; cbn. auto.
    + destruct (Cli.s st) as [|x r] eqn:Es.
      * destruct (Cli.key st) as [[|a b]|] eqn:Ek; [ | discriminate | ];
          intros [= <-]; unfold no_blank; rewrite Ek; auto.
      * cbv zeta.
        match goal with
        | |- context [if ?b then Cli.Items ?l else Cli.Word ?w] =>
            set (v := if b then Cli.Items l else Cli.Word w)
        end.
        assert (Hv : v <> Cli.Word "").
        { subst v. destruct (_ && _); discriminate. }
        destruct (Cli.key st) as [[|a b]|] eqn:Ek; intros [= <-];
          unfold no_blank; cbn.
        -- now contradiction Hkey.
        -- split; [ exact Ha | ]. split; [ | discriminate ].
           apply assign_no_blank; [ discriminate | exact Hv | exact Hk ].
        -- split; [ | split; [ exact Hk | discriminate ] ].
           apply Forall_app. split; [ exact Ha | ]. now constructor.
  - destruct (Ascii.eqb c Py.dquote).
    + destruct (Cli.quote st); intros [= <-]; unfold no_blank; cbn; auto.
    + destruct (Ascii.eqb c "=" && negb (Cli.quote st)).
      * destruct (Cli.key st) as [[|a b]|]; [ now contradiction Hkey | discriminate | ].
        destruct (Cli.s st) as [|x r]; [ discriminate | ].
        intros [= <-]. unfold no_blank; cbn.
        split; [ exact Ha | ]. split; [ exact Hk | discriminate ].
      * intros [= <-]. unfold no_blank; cbn. auto.
Qed.

Lemma scan_no_blank lower split line : forall st st',
  no_blank st -> Cli.scan lower split line st = inr st' -> no_blank st'.
Proof.
  induction line as [|c r IH]; intros st st' Hst; cbn [Cli.scan].
  - now intros [= <-].
  - destruct (Cli.step lower split c st) as [e|st1] eqn:Es; [ discriminate | ].
    apply IH. exact (step_no_blank _ _ _ _ _ Hst Es).
Qed.

(** Whatever the line, [get_args] returns no empty argument: every
    positional argument and every value of a keyword is a text that is not
    empty or a list, and no keyword has the empty name. *)
Theorem get_args_no_blank (line : string) (lower split : bool)
  (args : list Cli.arg) (kwargs : list (string * Cli.arg)) :
  Cli.get_args line lower split = inr (args, kwargs) ->
  Forall (fun a => a <> Cli.Word "") args
  /\ Forall (fun kv => kv.1 <> "" /\ kv.2 <> Cli.Word "") kwargs.
Proof.
  unfold Cli.get_args.
  destruct (Cli.scan _ _ _ _) as [e|st] eqn:Es; [ discriminate | ].
  intros [= <- <-].
  assert (H0 : no_blank (Cli.start lower)).
  { unfold no_blank; cbn. split; [ constructor | ].
    split; [ constructor | discriminate ]. }
  destruct (scan_no_blank _ _ _ _ _ H0 Es) as (Ha & Hk & _).
  now split.
Qed.

Lemma get_args_no_blank_witness :
  Cli.get_args "set ac armor,shield text=heavy" false true
  = inr ([Cli.Word "set"; Cli.Word "ac"; Cli.Items ["armor"; "shield"]],
         [("text", Cli.Word "heavy")])
  /\ Forall (fun a => a <> Cli.Word "")
       [Cli.Word "set"; Cli.Word "ac"; Cli.Items ["armor"; "shield"]]
  /\ Forall (fun kv : string * Cli.arg => kv.1 <> "" /\ kv.2 <> Cli.Word "")
       [("text", Cli.Word "heavy")].
Proof.
  assert (H : Cli.get_args "set ac armor,shield text=heavy" false true
              = inr ([Cli.Word "set"; Cli.Word "ac"; Cli.Items ["armor"; "shield"]],
                     [("text", Cli.Word "heavy")])) by reflexivity.
  split; [ exact H | ].
  exact (get_args_no_blank _ _ _ _ _ H).
Defined.

Lemma scan_app lower split a : forall b st,
  Cli.scan lower split (a +:+ b) st
  = match Cli.scan lower split a st with
    | inl e => inl e
    | inr st' => Cli.scan lower split b st'
    end.
Proof.
  induction a as [|c a IH]; intros b st; [ reflexivity | ].
  rewrite app_cons. cbn [Cli.scan].
  destruct (Cli.step lower split c st); [ reflexivity | apply IH ].
Qed.

Lemma plain_char_tests c :
  plain_char c = true ->
  Text.is_space c = false /\ Ascii.eqb c " " = false
  /\ Ascii.eqb c Py.dquote = false /\ Ascii.eqb c "=" = false
  /\ Ascii.eqb c "," = false.
Proof.
  unfold plain_char. intros H.
  apply andb_true_iff in H as [H H4]. apply andb_true_iff in H as [H H3].
  apply andb_true_iff in H as [H1 H2].
  apply negb_true_iff in H1, H2, H3, H4. split_and!; try assumption.
  destruct (Ascii.eqb_spec c " ") as [->|_]; [ discriminate | reflexivity ].
Qed.

Lemma lower_char_comma x : Py.lower_char x = ","%char -> x = ","%char.
Proof. destruct x as [[] [] [] [] [] [] [] []]; cbv; congruence. Qed.

Lemma read_as_cons l c w :
  read_as l (String c w)
  = String (if l then Py.lower_char c else c) (read_as l w).
Proof. now destruct l. Qed.

Lemma read_as_no_comma l w :
  plain_word w = true -> Py.count "," (read_as l w) = 0%nat.
Proof.
  induction w as [|c w IH]; [ now destruct l | ].
  cbn [plain_word]. intros H. apply andb_true_iff in H as [Hc Hw].
  rewrite read_as_cons. cbn [Py.count]. rewrite (IH Hw).
  destruct (plain_char_tests c Hc) as (_ & _ & _ & _ & Hcomma).
  destruct (Ascii.eqb_spec "," (if l then Py.lower_char c else c)) as [E|_];
    [ | reflexivity ].
  destruct l.
  - symmetry in E. apply lower_char_comma in E. subst c. discriminate.
  - subst c. discriminate.
Qed.

Lemma read_as_not_nil l w : w <> "" -> read_as l w <> "".
Proof. destruct w; [ contradiction | ]. intros _. rewrite read_as_cons. discriminate. Qed.

(** The loop over a text of plain characters, outside quotes. *)
Lemma scan_word lower split w : forall a k q lw s0 key,
  plain_word w = true ->
  Cli.scan lower split w (Cli.mkState a k false q lw s0 key)
  = inr (Cli.mkState a k false q lw (s0 +:+ read_as lw w) key).
Proof.
  induction w as [|c w IH]; intros a k q lw s0 key Hw.
  - cbn [Cli.scan]. destruct lw; cbn [read_as]; now rewrite append_nil_r.
  - cbn [plain_word] in Hw. apply andb_true_iff in Hw as [Hc Hw].
    destruct (plain_char_tests c Hc) as (_ & Hsp & Hq & Heq & _).
    cbn [Cli.scan]. unfold Cli.step.
    cbn [Cli.quote Cli.args Cli.kwargs Cli.last_quoted Cli.to_lower Cli.s Cli.key].
    rewrite Hsp, Hq, Heq. cbn [andb]. rewrite (IH _ _ _ _ _ _ Hw).
    rewrite read_as_cons, append_assoc. reflexivity.
Qed.

(** A word and the space after it, from between two words. *)
Lemma scan_word_space lower split w rest a :
  is_word w = true ->
  Cli.scan lower split (w +:+ String " " rest)
    (Cli.mkState a [] false false lower "" None)
  = Cli.scan lower split rest
      (Cli.mkState (a ++ [Cli.Word (read_as lower w)]) [] false false lower "" None).
Proof.
  intros Hw.
  assert (Hne : w <> "") by (destruct w; [ discriminate | discriminate ]).
  assert (Hp : plain_word w = true) by (destruct w; [ discriminate | exact Hw ]).
  rewrite scan_app, (scan_word _ _ _ _ _ _ _ _ _ Hp).
  change ("" +:+ read_as lower w) with (read_as lower w).
  cbn [Cli.scan]. unfold Cli.step.
  cbn [Ascii.eqb Bool.eqb Cli.quote Cli.args Cli.kwargs Cli.last_quoted
       Cli.to_lower Cli.s Cli.key].
  pose proof (read_as_not_nil lower w Hne) as Hn.
  destruct (read_as lower w) as [|x r] eqn:Er; [ contradiction | ].
  rewrite <- Er.
  rewrite (contains_absent "," "" _ (read_as_no_comma lower w Hp)).
  now rewrite andb_false_r.
Qed.

Lemma scan_words lower split words : forall a,
  Forall (fun w => is_word w = true) words ->
  Cli.scan lower split (Py.join " " words +:+ " ")
    (Cli.mkState a [] false false lower "" None)
  = inr (Cli.mkState (a ++ map (fun w => Cli.Word (read_as lower w)) words)
           [] false false lower "" None).
Proof.
  induction words as [|w words IH]; intros a Hall.
  - cbn. now rewrite app_nil_r.
  - apply Forall_cons in Hall as [Hw Hall]. destruct words as [|w' words].
    + cbn [Py.join map]. now rewrite (scan_word_space _ _ _ "" _ Hw).
    + change (Py.join " " (w :: w' :: words))
        with (w +:+ " " +:+ Py.join " " (w' :: words)).
      rewrite !append_assoc. rewrite app_cons. change ("" +:+ ?x) with x.
      rewrite (scan_word_space _ _ _ _ _ Hw), (IH _ Hall).
      cbn [map]. now rewrite <- app_assoc.
Qed.

Lemma starts_blank_app a b : a <> "" -> starts_blank (a +:+ b) = starts_blank a.
Proof. destruct a; [ contradiction | reflexivity ]. Qed.

Lemma ends_blank_app a b : b <> "" -> ends_blank (a +:+ b) = ends_blank b.
Proof.
  intros Hb. induction a as [|c a IH]; [ reflexivity | ].
  rewrite app_cons, ends_blank_cons; [ exact IH | now apply app_not_nil ].
Qed.

Lemma plain_word_ends w : plain_word w = true -> ends_blank w = false.
Proof.
  induction w as [|c w IH]; [ reflexivity | ].
  cbn [plain_word]. intros H. apply andb_true_iff in H as [Hc Hw].
  destruct (plain_char_tests c Hc) as (Hsp & _).
  destruct w as [|d r]; [ exact Hsp | ]. now apply IH.
Qed.

Lemma word_trimmed w :
  is_word w = true -> w <> "" /\ starts_blank w = false /\ ends_blank w = false.
Proof.
  destruct w as [|c w]; [ discriminate | ]. intros H.
  split; [ discriminate | ]. split; [ | now apply plain_word_ends ].
  cbn [is_word plain_word] in H. apply andb_true_iff in H as [Hc _].
  now destruct (plain_char_tests c Hc) as (Hsp & _).
Qed.

Lemma join_words_trimmed words :
  Forall (fun w => is_word w = true) words ->
  starts_blank (Py.join " " words) = false
  /\ ends_blank (Py.join " " words) = false
  /\ (words <> [] -> Py.join " " words <> "").
Proof.
  induction words as [|w words IH]; intros Hall; [ now split | ].
  apply Forall_cons in Hall as [Hw Hall].
  destruct (word_trimmed w Hw) as (Hne & Hs & He).
  destruct words as [|w' words]; [ cbn [Py.join]; auto | ].
  destruct (IH Hall) as (_ & He' & Hne').
  change (Py.join " " (w :: w' :: words))
    with (w +:+ " " +:+ Py.join " " (w' :: words)).
  split; [ now rewrite starts_blank_app | ].
  split.
  - rewrite ends_blank_app by discriminate.
    change (" " +:+ ?x) with (String " " x).
    rewrite ends_blank_cons; [ exact He' | now apply Hne' ].
  - intros _. destruct w; [ contradiction | discriminate ].
Qed.

(** A line of words with one space between them is read as those words:
    where every word is a text, not empty, without blank, quote, equals sign
    or comma, the arguments are the words, in lower case if asked for, and
    there is no keyword. *)
Theorem get_args_words (words : list string) (lower split : bool) :
  Forall (fun w => is_word w = true) words ->
  Cli.get_args (Py.join " " words) lower split
  = inr (map (fun w => Cli.Word (if lower then Py.lower w else w)) words, []).
Proof.
  intros Hall. unfold Cli.get_args.
  destruct (join_words_trimmed words Hall) as (Hs & He & _).
  rewrite (strip_id _ Hs He). unfold Cli.start.
  now rewrite (scan_words lower split words [] Hall).
Qed.

Lemma get_args_words_witness :
  Forall (fun w => is_word w = true) ["get"; "AC"; "touch"]
  /\ Cli.get_args (Py.join " " ["get"; "AC"; "touch"]) true true
     = inr (map (fun w => Cli.Word (if true then Py.lower w else w))
              ["get"; "AC"; "touch"], []).
Proof.
  assert (H : Forall (fun w => is_word w = true) ["get"; "AC"; "touch"])
    by (repeat constructor).
  split; [ exact H | ].
  exact (get_args_words ["get"; "AC"; "touch"] true true H).
Defined.

(** The loop inside quotes. *)
Lemma scan_quoted lower split w : forall a k q s0 key,
  Py.count Py.dquote w = 0%nat ->
  Cli.scan lower split w (Cli.mkState a k true q false s0 key)
  = inr (Cli.mkState a k true q false (s0 +:+ w) key).
Proof.
  induction w as [|c w IH]; intros a k q s0 key Hw.
  - cbn [Cli.scan]. now rewrite append_nil_r.
  - cbn [Py.count] in Hw.
    destruct (Ascii.eqb_spec Py.dquote c) as [E|Hne]; [ discriminate | ].
    cbn [Nat.add] in Hw.
    cbn [Cli.scan]. unfold Cli.step.
    cbn [Cli.quote Cli.args Cli.kwargs Cli.last_quoted Cli.to_lower Cli.s Cli.key].
    destruct (Ascii.eqb_spec c Py.dquote) as [E|_]; [ now subst | ].
    rewrite andb_false_r.
    destruct (Ascii.eqb c " "); rewrite (IH _ _ _ _ _ Hw), append_assoc; reflexivity.
Qed.

Lemma ends_blank_last a c : ends_blank (a +:+ String c "") = Text.is_space c.
Proof. now rewrite ends_blank_app by discriminate. Qed.

(** Quotes keep a text together: a text between double quotes, not empty
    and without double quote, is read as one argument, as it is, with its
    spaces, commas and equals signs, and is not put in lower case. *)
Theorem get_args_quoted (w : string) (lower split : bool) :
  w <> "" ->
  Py.count Py.dquote w = 0%nat ->
  Cli.get_args (String Py.dquote (w +:+ String Py.dquote "")) lower split
  = inr ([Cli.Word w], []).
Proof.
  intros Hne Hq. unfold Cli.get_args.
  rewrite strip_id.
  2:{ reflexivity. }
  2:{ rewrite <- app_cons. apply ends_blank_last. }
  rewrite app_cons. cbn [Cli.scan]. unfold Cli.start, Cli.step at 1.
  change (Ascii.eqb Py.dquote " ") with false.
  change (Ascii.eqb Py.dquote Py.dquote) with true.
  cbn [Cli.quote Cli.args Cli.kwargs Cli.last_quoted Cli.to_lower Cli.s Cli.key].
  rewrite append_assoc, scan_app, (scan_quoted _ _ _ _ _ _ _ _ Hq).
  change ("" +:+ w) with w.
  change (String Py.dquote "" +:+ " ") with (String Py.dquote " ").
  cbn [Cli.scan]. unfold Cli.step.
  change (Ascii.eqb Py.dquote " ") with false.
  change (Ascii.eqb Py.dquote Py.dquote) with true.
  cbn [Ascii.eqb Bool.eqb Cli.quote Cli.args Cli.kwargs Cli.last_quoted
       Cli.to_lower Cli.s Cli.key negb andb].
  destruct w as [|x r]; [ contradiction | reflexivity ].
Qed.

Lemma get_args_quoted_witness :
  "a=b, c d" <> ""
  /\ Py.count Py.dquote "a=b, c d" = 0%nat
  /\ Cli.get_args (String Py.dquote ("a=b, c d" +:+ String Py.dquote "")) true true
     = inr ([Cli.Word "a=b, c d"], []).
Proof.
  assert (H1 : "a=b, c d" <> "") by discriminate.
  assert (H2 : Py.count Py.dquote "a=b, c d" = 0%nat) by reflexivity.
  split; [ exact H1 | ]. split; [ exact H2 | ].
  exact (get_args_quoted "a=b, c d" true true H1 H2).
Defined.
